(** * FisInMa.solving.solve_fsm: sensitivity matrix and Fisher criteria

    A shallow embedding of [src/FisInMa/solving/solve_fsm.py], and of the
    model function [exp_growth] of [src/examples/limited_growth.py].

    - Numbers.  The arrays of the source hold IEEE doubles.  The array code
      is embedded over an arbitrary carrier [R] with the operations the source
      uses (class [Scalar]); nothing is assumed about them unless a theorem
      says so, hence every structural result also holds for doubles, which
      are one instance ([Scalar_float], the kernel's binary64).  [Scalar_Z]
      is an exact instance.
    - Arrays.  One-, two- and three-dimensional numpy arrays of fixed rank
      are nested lists in row-major order; arrays whose rank depends on the
      design (the tensor [S], [times]) are a shape with row-major flat data
      ([ndarray]), as numpy stores them.
    - Errors.  A Python exception is [None]; the source has no handler, so
      [None] propagates.
    - Libraries.  [scipy.integrate.solve_ivp], [np.linalg.det],
      [np.linalg.eigvals] and [np.sum] are not code of the repository: the
      integrator is a parameter of [get_S_matrix], the determinant, the
      eigenvalue routine and the summation are parameters of the criteria,
      of which nothing is assumed. *)

From Stdlib Require Import List Arith PeanoNat Bool ZArith Lia Permutation.
From Stdlib Require Import PrimFloat.
Import ListNotations.

Set Implicit Arguments.

(** ** Exceptions as [option] *)

Definition bind {A B : Type} (m : option A) (k : A -> option B) : option B :=
  match m with
  | Some a => k a
  | None => None
  end.

Notation "x <- m ;; k" := (bind m (fun x => k))
  (at level 61, m at next level, right associativity).
Notation "' p <- m ;; k" := (bind m (fun x => match x with p => k end))
  (at level 61, p pattern, m at next level, right associativity).

Fixpoint mapM {A B : Type} (f : A -> option B) (l : list A) : option (list B) :=
  match l with
  | [] => Some []
  | a :: l' => b <- f a ;; bs <- mapM f l' ;; Some (b :: bs)
  end.

Definition zipM {A B C : Type} (f : A -> B -> option C)
    (l1 : list A) (l2 : list B) : option (list C) :=
  mapM (fun ab => f (fst ab) (snd ab)) (combine l1 l2).

(** ** Scalars *)

Class Scalar (R : Type) : Type := {
  rzero : R;
  rone : R;
  radd : R -> R -> R;
  rmul : R -> R -> R;
  rdiv : R -> R -> R;
  req : R -> R -> bool;
  rle : R -> R -> bool
}.

#[export] Instance Scalar_float : Scalar float := {
  rzero := PrimFloat.zero;
  rone := PrimFloat.one;
  radd := PrimFloat.add;
  rmul := PrimFloat.mul;
  rdiv := PrimFloat.div;
  req := PrimFloat.eqb;
  rle := PrimFloat.leb
}.

#[export] Instance Scalar_Z : Scalar Z := {
  rzero := 0%Z;
  rone := 1%Z;
  radd := Z.add;
  rmul := Z.mul;
  rdiv := Z.div;
  req := Z.eqb;
  rle := Z.leb
}.

(** ** numpy on nested lists *)

Section Numpy.

Context {R : Type} `{Scalar R}.

(** [np.split(x, [i1, i2])]: the slices [x[:i1]], [x[i1:i2]], [x[i2:]]. *)
Definition np_split3 (x : list R) (i1 i2 : nat) : list R * list R * list R :=
  (firstn i1 x, firstn (i2 - i1) (skipn i1 x), skipn i2 x).

(** [rows] consecutive pieces of [cols] entries each. *)
Fixpoint chunks {A : Type} (rows cols : nat) (l : list A) : list (list A) :=
  match rows with
  | 0 => []
  | S r => firstn cols l :: chunks r cols (skipn cols l)
  end.

(** [a.reshape((rows, cols))] of a flat array: [ValueError] unless the sizes agree. *)
Definition np_reshape2 (a : list R) (rows cols : nat) : option (list (list R)) :=
  if length a =? rows * cols then Some (chunks rows cols a) else None.

Definition column (j : nat) (b : list (list R)) : list R :=
  map (fun row => nth j row rzero) b.

(** Inner product, accumulated from zero in index order. *)
Definition dotp (u v : list R) : R :=
  fold_left (fun acc ab => radd acc (rmul (fst ab) (snd ab))) (combine u v) rzero.

(** [np.dot(a, b)] for a two-dimensional [a] and [b] of shape
    [(len(b), ncols)]: [ValueError] unless every row of [a] has [len(b)]
    entries. *)
Definition np_dot (a b : list (list R)) (ncols : nat) : option (list (list R)) :=
  mapM (fun row =>
          if length row =? length b
          then Some (map (fun j => dotp row (column j b)) (seq 0 ncols))
          else None) a.

(** numpy broadcasting along one axis: equal lengths pair up, an axis of
    length one is stretched, anything else is a [ValueError]. *)
Definition bcast {A B C : Type} (f : A -> B -> option C)
    (l1 : list A) (l2 : list B) : option (list C) :=
  if length l1 =? length l2 then zipM f l1 l2
  else match l1, l2 with
       | [a], _ => mapM (f a) l2
       | _, [b] => mapM (fun a => f a b) l1
       | _, _ => None
       end.

(** [a + b] on two-dimensional arrays. *)
Definition np_add2 (a b : list (list R)) : option (list (list R)) :=
  bcast (bcast (fun u v => Some (radd u v))) a b.

End Numpy.

(** ** [ode_rhs] *)

Section OdeRhs.

Context {R : Type} `{Scalar R}.

(** The user's callables [f(t, x, inputs, parameters, ode_args)]. *)
Definition user_fun : Type :=
  R -> list R -> list R -> list R -> list R -> list R.
Definition user_jac : Type :=
  R -> list R -> list R -> list R -> list R -> list (list R).

(** [ode_rhs] (lines 8-44). *)
Definition ode_rhs (t : R) (x : list R)
    (ode_fun : user_fun) (ode_dfdx ode_dfdp : user_jac)
    (inputs parameters ode_args : list R) (n_x n_p : nat) : option (list R) :=
  let '(x_fun, s, rest) := np_split3 x n_x (n_x + n_x * n_p) in
  s <- np_reshape2 s n_x n_p ;;
  let dx_f := ode_fun t x_fun inputs parameters ode_args in
  let dfdx := ode_dfdx t x_fun inputs parameters ode_args in
  let dfdp := ode_dfdp t x_fun inputs parameters ode_args in
  d <- np_dot dfdx s n_p ;;
  ds <- np_add2 d dfdp ;;
  Some (dx_f ++ concat ds).

End OdeRhs.

Arguments user_fun R : clear implicits.
Arguments user_jac R : clear implicits.

(** ** Arrays of design-dependent rank *)

Record ndarray (R : Type) : Type := Ndarray {
  shape : list nat;
  data : list R
}.

Arguments Ndarray {R} _ _.
Arguments shape {R} _.
Arguments data {R} _.

Section NdArray.

Context {R : Type} `{Scalar R}.

Definition prod (dims : list nat) : nat := fold_right Nat.mul 1 dims.

(** [enumerate(l)]. *)
Definition enumerate {A : Type} (l : list A) : list (nat * A) :=
  combine (seq 0 (length l)) l.

(** Replace entry [i]; nothing happens out of range (callers check first). *)
Fixpoint set_nth {A : Type} (i : nat) (v : A) (l : list A) : list A :=
  match l, i with
  | [], _ => []
  | _ :: l', 0 => v :: l'
  | a :: l', S i' => a :: set_nth i' v l'
  end.

Definition np_zeros (dims : list nat) : ndarray R :=
  Ndarray dims (repeat rzero (prod dims)).

Definition np_zeros3 (d0 d1 d2 : nat) : list (list (list R)) :=
  repeat (repeat (repeat rzero d2) d1) d0.

(** [np.eye(n)]. *)
Definition np_eye (n : nat) : ndarray R :=
  Ndarray [n; n]
    (flat_map (fun i => map (fun j => if i =? j then rone else rzero) (seq 0 n))
              (seq 0 n)).

(** Row-major offset of a full index tuple; [IndexError] when the tuple has
    the wrong length or an entry is out of range. *)
Fixpoint ravel (dims idx : list nat) (acc : nat) : option nat :=
  match dims, idx with
  | [], [] => Some acc
  | d :: dims', i :: idx' =>
      if i <? d then ravel dims' idx' (acc * d + i) else None
  | _, _ => None
  end.

(** [a.shape[-1]]. *)
Definition np_shape_last (a : ndarray R) : option nat :=
  match rev (shape a) with
  | d :: _ => Some d
  | [] => None
  end.

(** [a[index]] for a tuple of integers: the sub-array at that position. *)
Definition np_getitem (a : ndarray R) (index : list nat) : option (ndarray R) :=
  let k := length index in
  off <- ravel (firstn k (shape a)) index 0 ;;
  let rest := skipn k (shape a) in
  Some (Ndarray rest (firstn (prod rest) (skipn (off * prod rest) (data a)))).

(** [np.max(t)]: [ValueError] on an empty array. *)
Definition np_max (t : list R) : option R :=
  match t with
  | [] => None
  | x :: l => Some (fold_left (fun m v => if rle m v then v else m) l x)
  end.

(** [np.unique(t, return_counts=True)]: sort the flattened array, keep the
    first entry of every run of equal entries, count the runs.  The sort is
    written as an insertion sort; on entries that [rle] orders totally every
    sort returns the same list. *)
Fixpoint insert (x : R) (l : list R) : list R :=
  match l with
  | [] => [x]
  | y :: l' => if rle x y then x :: l else y :: insert x l'
  end.

Fixpoint np_sort (l : list R) : list R :=
  match l with
  | [] => []
  | x :: l' => insert x (np_sort l')
  end.

Fixpoint runs (l : list R) : list (R * nat) :=
  match l with
  | [] => []
  | x :: l' =>
      match runs l' with
      | (y, c) :: rest => if req x y then (x, S c) :: rest
                          else (x, 1) :: (y, c) :: rest
      | [] => [(x, 1)]
      end
  end.

Definition np_unique (t : list R) : list R * list nat :=
  split (runs (np_sort t)).

(** [np.repeat(a, counts)] along the axis [a] lists: one count per entry,
    or a single count for all of them. *)
Definition np_repeat {A : Type} (a : list A) (counts : list nat) : option (list A) :=
  if length counts =? length a
  then Some (flat_map (fun xc => repeat (fst xc) (snd xc)) (combine a counts))
  else match counts with
       | [c] => Some (flat_map (fun x => repeat x c) a)
       | _ => None
       end.

(** [np.repeat(s, counts, axis=2)] on a three-dimensional array. *)
Definition np_repeat_axis2 (s : list (list (list R))) (counts : list nat)
    : option (list (list (list R))) :=
  mapM (mapM (fun row => np_repeat row counts)) s.

(** [r.reshape((d0, d1, -1))] of a two-dimensional [r]. *)
Definition np_reshape3 (r : list (list R)) (d0 d1 : nat)
    : option (list (list (list R))) :=
  let flat := concat r in
  if d0 * d1 =? 0 then None
  else if length flat mod (d0 * d1) =? 0
       then let d2 := length flat / (d0 * d1) in
            Some (map (chunks d1 d2) (chunks d0 (d1 * d2) flat))
       else None.

(** [np.swapaxes(a, 0, 1)] of a three-dimensional array with [d1] rows per block. *)
Definition np_swapaxes01 (a : list (list (list R))) (d1 : nat)
    : list (list (list R)) :=
  map (fun j => map (fun blk => nth j blk []) a) (seq 0 d1).

(** In-place [row /= d]: [d] may be stretched, [row] may not. *)
Definition idiv (row d : list R) : option (list R) :=
  if length d =? length row
  then Some (map (fun vd => rdiv (fst vd) (snd vd)) (combine row d))
  else match d with
       | [d0] => Some (map (fun v => rdiv v d0) row)
       | _ => None
       end.

(** The value side of an assignment, stretched to [n] entries. *)
Definition stretch {A : Type} (n : nat) (l : list A) : option (list A) :=
  if length l =? n then Some l
  else match l with
       | [x] => Some (repeat x n)
       | _ => None
       end.

(** [a.reshape((rows, -1))]. *)
Definition np_reshape_rows (a : ndarray R) (rows : nat) : option (ndarray R) :=
  if rows =? 0 then None
  else if length (data a) mod rows =? 0
       then Some (Ndarray [rows; length (data a) / rows] (data a))
       else None.

End NdArray.

(** A [for] loop whose body may raise. *)
Fixpoint foldM {A St : Type} (f : St -> A -> option St) (l : list A) (s : St)
    : option St :=
  match l with
  | [] => Some s
  | a :: l' => s' <- f s a ;; foldM f l' s'
  end.

(** ** The design, the integrator and the per-combination record *)

Section Assembler.

Context {R : Type} `{Scalar R}.

(** Modelled from the spec: [FisherModelParametrized] is a class of
    [FisInMa.model], which is not among the sources; these are the
    attributes [solve_fsm.py] reads from it. *)
Record FisherModelParametrized : Type := {
  parameters : list R;
  ode_t0 : list R;
  ode_x0 : list (list R);
  inputs : list (list R);
  times : ndarray R;
  identical_times : bool;
  ode_fun : user_fun R;
  ode_dfdx : user_jac R;
  ode_dfdp : user_jac R;
  ode_args : list R
}.

(** [scipy.integrate.solve_ivp(fun, t_span=(t0, tf), y0, t_eval)], reduced
    to the attribute [y] of its result; [None] when it raises. *)
Definition integrator : Type :=
  (R -> list R -> option (list R)) -> R -> R -> list R -> list R ->
  option (list (list R)).

(** Modelled from the spec: [FisherResultSingle], also of [FisInMa.model];
    the keyword arguments [get_S_matrix] builds it from. *)
Record FisherResultSingle : Type := {
  frs_ode_x0 : list R;
  frs_ode_t0 : R;
  frs_times : ndarray R;
  frs_inputs : list R;
  frs_parameters : list R;
  frs_ode_args : list R;
  frs_ode_solution : list (list R);
  frs_identical_times : bool
}.

(** [itertools.product] of the ranges [range(d)], [d] in [dims]. *)
Fixpoint index_product (dims : list nat) : list (list nat) :=
  match dims with
  | [] => [[]]
  | d :: dims' =>
      flat_map (fun i => map (cons i) (index_product dims')) (seq 0 d)
  end.

(** [itertools.product(a, b, c)]: the last factor varies fastest. *)
Definition itertools_product3 {A B C : Type}
    (a : list A) (b : list B) (c : list C) : list (A * B * C) :=
  flat_map (fun x => flat_map (fun y => map (fun z => (x, y, z)) c) b) a.

(** [for i, p in enumerate(fsmp.parameters): s[i] *= p]. *)
Definition scale_by_parameters (params : list R) (s : list (list (list R)))
    : option (list (list (list R))) :=
  foldM (fun s ip =>
           blk <- nth_error s (fst ip) ;;
           Some (set_nth (fst ip) (map (map (fun v => rmul v (snd ip))) blk) s))
        (enumerate params) s.

(** [for i, o in enumerate(res.y[:n_x0]): s[(slice(None), i)] /= np.repeat(o, counts, axis=0)]. *)
Definition divide_by_observables (ys : list (list R)) (counts : list nat)
    (s : list (list (list R))) : option (list (list (list R))) :=
  foldM (fun s io =>
           d <- np_repeat (snd io) counts ;;
           mapM (fun blk =>
                   row <- nth_error blk (fst io) ;;
                   row' <- idiv row d ;;
                   Some (set_nth (fst io) row' blk)) s)
        (enumerate ys) s.

(** [S[(slice(None), i_t0, i_x0, slice(None)) + index] = s] (lines 125, 127):
    the indices are checked, [s] is stretched to the shape of the slice
    where numpy broadcasts, and its entries are written at their row-major
    offsets.  [index] has one entry per input axis. *)
Definition assign_slice (S_ : ndarray R) (i_t0 i_x0 : nat) (index : list nat)
    (s : list (list (list R))) : option (ndarray R) :=
  match shape S_ with
  | n_p :: n_t0 :: N_x0 :: n_x0 :: rest =>
      _ <- ravel (n_t0 :: N_x0 :: removelast rest) (i_t0 :: i_x0 :: index) 0 ;;
      n_times <- np_shape_last S_ ;;
      s <- stretch n_p s ;;
      s <- mapM (fun blk => blk <- stretch n_x0 blk ;; mapM (stretch n_times) blk) s ;;
      d <- foldM (fun d jb =>
             foldM (fun d ir =>
               foldM (fun d kv =>
                 off <- ravel (shape S_)
                          ([fst jb; i_t0; i_x0; fst ir] ++ index ++ [fst kv]) 0 ;;
                 Some (set_nth off (snd kv) d))
               (enumerate (snd ir)) d)
             (enumerate (snd jb)) d)
           (enumerate s) (data S_) ;;
      Some (Ndarray (shape S_) d)
  | _ => None
  end.

(** The body of the loop of [get_S_matrix] (lines 82-140) up to the write
    into [S]: the sensitivity block [s] of one combination and its record.
    [n_p] and [n_x0] are the helper variables of lines 60 and 64. *)
Definition combination (solve_ivp : integrator) (fsmp : FisherModelParametrized)
    (n_p n_x0 : nat) (relative_sensitivities : bool)
    (x0 : list R) (t0 : R) (index : list nat)
    : option (list (list (list R)) * FisherResultSingle) :=
  Q <- mapM (fun ij => q <- nth_error (inputs fsmp) (fst ij) ;; nth_error q (snd ij))
            (enumerate index) ;;
  t <- (if identical_times fsmp then Some (times fsmp)
        else np_getitem (times fsmp) index) ;;
  let '(t_red, counts) := np_unique (data t) in
  let x0_full := x0 ++ repeat rzero (n_x0 * n_p) in
  t_max <- np_max (data t) ;;
  y <- solve_ivp
         (fun t x => ode_rhs t x (ode_fun fsmp) (ode_dfdx fsmp) (ode_dfdp fsmp)
                             Q (parameters fsmp) (ode_args fsmp) n_x0 n_p)
         t0 t_max x0_full t_red ;;
  s <- (if forallb (fun v => req v t0) t_red
        then c0 <- nth_error counts 0 ;; Some (np_zeros3 n_p n_x0 c0)
        else r <- np_reshape3 (skipn n_x0 y) n_x0 n_p ;;
             np_repeat_axis2 (np_swapaxes01 r n_p) counts) ;;
  s <- (if relative_sensitivities
        then s <- scale_by_parameters (parameters fsmp) s ;;
             divide_by_observables (firstn n_x0 y) counts s
        else Some s) ;;
  Some (s, {| frs_ode_x0 := x0;
              frs_ode_t0 := t0;
              frs_times := t;
              frs_inputs := Q;
              frs_parameters := parameters fsmp;
              frs_ode_args := ode_args fsmp;
              frs_ode_solution := y;
              frs_identical_times := identical_times fsmp |}).

(** The combinations in the order the loop visits them. *)
Definition combinations (fsmp : FisherModelParametrized)
    : list ((nat * list R) * (nat * R) * list nat) :=
  itertools_product3 (enumerate (ode_x0 fsmp)) (enumerate (ode_t0 fsmp))
                     (index_product (map (@length R) (inputs fsmp))).

(** [get_S_matrix] (lines 47-148).  [covar] is not used, and neither is
    the array [error_n] of line 73, which is left out. *)
Definition get_S_matrix (solve_ivp : integrator) (fsmp : FisherModelParametrized)
    (covar relative_sensitivities : bool)
    : option (ndarray R * ndarray R * list FisherResultSingle) :=
  let n_p := length (parameters fsmp) in
  let n_t0 := length (ode_t0 fsmp) in
  x00 <- nth_error (ode_x0 fsmp) 0 ;;
  let n_x0 := length x00 in
  let N_x0 := length (ode_x0 fsmp) in
  let inputs_shape := map (@length R) (inputs fsmp) in
  n_times <- np_shape_last (times fsmp) ;;
  let S_ := np_zeros ([n_p; n_t0; N_x0; n_x0] ++ inputs_shape ++ [n_times]) in
  ' (S_, solutions) <-
    foldM (fun st c =>
             let '(S_, solutions) := st in
             let '((i_x0, x0), (i_t0, t0), index) := c in
             ' (s, fsrs) <- combination solve_ivp fsmp n_p n_x0
                              relative_sensitivities x0 t0 index ;;
             S_ <- assign_slice S_ i_t0 i_x0 index s ;;
             Some (S_, solutions ++ [fsrs]))
          (combinations fsmp) (S_, []) ;;
  S_ <- np_reshape_rows S_ n_p ;;
  cols <- nth_error (shape S_) 1 ;;
  Some (S_, np_eye cols, solutions).

(** Modelled from the spec: [FisherResults] of [FisInMa.model]; [fr_design]
    stands for the public attributes of the design copied into it. *)
Record FisherResults (V : Type) : Type := {
  fr_criterion : V;
  fr_S : ndarray R;
  fr_C : ndarray R;
  fr_individual_results : list FisherResultSingle;
  fr_relative_sensitivities : bool;
  fr_design : FisherModelParametrized
}.

(** [calculate_fisher_criterion] (lines 214-242), with the assembler it
    calls as a parameter; [criterion] is the pluggable callable, [None] when
    it raises. *)
Definition calculate_fisher_criterion_with {V : Type}
    (assembler : FisherModelParametrized -> bool -> bool ->
                 option (ndarray R * ndarray R * list FisherResultSingle))
    (fsmp : FisherModelParametrized)
    (criterion : FisherModelParametrized -> ndarray R -> ndarray R -> option V)
    (covar relative_sensitivities : bool) : option (FisherResults V) :=
  ' (S_, C, solutions) <- assembler fsmp covar relative_sensitivities ;;
  C <- (if negb covar
        then cols <- nth_error (shape S_) 1 ;; Some (np_eye cols)
        else Some C) ;;
  crit <- criterion fsmp S_ C ;;
  Some {| fr_criterion := crit;
          fr_S := S_;
          fr_C := C;
          fr_individual_results := solutions;
          fr_relative_sensitivities := relative_sensitivities;
          fr_design := fsmp |}.

Definition calculate_fisher_criterion {V : Type} (solve_ivp : integrator)
    (fsmp : FisherModelParametrized)
    (criterion : FisherModelParametrized -> ndarray R -> ndarray R -> option V)
    (covar relative_sensitivities : bool) : option (FisherResults V) :=
  calculate_fisher_criterion_with (get_S_matrix solve_ivp) fsmp criterion
                                  covar relative_sensitivities.

End Assembler.

Arguments FisherModelParametrized R : clear implicits.
Arguments FisherResultSingle R : clear implicits.
Arguments FisherResults R V : clear implicits.
Arguments integrator R : clear implicits.

(** ** The criteria

    [S] and [C] are two-dimensional arrays, as [get_S_matrix] returns
    them.  [np.linalg.det], [np.linalg.eigvals] and [np.sum] are library
    routines: parameters, of which nothing is assumed.  The first argument
    [fsmp] is unused, as in the source. *)

Section Criteria.

Context {R : Type} `{Scalar R}.

(** Row [i] and column [j] of a two-dimensional array with [ncols]
    columns. *)
Definition nd_row (a : ndarray R) (ncols i : nat) : list R :=
  map (fun l => nth (i * ncols + l) (data a) rzero) (seq 0 ncols).

Definition nd_column (a : ndarray R) (nrows ncols j : nat) : list R :=
  map (fun l => nth (l * ncols + j) (data a) rzero) (seq 0 nrows).

(** [a.dot(b)] on two-dimensional arrays: [ValueError] unless [a] has as
    many columns as [b] has rows; entry [(i, j)] is the inner product of
    row [i] of [a] and column [j] of [b], accumulated in index order.
    (Arrays of another rank do not reach the criteria; they give [None]
    here.) *)
Definition nd_dot (a b : ndarray R) : option (ndarray R) :=
  match shape a, shape b with
  | [m; k], [k'; n] =>
      if k =? k'
      then Some (Ndarray [m; n]
                   (flat_map (fun i =>
                                map (fun j => dotp (nd_row a k i) (nd_column b k n j))
                                    (seq 0 n))
                             (seq 0 m)))
      else None
  | _, _ => None
  end.

(** [a.T] of a two-dimensional array. *)
Definition nd_T (a : ndarray R) : option (ndarray R) :=
  match shape a with
  | [m; n] =>
      Some (Ndarray [n; m] (flat_map (fun j => nd_column a m n j) (seq 0 n)))
  | _ => None
  end.

(** [F = S.dot(C).dot(S.T)] (lines 165, 186 and 207). *)
Definition fisher_matrix (S_ C : ndarray R) : option (ndarray R) :=
  SC <- nd_dot S_ C ;;
  St <- nd_T S_ ;;
  nd_dot SC St.

(** [np.min(l)]: [ValueError] on an empty array. *)
Definition np_min (l : list R) : option R :=
  match l with
  | [] => None
  | x :: l' => Some (fold_left (fun m v => if rle m v then m else v) l' x)
  end.

Variable np_linalg_det : ndarray R -> option R.
Variable np_linalg_eigvals : ndarray R -> option (list R).
Variable np_sum : list R -> R.

(** [fisher_determinant] (lines 151-169). *)
Definition fisher_determinant (fsmp : FisherModelParametrized R)
    (S_ C : ndarray R) : option R :=
  F <- fisher_matrix S_ C ;;
  np_linalg_det F.

(** [fisher_sumeigenval] (lines 172-190). *)
Definition fisher_sumeigenval (fsmp : FisherModelParametrized R)
    (S_ C : ndarray R) : option R :=
  F <- fisher_matrix S_ C ;;
  ev <- np_linalg_eigvals F ;;
  Some (np_sum ev).

(** [fisher_mineigenval] (lines 193-211). *)
Definition fisher_mineigenval (fsmp : FisherModelParametrized R)
    (S_ C : ndarray R) : option R :=
  F <- fisher_matrix S_ C ;;
  ev <- np_linalg_eigvals F ;;
  np_min ev.

(** [S[:, sigma]]: the columns of [S] in the order [sigma] lists them. *)
Definition take_columns (sigma : list nat) (S_ : ndarray R) : ndarray R :=
  match shape S_ with
  | [p; n] =>
      Ndarray [p; length sigma]
        (flat_map (fun i => map (fun j => nth (i * n + j) (data S_) rzero) sigma)
                  (seq 0 p))
  | _ => S_
  end.

End Criteria.


(** ** Vocabulary of the statements *)

(** A nested list that is a [rows] by [cols] array. *)
Definition has_shape {A : Type} (rows cols : nat) (m : list (list A)) : Prop :=
  length m = rows /\ Forall (fun r => length r = cols) m.

(** A nested list that is a [d0] by [d1] by [d2] array. *)
Definition has_shape3 {A : Type} (d0 d1 d2 : nat) (s : list (list (list A))) : Prop :=
  length s = d0 /\ Forall (has_shape d1 d2) s.

(** A list in non-decreasing order: every entry is [rle] its successor. *)
Fixpoint nondecreasing {R : Type} `{Scalar R} (l : list R) : bool :=
  match l with
  | x :: (y :: _) as l' => rle x y && nondecreasing l'
  | _ => true
  end.

(** A design [get_S_matrix] accepts: at least one parameter, at least one
    initial state, all initial states of the same positive length [n_x],
    and a [times] array of [n_times > 0] columns that is one-dimensional
    when the times are shared, and else has one row per input combination. *)
Definition valid_design {R : Type} (fsmp : FisherModelParametrized R)
    (n_x n_times : nat) : Prop :=
  0 < length (parameters fsmp) /\ 0 < n_x /\ 0 < n_times
  /\ ode_x0 fsmp <> []
  /\ Forall (fun x0 => length x0 = n_x) (ode_x0 fsmp)
  /\ shape (times fsmp)
     = (if identical_times fsmp then [] else map (@length R) (inputs fsmp))
       ++ [n_times]
  /\ length (data (times fsmp)) = prod (shape (times fsmp)).

(** The input values of a combination: [inputs[i][index[i]]] for every [i]. *)
Definition picked_inputs {R : Type} `{Scalar R} (fsmp : FisherModelParametrized R)
    (index : list nat) : list R :=
  map (fun ij => nth (snd ij) (nth (fst ij) (inputs fsmp) []) rzero)
      (enumerate index).

(** The shape [get_S_matrix] allocates the tensor with. *)
Definition tensor_shape {R : Type} (fsmp : FisherModelParametrized R)
    (n_x n_times : nat) : list nat :=
  [length (parameters fsmp); length (ode_t0 fsmp); length (ode_x0 fsmp); n_x]
  ++ map (@length R) (inputs fsmp) ++ [n_times].

(** The axes of the tensor behind the parameter axis: they become the
    columns of the flattened matrix. *)
Definition column_shape {R : Type} (fsmp : FisherModelParametrized R)
    (n_x n_times : nat) : list nat :=
  [length (ode_t0 fsmp); length (ode_x0 fsmp); n_x]
  ++ map (@length R) (inputs fsmp) ++ [n_times].

(** The number of columns of the flattened sensitivity matrix. *)
Definition total_samples {R : Type} (fsmp : FisherModelParametrized R)
    (n_x n_times : nat) : nat :=
  length (ode_t0 fsmp) * length (ode_x0 fsmp) * n_x
  * prod (map (@length R) (inputs fsmp)) * n_times.

(** The record [r] is the one of combination [c]: same initial state, same
    initial time, the input values at the combination's indices. *)
Definition record_of {R : Type} `{Scalar R} (fsmp : FisherModelParametrized R)
    (c : (nat * list R) * (nat * R) * list nat) (r : FisherResultSingle R) : Prop :=
  frs_ode_x0 r = snd (fst (fst c))
  /\ frs_ode_t0 r = snd (snd (fst c))
  /\ frs_inputs r = picked_inputs fsmp (snd c).

(** An integrator that returns, and returns one row per component of [y0]
    and one column per evaluation time, as [solve_ivp] documents its
    result.  When no evaluation time differs from the initial time nothing
    is integrated, and the output may also have no rows at all. *)
Definition solver_ok {R : Type} `{Scalar R} (solve_ivp : integrator R) : Prop :=
  forall rhs t0 tf y0 t_eval,
  exists y, solve_ivp rhs t0 tf y0 t_eval = Some y
            /\ (has_shape (length y0) (length t_eval) y
                \/ (y = [] /\ forallb (fun v => req v t0) t_eval = true)).

(** The record [get_S_matrix] appends for a combination. *)
Definition solution_record {R : Type} `{Scalar R} (fsmp : FisherModelParametrized R)
    (x0 : list R) (t0 : R) (index : list nat) (t : ndarray R)
    (y : list (list R)) : FisherResultSingle R :=
  {| frs_ode_x0 := x0;
     frs_ode_t0 := t0;
     frs_times := t;
     frs_inputs := picked_inputs fsmp index;
     frs_parameters := parameters fsmp;
     frs_ode_args := ode_args fsmp;
     frs_ode_solution := y;
     frs_identical_times := identical_times fsmp |}.

(** An integrator that returns, whatever it returns. *)
Definition solver_returns {R : Type} (solve_ivp : integrator R) : Prop :=
  forall rhs t0 tf y0 t_eval, exists y, solve_ivp rhs t0 tf y0 t_eval = Some y.

(** An integrator that makes no step when the end of the time span is the
    initial time: [solve_ivp] then leaves [res.y] the empty list, the
    evaluation times, all equal to the initial time, are passed over. *)
Definition solver_empty_at_t0 {R : Type} `{Scalar R} (solve_ivp : integrator R) : Prop :=
  forall rhs t0 tf y0 t_eval,
    req tf t0 = true ->
    forallb (fun v => req v t0) t_eval = true ->
    solve_ivp rhs t0 tf y0 t_eval = Some [].

(** The slice of the tensor a combination writes:
    [(:, i_t0, i_x0, :, index...)]. *)
Definition slice_address {R : Type} (c : (nat * list R) * (nat * R) * list nat)
    : nat * nat * list nat :=
  (fst (snd (fst c)), fst (fst (fst c)), snd c).

(** The position in the tensor of entry [(j, i, k)] of the block of the
    combination at [(i_t0, i_x0, index)]. *)
Definition slice_offset (dims : list nat) (i_t0 i_x0 : nat) (index : list nat)
    (jik : nat * nat * nat) : option nat :=
  ravel dims ([fst (fst jik); i_t0; i_x0; snd (fst jik)] ++ index ++ [snd jik]) 0.

(** The positions of the tensor a combination writes. *)
Definition written_by {R : Type} (dims : list nat)
    (c : (nat * list R) * (nat * R) * list nat) (off : nat) : Prop :=
  exists jik,
    slice_offset dims (fst (snd (fst c))) (fst (fst (fst c))) (snd c) jik
    = Some off.

(** The entries of a block with their indices, in the order the assignment
    visits them. *)
Definition slice_writes {R : Type} (s : list (list (list R)))
    : list (nat * nat * nat * R) :=
  flat_map (fun jb =>
    flat_map (fun ir =>
      map (fun kv => (fst jb, fst ir, fst kv, snd kv)) (enumerate (snd ir)))
      (enumerate (snd jb)))
    (enumerate s).

(** Entry [s[j, i, k]] of a three-dimensional array. *)
Definition entry {R : Type} `{Scalar R} (s : list (list (list R))) (j i k : nat) : R :=
  nth k (nth i (nth j s []) []) rzero.

(** [==] is symmetric and transitive (as it is on doubles, where only
    reflexivity fails, at NaN). *)
Definition req_sym_trans (R : Type) `{Scalar R} : Prop :=
  (forall a b : R, req a b = true -> req b a = true)
  /\ (forall a b c : R, req a b = true -> req b c = true -> req a c = true).

Arguments req_sym_trans R {_}.

(** No two neighbours are equal as [req] tests it. *)
Fixpoint distinct_adjacent {R : Type} `{Scalar R} (l : list R) : bool :=
  match l with
  | x :: (y :: _) as l' => negb (req x y) && distinct_adjacent l'
  | _ => true
  end.

(** Every run [(x, c)] written out as [c] copies of [x]. *)
Definition expand {R : Type} (rs : list (R * nat)) : list R :=
  flat_map (fun xc => repeat (fst xc) (snd xc)) rs.

(** Arithmetic in which sums and products are exact: addition is
    associative and commutative with neutral element zero, one is neutral
    for the product and zero absorbs. *)
Definition exact_arithmetic (R : Type) `{Scalar R} : Prop :=
  (forall a b c : R, radd (radd a b) c = radd a (radd b c))
  /\ (forall a b : R, radd a b = radd b a)
  /\ (forall a : R, radd rzero a = a)
  /\ (forall a : R, rmul a rone = a)
  /\ (forall a : R, rmul a rzero = rzero).

Arguments exact_arithmetic R {_}.

(** ** Concrete designs for the examples *)

(** An integrator for the examples: every component stays at its initial
    value. *)
Definition constant_solver {R : Type} : integrator R :=
  fun _ _ _ y0 t_eval => Some (map (fun v => map (fun _ => v) t_eval) y0).

(** An integrator for the examples that ignores its input. *)
Definition fixed_solver {R : Type} (y : list (list R)) : integrator R :=
  fun _ _ _ _ _ => Some y.

(** An integrator for the examples with an empty output when the time span
    ends at the initial time; otherwise every component stays at its
    initial value. *)
Definition resting_solver {R : Type} `{Scalar R} : integrator R :=
  fun _ t0 tf y0 t_eval =>
    if req tf t0 then Some []
    else Some (map (fun v => map (fun _ => v) t_eval) y0).

(** A two-state, two-parameter system for the examples of [ode_rhs]. *)
Definition demo_f : user_fun Z := fun _ x _ _ _ => x.
Definition demo_dfdx : user_jac Z := fun _ _ _ _ _ => [[1; 2]; [3; 4]]%Z.
Definition demo_dfdp : user_jac Z := fun _ _ _ _ _ => [[10; 20]; [30; 40]]%Z.

(** One parameter, one state, one input with two candidate values, three
    shared times of which two coincide. *)
Definition small_design : FisherModelParametrized Z := {|
  parameters := [2%Z];
  ode_t0 := [0%Z];
  ode_x0 := [[1%Z]];
  inputs := [[5%Z; 6%Z]];
  times := Ndarray [3] [0%Z; 1%Z; 1%Z];
  identical_times := true;
  ode_fun := fun _ x _ _ _ => x;
  ode_dfdx := fun _ _ _ _ _ => [[1%Z]];
  ode_dfdp := fun _ _ _ _ _ => [[1%Z]];
  ode_args := []
|}.

(** The same with every time equal to the initial time. *)
Definition initial_time_design : FisherModelParametrized Z := {|
  parameters := [2%Z];
  ode_t0 := [0%Z];
  ode_x0 := [[1%Z]];
  inputs := [[5%Z; 6%Z]];
  times := Ndarray [2] [0%Z; 0%Z];
  identical_times := true;
  ode_fun := fun _ x _ _ _ => x;
  ode_dfdx := fun _ _ _ _ _ => [[1%Z]];
  ode_dfdp := fun _ _ _ _ _ => [[1%Z]];
  ode_args := []
|}.

(** On doubles: initial state [0.0], both times equal to the initial time
    [0.0], parameter [0.5], no inputs. *)
Definition zero_state_design : FisherModelParametrized float := {|
  parameters := [0.5%float];
  ode_t0 := [0%float];
  ode_x0 := [[0%float]];
  inputs := [];
  times := Ndarray [2] [0%float; 0%float];
  identical_times := true;
  ode_fun := fun _ x _ _ _ => x;
  ode_dfdx := fun _ _ _ _ _ => [[1%float]];
  ode_dfdp := fun _ _ _ _ _ => [[1%float]];
  ode_args := []
|}.

(** The same with the times [0.0] and [1.0]. *)
Definition zero_state_two_times : FisherModelParametrized float := {|
  parameters := [0.5%float];
  ode_t0 := [0%float];
  ode_x0 := [[0%float]];
  inputs := [];
  times := Ndarray [2] [0%float; 1%float];
  identical_times := true;
  ode_fun := fun _ x _ _ _ => x;
  ode_dfdx := fun _ _ _ _ _ => [[1%float]];
  ode_dfdp := fun _ _ _ _ _ => [[1%float]];
  ode_args := []
|}.

(** ** The record of one combination *)

(** The record the loop body builds for a combination, when it gets to
    build it. *)
Definition combination_record {R : Type} `{Scalar R} (solve_ivp : integrator R)
    (fsmp : FisherModelParametrized R) (n_p n_x0 : nat) (rel : bool)
    (c : (nat * list R) * (nat * R) * list nat) : option (FisherResultSingle R) :=
  option_map snd
    (combination solve_ivp fsmp n_p n_x0 rel (snd (fst (fst c)))
                 (snd (snd (fst c))) (snd c)).

(** The record [r] holds the output of the call of the integrator made
    for combination [c] (line 98): the right-hand side is [ode_rhs] with
    the input values of [c], the span runs from the initial time to the
    largest time of [c], the initial value is the initial state followed by
    [n_x0 * n_p] zeros, the evaluation times are the sorted distinct times;
    the other fields of [r] are those of [c] and of the design. *)
Definition integrator_call {R : Type} `{Scalar R} (solve_ivp : integrator R)
    (fsmp : FisherModelParametrized R) (n_x0 : nat)
    (c : (nat * list R) * (nat * R) * list nat) (r : FisherResultSingle R) : Prop :=
  exists t t_max,
    (if identical_times fsmp then Some (times fsmp)
     else np_getitem (times fsmp) (snd c)) = Some t
    /\ np_max (data t) = Some t_max
    /\ solve_ivp
         (fun t x => ode_rhs t x (ode_fun fsmp) (ode_dfdx fsmp) (ode_dfdp fsmp)
                             (picked_inputs fsmp (snd c)) (parameters fsmp)
                             (ode_args fsmp) n_x0 (length (parameters fsmp)))
         (snd (snd (fst c))) t_max
         (snd (fst (fst c)) ++ repeat rzero (n_x0 * length (parameters fsmp)))
         (fst (np_unique (data t)))
       = Some (frs_ode_solution r)
    /\ r = solution_record fsmp (snd (fst (fst c))) (snd (snd (fst c))) (snd c) t
                           (frs_ode_solution r).

(** ** The example [examples/limited_growth.py] *)

Section LimitedGrowth.

Context {R : Type} `{Scalar R}.
Variable rsub : R -> R -> R.

(** [exp_growth(y, t, Q, P, Const)] (lines 18-26): the limited-growth model
    with its sensitivity equation written by hand.  Unpacking a tuple of
    the wrong length is a [ValueError]. *)
Definition exp_growth (y : list R) (t : R) (Q P Const : list R) : option (list R) :=
  match P, Q, Const, y with
  | [a], [Temp], [n_max], [n; sa] =>
      Some [rmul (rmul Temp a) (rsub n_max n);
            rsub (rmul Temp (rsub n_max n)) (rmul (rmul Temp a) sa)]
  | _, _, _, _ => None
  end.

End LimitedGrowth.

(** The model behind [exp_growth] in the form [ode_rhs] takes it, with
    exact numbers: [f = Temp * a * (n_max - n)], its derivative
    [-(Temp * a)] in the state [n] and its derivative [Temp * (n_max - n)]
    in the parameter [a]. *)
Definition limited_growth_f : user_fun Z :=
  fun _ x Q P Const =>
    match x, Q, P, Const with
    | [n], [Temp], [a], [n_max] => [Temp * a * (n_max - n)]%Z
    | _, _, _, _ => []
    end.

Definition limited_growth_dfdx : user_jac Z :=
  fun _ x Q P Const =>
    match x, Q, P, Const with
    | [n], [Temp], [a], [n_max] => [[- (Temp * a)]]%Z
    | _, _, _, _ => []
    end.

Definition limited_growth_dfdp : user_jac Z :=
  fun _ x Q P Const =>
    match x, Q, P, Const with
    | [n], [Temp], [a], [n_max] => [[Temp * (n_max - n)]]%Z
    | _, _, _, _ => []
    end.

(** ** Designs and records with other sample times *)

(** The design with another array of sample times. *)
Definition with_times {R : Type} (fsmp : FisherModelParametrized R)
    (t : ndarray R) : FisherModelParametrized R := {|
  parameters := parameters fsmp;
  ode_t0 := ode_t0 fsmp;
  ode_x0 := ode_x0 fsmp;
  inputs := inputs fsmp;
  times := t;
  identical_times := identical_times fsmp;
  ode_fun := ode_fun fsmp;
  ode_dfdx := ode_dfdx fsmp;
  ode_dfdp := ode_dfdp fsmp;
  ode_args := ode_args fsmp
|}.

(** The record with other sample times. *)
Definition with_record_times {R : Type} (r : FisherResultSingle R)
    (t : ndarray R) : FisherResultSingle R := {|
  frs_ode_x0 := frs_ode_x0 r;
  frs_ode_t0 := frs_ode_t0 r;
  frs_times := t;
  frs_inputs := frs_inputs r;
  frs_parameters := frs_parameters r;
  frs_ode_args := frs_ode_args r;
  frs_ode_solution := frs_ode_solution r;
  frs_identical_times := frs_identical_times r
|}.

(** ** More concrete inputs for the examples *)

(** An integrator that raises. *)
Definition failing_solver {R : Type} : integrator R :=
  fun _ _ _ _ _ => None.

(** A [df/dp] of a single row for the two-state system. *)
Definition demo_dfdp_row : user_jac Z := fun _ _ _ _ _ => [[10; 20]]%Z.

(** [small_design] without parameters, without sample times and without
    initial times. *)
Definition no_parameter_design : FisherModelParametrized Z := {|
  parameters := [];
  ode_t0 := [0%Z];
  ode_x0 := [[1%Z]];
  inputs := [[5%Z; 6%Z]];
  times := Ndarray [3] [0%Z; 1%Z; 1%Z];
  identical_times := true;
  ode_fun := fun _ x _ _ _ => x;
  ode_dfdx := fun _ _ _ _ _ => [[1%Z]];
  ode_dfdp := fun _ _ _ _ _ => [[1%Z]];
  ode_args := []
|}.

Definition no_times_design : FisherModelParametrized Z := {|
  parameters := [2%Z];
  ode_t0 := [0%Z];
  ode_x0 := [[1%Z]];
  inputs := [[5%Z; 6%Z]];
  times := Ndarray [0] [];
  identical_times := true;
  ode_fun := fun _ x _ _ _ => x;
  ode_dfdx := fun _ _ _ _ _ => [[1%Z]];
  ode_dfdp := fun _ _ _ _ _ => [[1%Z]];
  ode_args := []
|}.

Definition no_initial_time_design : FisherModelParametrized Z := {|
  parameters := [2%Z];
  ode_t0 := [];
  ode_x0 := [[1%Z]];
  inputs := [[5%Z; 6%Z]];
  times := Ndarray [3] [0%Z; 1%Z; 1%Z];
  identical_times := true;
  ode_fun := fun _ x _ _ _ => x;
  ode_dfdx := fun _ _ _ _ _ => [[1%Z]];
  ode_dfdp := fun _ _ _ _ _ => [[1%Z]];
  ode_args := []
|}.


(** ** Inputs for the examples of the criteria *)

(** [np.linalg.eigvals] on a one by one matrix, whose eigenvalue is its
    entry; for the examples. *)
Definition eigvals_1x1 {R : Type} (F : ndarray R) : option (list R) :=
  match shape F, data F with
  | [1; 1], [x] => Some [x]
  | _, _ => None
  end.

(** A sum for the examples. *)
Definition sum_in_order {R : Type} `{Scalar R} (l : list R) : R :=
  match l with
  | [] => rzero
  | x :: l' => fold_left radd l' x
  end.


(** The eigenvalues and the determinant of a diagonal matrix, its diagonal
    entries and their product; for the examples. *)
Definition eigvals_diagonal {R : Type} `{Scalar R} (F : ndarray R) : option (list R) :=
  match shape F with
  | [n; m] =>
      if n =? m
      then Some (map (fun i => nth (i * n + i) (data F) rzero) (seq 0 n))
      else None
  | _ => None
  end.

Definition det_diagonal {R : Type} `{Scalar R} (F : ndarray R) : option R :=
  option_map (fun ev => fold_left rmul ev rone) (eigvals_diagonal F).

(** A two-parameter sensitivity matrix with three samples, with a diagonal
    [F]. *)
Definition two_by_three : ndarray Z :=
  Ndarray [2; 3] [1; 0; 2; 0; 3; 0]%Z.

(** The columns [0.1, 0.2, 0.6] of a one-parameter sensitivity matrix. *)
Definition tenths : ndarray float :=
  Ndarray [1; 3] [0x1.999999999999ap-4; 0x1.999999999999ap-3; 0x1.3333333333333p-1]%float.

(** * Properties *)

Unset Implicit Arguments.

(** ** Loops and lists *)

Lemma mapM_total {A B : Type} (f : A -> option B) (g : A -> B) (l : list A) :
  (forall a, In a l -> f a = Some (g a)) -> mapM f l = Some (map g l).
Proof.
  induction l as [|a l IH]; intros Hf; simpl.
  - reflexivity.
  - rewrite (Hf a (or_introl eq_refl)). simpl.
    rewrite IH by (intros a' Ha'; apply Hf; right; exact Ha').
    reflexivity.
Qed.

Lemma zipM_total {A B C : Type} (g : A -> B -> C) (l1 : list A) (l2 : list B) :
  zipM (fun a b => Some (g a b)) l1 l2
  = Some (map (fun ab => g (fst ab) (snd ab)) (combine l1 l2)).
Proof. unfold zipM. apply mapM_total. reflexivity. Qed.

Lemma bcast_same_length {A B C : Type} (f : A -> B -> option C)
    (l1 : list A) (l2 : list B) :
  length l1 = length l2 -> bcast f l1 l2 = zipM f l1 l2.
Proof. intros E. unfold bcast. rewrite E, Nat.eqb_refl. reflexivity. Qed.

Lemma foldM_invariant {A St : Type} (f : St -> A -> option St)
    (P : list A -> St -> Prop) (l : list A) (s0 : St) :
  P [] s0 ->
  (forall pre a post s, l = pre ++ a :: post -> P pre s ->
     exists s', f s a = Some s' /\ P (pre ++ [a]) s') ->
  exists s', foldM f l s0 = Some s' /\ P l s'.
Proof.
  intros H0 Hstep.
  assert (G : forall post pre s, l = pre ++ post -> P pre s ->
                exists s', foldM f post s = Some s' /\ P l s').
  { induction post as [|a post IH]; intros pre s El HP.
    - exists s. rewrite app_nil_r in El. subst pre. split; [reflexivity | exact HP].
    - destruct (Hstep pre a post s El HP) as [s1 [E1 HP1]].
      simpl. rewrite E1. simpl.
      apply (IH (pre ++ [a])); [| exact HP1].
      rewrite <- app_assoc. exact El. }
  apply (G l [] s0); [reflexivity | exact H0].
Qed.

Lemma length_chunks {A : Type} (rows cols : nat) (l : list A) :
  length (chunks rows cols l) = rows.
Proof.
  revert l. induction rows as [|r IH]; intros l; simpl; [reflexivity|].
  now rewrite IH.
Qed.

Lemma Forall_length_chunks {A : Type} (rows cols : nat) (l : list A) :
  rows * cols <= length l ->
  Forall (fun c => length c = cols) (chunks rows cols l).
Proof.
  revert l. induction rows as [|r IH]; intros l Hl; simpl; constructor.
  - rewrite length_firstn. simpl in Hl. lia.
  - apply IH. rewrite length_skipn. simpl in Hl. lia.
Qed.

Lemma nth_chunks {A : Type} (rows cols : nat) (l : list A) (i : nat) :
  i < rows -> nth i (chunks rows cols l) [] = firstn cols (skipn (i * cols) l).
Proof.
  revert l i. induction rows as [|r IH]; intros l i Hi; [lia|].
  destruct i as [|i]; simpl.
  - reflexivity.
  - rewrite IH by lia. rewrite skipn_skipn. f_equal. f_equal. lia.
Qed.

Lemma nth_nth_chunks {A : Type} (rows cols : nat) (l : list A) (i j : nat) (d : A) :
  i < rows -> j < cols ->
  nth j (nth i (chunks rows cols l) []) d = nth (i * cols + j) l d.
Proof.
  intros Hi Hj. rewrite nth_chunks by exact Hi.
  rewrite nth_firstn. apply Nat.ltb_lt in Hj. rewrite Hj.
  rewrite nth_skipn. reflexivity.
Qed.

Lemma firstn_length_app {A : Type} (a b : list A) : firstn (length a) (a ++ b) = a.
Proof. induction a as [|x a IH]; simpl; [destruct b; reflexivity | now rewrite IH]. Qed.

Lemma skipn_length_app {A : Type} (a b : list A) : skipn (length a) (a ++ b) = b.
Proof. induction a as [|x a IH]; simpl; [reflexivity | exact IH]. Qed.

Lemma length_concat_rect {A : Type} (m : list (list A)) (c : nat) :
  Forall (fun r => length r = c) m -> length (concat m) = length m * c.
Proof.
  induction 1 as [|r m Hr _ IH]; simpl; [reflexivity|].
  rewrite length_app, IH, Hr. reflexivity.
Qed.

Lemma nth_concat_rect {A : Type} (m : list (list A)) (c i j : nat) (d : A) :
  Forall (fun r => length r = c) m -> i < length m -> j < c ->
  nth (i * c + j) (concat m) d = nth j (nth i m []) d.
Proof.
  intros Hm. revert i. induction Hm as [|r m Hr _ IH]; intros i Hi Hj.
  - simpl in Hi. lia.
  - destruct i as [|i]; simpl.
    + rewrite app_nth1 by lia. reflexivity.
    + rewrite app_nth2 by lia. rewrite <- IH by (simpl in Hi; lia).
      f_equal. lia.
Qed.

Lemma fold_left_ext_in {A B : Type} (f g : A -> B -> A) (l : list B) (a : A) :
  (forall a b, In b l -> f a b = g a b) -> fold_left f l a = fold_left g l a.
Proof.
  revert a. induction l as [|b l IH]; intros a E; simpl; [reflexivity|].
  rewrite (E a b (or_introl eq_refl)). apply IH.
  intros a' b' Hb'. apply E. right. exact Hb'.
Qed.

Lemma fold_left_map' {A B C : Type} (f : A -> C -> A) (g : B -> C) (l : list B) (a : A) :
  fold_left f (map g l) a = fold_left (fun a x => f a (g x)) l a.
Proof. revert a. induction l as [|b l IH]; intros a; simpl; [reflexivity | apply IH]. Qed.

(** ** [ode_rhs] *)

Section OdeRhsFacts.

Context {R : Type} `{Scalar R}.

Lemma dotp_seq (u v : list R) (acc : R) :
  length u = length v ->
  fold_left (fun acc ab => radd acc (rmul (fst ab) (snd ab))) (combine u v) acc
  = fold_left (fun acc k => radd acc (rmul (nth k u rzero) (nth k v rzero)))
              (seq 0 (length u)) acc.
Proof.
  revert v acc. induction u as [|a u IH]; intros v acc E; [reflexivity|].
  destruct v as [|b v]; [discriminate|].
  cbn [combine fold_left length]. rewrite <- cons_seq. cbn [fold_left fst snd nth].
  rewrite <- seq_shift, fold_left_map'. cbn [nth].
  apply IH. simpl in E. lia.
Qed.

Lemma np_dot_total (a b : list (list R)) (ncols : nat) :
  Forall (fun r => length r = length b) a ->
  np_dot a b ncols
  = Some (map (fun row => map (fun j => dotp row (column j b)) (seq 0 ncols)) a).
Proof.
  intros Ha. unfold np_dot. apply mapM_total.
  intros row Hrow. rewrite Forall_forall in Ha.
  rewrite (Ha row Hrow), Nat.eqb_refl. reflexivity.
Qed.

Lemma np_add2_total (a b : list (list R)) (rows cols : nat) :
  has_shape rows cols a -> has_shape rows cols b ->
  np_add2 a b
  = Some (map (fun uv => map (fun xy => radd (fst xy) (snd xy))
                             (combine (fst uv) (snd uv)))
              (combine a b)).
Proof.
  intros [La Fa] [Lb Fb]. unfold np_add2.
  rewrite bcast_same_length by congruence.
  unfold zipM. apply mapM_total.
  intros [u v] Huv. cbn [fst snd].
  rewrite Forall_forall in Fa, Fb.
  rewrite bcast_same_length.
  - apply zipM_total.
  - rewrite (Fa u (in_combine_l _ _ _ _ Huv)).
    rewrite (Fb v (in_combine_r _ _ _ _ Huv)). reflexivity.
Qed.

(** What [ode_rhs] returns on a well-shaped input, as an equation. *)
Lemma ode_rhs_value (t : R) (x : list R) (f : user_fun R) (dfdx dfdp : user_jac R)
    (inputs params args : list R) (n_x n_p : nat) :
  n_x + n_x * n_p <= length x ->
  has_shape n_x n_x (dfdx t (firstn n_x x) inputs params args) ->
  has_shape n_x n_p (dfdp t (firstn n_x x) inputs params args) ->
  ode_rhs t x f dfdx dfdp inputs params args n_x n_p
  = Some (f t (firstn n_x x) inputs params args ++
          concat (map (fun uv => map (fun xy => radd (fst xy) (snd xy))
                                     (combine (fst uv) (snd uv)))
                      (combine
                         (map (fun row =>
                                 map (fun j =>
                                        dotp row
                                          (column j (chunks n_x n_p
                                             (firstn (n_x * n_p) (skipn n_x x)))))
                                     (seq 0 n_p))
                              (dfdx t (firstn n_x x) inputs params args))
                         (dfdp t (firstn n_x x) inputs params args)))).
Proof.
  intros Hx [LJ FJ] [LP FP]. unfold ode_rhs, np_split3.
  replace (n_x + n_x * n_p - n_x) with (n_x * n_p) by lia.
  unfold np_reshape2.
  rewrite length_firstn, length_skipn.
  replace (Nat.min (n_x * n_p) (length x - n_x)) with (n_x * n_p) by lia.
  rewrite Nat.eqb_refl. cbn [bind].
  rewrite np_dot_total.
  2:{ rewrite length_chunks. exact FJ. }
  cbn [bind].
  erewrite np_add2_total; [reflexivity | | split; [exact LP | exact FP]].
  split.
  - rewrite length_map. exact LJ.
  - apply Forall_map. apply Forall_forall. intros row _.
    rewrite length_map, length_seq. reflexivity.
Qed.

Lemma nth_zip_map {A B C : Type} (g : A * B -> C) (l1 : list A) (l2 : list B)
    (i : nat) (d : C) (d1 : A) (d2 : B) :
  i < length l1 -> length l1 = length l2 ->
  nth i (map g (combine l1 l2)) d = g (nth i l1 d1, nth i l2 d2).
Proof.
  intros Hi E.
  rewrite (nth_indep _ d (g (d1, d2))) by (rewrite length_map, length_combine; lia).
  rewrite map_nth, combine_nth by exact E. reflexivity.
Qed.

Lemma nth_map_seq {A : Type} (g : nat -> A) (n j : nat) (d : A) :
  j < n -> nth j (map g (seq 0 n)) d = g j.
Proof.
  intros Hj.
  rewrite (nth_indep _ d (g 0)) by (rewrite length_map, length_seq; exact Hj).
  rewrite map_nth, seq_nth by exact Hj. reflexivity.
Qed.

Lemma nth_column (j k : nat) (b : list (list R)) :
  nth k (column j b) rzero = nth j (nth k b []) rzero.
Proof.
  unfold column. destruct (Nat.lt_ge_cases k (length b)) as [Hk|Hk].
  - rewrite (nth_indep _ rzero ((fun row : list R => nth j row rzero) []))
      by (rewrite length_map; exact Hk).
    exact (map_nth (fun row : list R => nth j row rzero) b [] k).
  - rewrite nth_overflow by (rewrite length_map; exact Hk).
    rewrite (nth_overflow b) by exact Hk. destruct j; reflexivity.
Qed.

Lemma nth_map_default {A B : Type} (g : A -> B) (l : list A) (i : nat) (d : B) (d' : A) :
  i < length l -> nth i (map g l) d = g (nth i l d').
Proof.
  intros Hi. rewrite (nth_indep _ d (g d')) by (rewrite length_map; exact Hi).
  apply map_nth.
Qed.

Lemma rhs_block_shape (J P : list (list R)) (g : list R -> nat -> R) (n_x n_p : nat) :
  length J = n_x -> has_shape n_x n_p P ->
  has_shape n_x n_p
    (map (fun uv => map (fun xy => radd (fst xy) (snd xy))
                        (combine (fst uv) (snd uv)))
         (combine (map (fun row => map (fun j => g row j) (seq 0 n_p)) J) P)).
Proof.
  intros LJ [LP FP]. split.
  - rewrite length_map, length_combine, length_map. lia.
  - apply Forall_map. apply Forall_forall. intros [u v] Huv. cbn [fst snd].
    rewrite length_map, length_combine.
    rewrite Forall_forall in FP. rewrite (FP v (in_combine_r _ _ _ _ Huv)).
    apply in_combine_l in Huv. apply in_map_iff in Huv.
    destruct Huv as [row [<- _]]. rewrite length_map, length_seq. lia.
Qed.

(** C1.  On a flattened augmented state [x] of length [n_x + n_x * n_p],
    [ode_rhs] passes the first [n_x] entries to the user's [f], [df/dx] and
    [df/dp], reads the remaining entries as the row-major [n_x] by [n_p]
    sensitivity block [s] (entry [(k, j)] at position [n_x + k * n_p + j]),
    and returns the output of [f] followed by [(df/dx) s + df/dp] in the
    same row-major order: entry [(i, j)] of the sensitivity derivative is at
    position [i * n_p + j] behind [f]'s output and is the inner product of
    row [i] of [df/dx] with column [j] of [s], plus entry [(i, j)] of
    [df/dp].  The function is pure: its result is this value and nothing
    else. *)
Theorem ode_rhs_augmented_system (t : R) (x : list R) (f : user_fun R)
    (dfdx dfdp : user_jac R) (inputs params args : list R) (n_x n_p : nat) :
  length x = n_x + n_x * n_p ->
  has_shape n_x n_x (dfdx t (firstn n_x x) inputs params args) ->
  has_shape n_x n_p (dfdp t (firstn n_x x) inputs params args) ->
  exists ds,
    ode_rhs t x f dfdx dfdp inputs params args n_x n_p
    = Some (f t (firstn n_x x) inputs params args ++ ds)
    /\ length ds = n_x * n_p
    /\ forall i j, i < n_x -> j < n_p ->
         nth (i * n_p + j) ds rzero
         = radd (fold_left
                   (fun acc k =>
                      radd acc
                        (rmul (nth k (nth i (dfdx t (firstn n_x x) inputs params args) [])
                                   rzero)
                              (nth (n_x + (k * n_p + j)) x rzero)))
                   (seq 0 n_x) rzero)
                (nth j (nth i (dfdp t (firstn n_x x) inputs params args) []) rzero).
Proof.
  intros Hx HJ HP.
  rewrite ode_rhs_value by (try lia; assumption).
  set (J := dfdx t (firstn n_x x) inputs params args) in *.
  set (P := dfdp t (firstn n_x x) inputs params args) in *.
  set (sflat := firstn (n_x * n_p) (skipn n_x x)).
  set (D := map _ J).
  set (M := map _ (combine D P)).
  destruct (@rhs_block_shape J P
              (fun row j => dotp row (column j (chunks n_x n_p sflat)))
              n_x n_p (proj1 HJ) HP) as [LM FM].
  fold D in LM, FM. fold M in LM, FM.
  destruct HJ as [LJ FJ]. destruct HP as [LP FP].
  assert (LD : length D = n_x) by (unfold D; rewrite length_map; exact LJ).
  assert (FD : Forall (fun r => length r = n_p) D).
  { unfold D. apply Forall_map. apply Forall_forall. intros row _.
    rewrite length_map, length_seq. reflexivity. }
  exists (concat M). split; [reflexivity|]. split.
  - rewrite (length_concat_rect M n_p FM), LM. reflexivity.
  - intros i j Hi Hj.
    rewrite (nth_concat_rect M n_p i j rzero FM) by lia.
    unfold M. rewrite (nth_zip_map _ D P i [] [] []) by lia. cbn [fst snd].
    assert (LDi : length (nth i D []) = n_p).
    { rewrite Forall_forall in FD. apply FD. apply nth_In. lia. }
    assert (LPi : length (nth i P []) = n_p).
    { rewrite Forall_forall in FP. apply FP. apply nth_In. lia. }
    rewrite (nth_zip_map _ _ _ j rzero rzero rzero) by lia. cbn [fst snd].
    f_equal.
    unfold D. rewrite (nth_map_default _ J i [] []) by lia.
    rewrite nth_map_seq by exact Hj.
    assert (LJi : length (nth i J []) = n_x).
    { rewrite Forall_forall in FJ. apply FJ. apply nth_In. lia. }
    unfold dotp. rewrite dotp_seq.
    2:{ unfold column. rewrite length_map, length_chunks. exact LJi. }
    rewrite LJi. apply fold_left_ext_in.
    intros acc k Hk. apply in_seq in Hk.
    rewrite nth_column, nth_nth_chunks by lia.
    unfold sflat. rewrite nth_firstn.
    assert (Hlt : k * n_p + j < n_x * n_p) by nia.
    apply Nat.ltb_lt in Hlt. rewrite Hlt.
    rewrite nth_skipn. reflexivity.
Qed.

(** C10.  When [x] is longer than [n_x + n_x * n_p], [ode_rhs] still
    returns: the entries from position [n_x + n_x * n_p] on (the third
    block of the split) are dropped, the result is the one for [x] cut to
    its first [n_x + n_x * n_p] entries, and it has [n_x + n_x * n_p]
    entries. *)
Theorem ode_rhs_discards_trailing_entries (t : R) (x : list R) (f : user_fun R)
    (dfdx dfdp : user_jac R) (inputs params args : list R) (n_x n_p : nat) :
  n_x + n_x * n_p < length x ->
  length (f t (firstn n_x x) inputs params args) = n_x ->
  has_shape n_x n_x (dfdx t (firstn n_x x) inputs params args) ->
  has_shape n_x n_p (dfdp t (firstn n_x x) inputs params args) ->
  exists r,
    ode_rhs t x f dfdx dfdp inputs params args n_x n_p = Some r
    /\ length r = n_x + n_x * n_p
    /\ ode_rhs t (firstn (n_x + n_x * n_p) x) f dfdx dfdp inputs params args n_x n_p
       = Some r.
Proof.
  intros Hx Hf HJ HP.
  assert (E1 : firstn n_x (firstn (n_x + n_x * n_p) x) = firstn n_x x).
  { rewrite firstn_firstn. f_equal. lia. }
  assert (E2 : firstn (n_x * n_p) (skipn n_x (firstn (n_x + n_x * n_p) x))
               = firstn (n_x * n_p) (skipn n_x x)).
  { rewrite skipn_firstn_comm, firstn_firstn. f_equal. lia. }
  rewrite (ode_rhs_value _ (firstn (n_x + n_x * n_p) x)).
  2:{ rewrite length_firstn. lia. }
  2,3: rewrite E1; assumption.
  rewrite E1, E2.
  rewrite ode_rhs_value by (try lia; assumption).
  eexists. split; [reflexivity|]. split; [|reflexivity].
  destruct (@rhs_block_shape _ _
              (fun row j => dotp row (column j (chunks n_x n_p
                                (firstn (n_x * n_p) (skipn n_x x)))))
              n_x n_p (proj1 HJ) HP) as [LM FM].
  rewrite length_app, Hf, (length_concat_rect _ n_p FM), LM. reflexivity.
Qed.

End OdeRhsFacts.

(** ** [np.unique] and [np.repeat] *)

Section UniqueFacts.

Context {R : Type} `{Scalar R}.

Lemma insert_perm (x : R) (l : list R) : Permutation (x :: l) (insert x l).
Proof.
  induction l as [|y l IH]; simpl.
  - apply Permutation_refl.
  - destruct (rle x y).
    + apply Permutation_refl.
    + eapply perm_trans; [apply perm_swap | apply perm_skip, IH].
Qed.

Lemma np_sort_perm (l : list R) : Permutation l (np_sort l).
Proof.
  induction l as [|x l IH]; simpl.
  - apply perm_nil.
  - eapply perm_trans; [apply perm_skip, IH | apply insert_perm].
Qed.

Lemma np_sort_nondecreasing (l : list R) : nondecreasing l = true -> np_sort l = l.
Proof.
  induction l as [|x l IH]; intros Hl; [reflexivity|].
  cbn [np_sort]. destruct l as [|y l]; [reflexivity|].
  cbn [nondecreasing] in Hl. apply andb_prop in Hl. destruct Hl as [Hxy Hl].
  rewrite (IH Hl). cbn [insert]. rewrite Hxy. reflexivity.
Qed.

Lemma expand_runs (l : list R) :
  (forall x y, req x y = true -> x = y) -> expand (runs l) = l.
Proof.
  intros Heq. induction l as [|x l IH]; [reflexivity|].
  cbn [runs]. destruct (runs l) as [|[y c] rest] eqn:E.
  - destruct l as [|z l]; [reflexivity|].
    exfalso. cbn [runs] in E.
    destruct (runs l) as [|[y' c'] rest']; [discriminate|].
    destruct (req z y'); discriminate.
  - destruct (req x y) eqn:Exy.
    + apply Heq in Exy. subst y. rewrite <- IH. reflexivity.
    + rewrite <- IH. reflexivity.
Qed.

Lemma np_repeat_unique (t : list R) :
  np_repeat (fst (np_unique t)) (snd (np_unique t))
  = Some (expand (runs (np_sort t))).
Proof.
  unfold np_unique, np_repeat.
  rewrite length_fst_split, length_snd_split, Nat.eqb_refl.
  destruct (split (runs (np_sort t))) as [vs cs] eqn:E. cbn [fst snd].
  rewrite (split_combine (runs (np_sort t)) E). reflexivity.
Qed.

Lemma insert_sorted (x : R) (l : list R) :
  (forall y, In y l -> rle x y = false -> rle y x = true) ->
  nondecreasing l = true -> nondecreasing (insert x l) = true.
Proof.
  induction l as [|y l IH]; intros Ht Hl; [reflexivity|].
  cbn [insert]. destruct (rle x y) eqn:E.
  - cbn [nondecreasing]. rewrite E. exact Hl.
  - assert (Hyx : rle y x = true) by (apply Ht; [left; reflexivity | exact E]).
    assert (Hl' : nondecreasing l = true).
    { destruct l as [|z l]; [reflexivity|].
      cbn [nondecreasing] in Hl. apply andb_prop in Hl. exact (proj2 Hl). }
    assert (IH' := IH (fun z Hz => Ht z (or_intror Hz)) Hl').
    destruct l as [|z l]; cbn [insert nondecreasing] in *.
    + rewrite Hyx. reflexivity.
    + apply andb_prop in Hl. destruct Hl as [Hyz _].
      destruct (rle x z).
      * rewrite Hyx. exact IH'.
      * rewrite Hyz. exact IH'.
Qed.

(** The sort of [np.unique] puts the times in ascending order; [<=] has to
    compare any two of them (no NaN among them). *)
Lemma np_sort_sorted (t : list R) :
  (forall x y, In x t -> In y t -> rle x y = false -> rle y x = true) ->
  nondecreasing (np_sort t) = true.
Proof.
  induction t as [|x t IH]; intros Ht; [reflexivity|].
  cbn [np_sort]. apply insert_sorted.
  - intros y Hy. apply Ht; [left; reflexivity|]. right.
    apply (Permutation_in y (Permutation_sym (np_sort_perm t))). exact Hy.
  - apply IH. intros a b Ha Hb. apply Ht; right; assumption.
Qed.

Lemma runs_first (x : R) (l : list R) :
  exists c rest, runs (x :: l) = (x, c) :: rest.
Proof.
  cbn [runs]. destruct (runs l) as [|[y c] rest].
  - exists 1, []. reflexivity.
  - destruct (req x y); eexists; eexists; reflexivity.
Qed.

Lemma expand_runs_of (l : list R) :
  (forall x y, In x l -> In y l -> req x y = true -> x = y) ->
  expand (runs l) = l.
Proof.
  induction l as [|x l IH]; intros Heq; [reflexivity|].
  assert (IH' : expand (runs l) = l).
  { apply IH. intros a b Ha Hb. apply Heq; right; assumption. }
  destruct l as [|y l]; [reflexivity|].
  destruct (runs_first y l) as [c [rest E]].
  cbn [runs] in *. rewrite E in *.
  destruct (req x y) eqn:Exy.
  - apply Heq in Exy; [|left; reflexivity | right; left; reflexivity].
    subst y.
    change (expand ((x, S c) :: rest)) with (x :: expand ((x, c) :: rest)).
    rewrite IH'. reflexivity.
  - change (expand ((x, 1) :: (y, c) :: rest))
      with (x :: expand ((y, c) :: rest)).
    rewrite IH'. reflexivity.
Qed.

(** C2, amended.  [np.unique] sorts: repeating every unique time by its
    count gives the times of [t] in ascending order, a rearrangement of
    [t] with the same multiplicities, and it gives [t] itself, order
    included, exactly when [t] is already in non-decreasing order.  The
    times of [t] are taken to be comparable by [<=] (no NaN among them),
    and two of them that [==] holds equal to be the same number (not both
    zeros of different sign). *)
Theorem unique_then_repeat_sorts (t : list R) :
  (forall x y, In x t -> In y t -> rle x y = false -> rle y x = true) ->
  (forall x y, In x t -> In y t -> req x y = true -> x = y) ->
  np_repeat (fst (np_unique t)) (snd (np_unique t)) = Some (np_sort t)
  /\ Permutation t (np_sort t)
  /\ nondecreasing (np_sort t) = true
  /\ (np_repeat (fst (np_unique t)) (snd (np_unique t)) = Some t
      <-> nondecreasing t = true).
Proof.
  intros Hle Heq.
  assert (Hs := np_sort_sorted t Hle).
  assert (E : np_repeat (fst (np_unique t)) (snd (np_unique t)) = Some (np_sort t)).
  { rewrite np_repeat_unique. f_equal. apply expand_runs_of.
    intros x y Hx Hy. apply Heq.
    - apply (Permutation_in x (Permutation_sym (np_sort_perm t))). exact Hx.
    - apply (Permutation_in y (Permutation_sym (np_sort_perm t))). exact Hy. }
  split; [exact E|]. split; [apply np_sort_perm|]. split; [exact Hs|].
  rewrite E. split.
  - intros Et. injection Et as Et. rewrite <- Et. exact Hs.
  - intros Ht. rewrite (np_sort_nondecreasing _ Ht). reflexivity.
Qed.

End UniqueFacts.

Lemma unique_then_repeat_sorts_witness :
  np_repeat (fst (np_unique [2; 1; 2]%float)) (snd (np_unique [2; 1; 2]%float))
  = Some (np_sort [2; 1; 2]%float)
  /\ nondecreasing (np_sort [2; 1; 2]%float) = true.
Proof.
  destruct (@unique_then_repeat_sorts float Scalar_float [2; 1; 2]%float)
    as [E [_ [Hs _]]].
  - intros x y [<- | [<- | [<- | []]]] [<- | [<- | [<- | []]]] E;
      try reflexivity; vm_compute in E; discriminate E.
  - intros x y [<- | [<- | [<- | []]]] [<- | [<- | [<- | []]]] E;
      try reflexivity; vm_compute in E; discriminate E.
  - split; [exact E | exact Hs].
Defined.

(** C2 as stated fails: the times [2.0, 1.0] come back as [1.0, 2.0]. *)
Lemma unique_then_repeat_reorders :
  np_repeat (fst (np_unique [2; 1]%float)) (snd (np_unique [2; 1]%float))
  <> Some [2; 1]%float.
Proof.
  intros E.
  apply (f_equal (fun o => match o with
                           | Some (x :: _) => PrimFloat.eqb x 1
                           | _ => false
                           end)) in E.
  vm_compute in E. discriminate E.
Qed.

(** ** Indexed updates and enumerations *)

Lemma length_set_nth {A : Type} (i : nat) (v : A) (l : list A) :
  length (set_nth i v l) = length l.
Proof.
  revert i. induction l as [|a l IH]; intros i; [destruct i; reflexivity|].
  destruct i; simpl; [reflexivity | now rewrite IH].
Qed.

Lemma nth_error_combine_seq {A : Type} (l : list A) (a k : nat) (x : A) :
  nth_error l k = Some x ->
  nth_error (combine (seq a (length l)) l) k = Some (a + k, x).
Proof.
  revert a k. induction l as [|y l IH]; intros a k Ex; [destruct k; discriminate|].
  destruct k as [|k]; simpl in *.
  - injection Ex as <-. f_equal. f_equal. lia.
  - rewrite (IH (S a) k Ex). f_equal. f_equal. lia.
Qed.

Lemma enumerate_split {A : Type} (l : list A) pre (i : nat) (x : A) post :
  enumerate l = pre ++ (i, x) :: post ->
  i = length pre /\ nth_error l i = Some x /\ length pre < length l.
Proof.
  unfold enumerate. intros E.
  assert (Hn : nth_error (combine (seq 0 (length l)) l) (length pre) = Some (i, x)).
  { rewrite E, nth_error_app2, Nat.sub_diag by lia. reflexivity. }
  assert (Hlt : length pre < length l).
  { apply (f_equal (@length _)) in E.
    rewrite length_combine, length_seq, length_app in E. simpl in E. lia. }
  destruct (nth_error l (length pre)) as [x'|] eqn:Ex.
  2:{ apply nth_error_None in Ex. lia. }
  assert (Hc := nth_error_combine_seq l 0 _ _ Ex). simpl in Hc.
  rewrite Hc in Hn. injection Hn as <- <-.
  repeat split; [exact Ex | exact Hlt].
Qed.

Lemma length_enumerate {A : Type} (l : list A) : length (enumerate l) = length l.
Proof. unfold enumerate. rewrite length_combine, length_seq. lia. Qed.

Lemma in_enumerate {A : Type} (l : list A) (i : nat) (x : A) :
  In (i, x) (enumerate l) -> nth_error l i = Some x /\ i < length l.
Proof.
  intros Hin. apply in_split in Hin. destruct Hin as [pre [post E]].
  destruct (enumerate_split _ _ _ _ _ E) as [-> [Hx Hlt]]. split; assumption.
Qed.

Lemma in_enumerate_iff {A : Type} (l : list A) (i : nat) (x : A) :
  In (i, x) (enumerate l) <-> nth_error l i = Some x.
Proof.
  split.
  - intros Hin. exact (proj1 (in_enumerate l i x Hin)).
  - intros E. unfold enumerate.
    apply (nth_error_In _ i). rewrite (nth_error_combine_seq l 0 i x E).
    reflexivity.
Qed.

Lemma map_fst_enumerate {A : Type} (l : list A) :
  map fst (enumerate l) = seq 0 (length l).
Proof.
  unfold enumerate. generalize 0 as a.
  induction l as [|x l IH]; intros a; [reflexivity|].
  simpl. now rewrite IH.
Qed.

Lemma NoDup_enumerate {A : Type} (l : list A) : NoDup (enumerate l).
Proof.
  apply NoDup_map_inv with (f := fst). rewrite map_fst_enumerate. apply seq_NoDup.
Qed.

(** ** The enumeration of the combinations *)

Lemma length_flat_map_const {A B : Type} (f : A -> list B) (l : list A) (c : nat) :
  (forall a, In a l -> length (f a) = c) -> length (flat_map f l) = length l * c.
Proof.
  induction l as [|a l IH]; intros Hc; [reflexivity|].
  simpl. rewrite length_app, (Hc a (or_introl eq_refl)), IH; [reflexivity|].
  intros a' Ha'. apply Hc. right. exact Ha'.
Qed.

Lemma NoDup_flat_map_disjoint {A B : Type} (f : A -> list B) (l : list A) :
  NoDup l ->
  (forall a, In a l -> NoDup (f a)) ->
  (forall a a' b, In a l -> In a' l -> In b (f a) -> In b (f a') -> a = a') ->
  NoDup (flat_map f l).
Proof.
  induction 1 as [|a l Ha Hl IH]; intros Hf Hd; simpl; [constructor|].
  apply NoDup_app.
  - apply Hf. left. reflexivity.
  - apply IH.
    + intros a' Ha'. apply Hf. right. exact Ha'.
    + intros a1 a2 b H1 H2. apply Hd; right; assumption.
  - intros b Hb Hb'. apply in_flat_map in Hb'. destruct Hb' as [a' [Ha' Hb']].
    assert (a = a') by (apply (Hd a a' b); simpl; auto).
    subst a'. contradiction.
Qed.

Lemma NoDup_map_injective {A B : Type} (f : A -> B) (l : list A) :
  (forall x y, f x = f y -> x = y) -> NoDup l -> NoDup (map f l).
Proof.
  intros Hinj. induction 1 as [|a l Ha Hl IH]; simpl; constructor; [|exact IH].
  intros Hin. apply in_map_iff in Hin. destruct Hin as [a' [E Ha']].
  apply Hinj in E. subst a'. contradiction.
Qed.

Section Enumeration.

Context {R : Type} `{Scalar R}.

Lemma in_index_product (dims idx : list nat) :
  In idx (index_product dims) <-> Forall2 lt idx dims.
Proof.
  revert idx. induction dims as [|d dims IH]; intros idx; simpl.
  - split.
    + intros [<- | []]. constructor.
    + intros F. inversion F. left. reflexivity.
  - rewrite in_flat_map. split.
    + intros [i [Hi Hin]]. apply in_map_iff in Hin. destruct Hin as [idx' [<- Hin]].
      apply in_seq in Hi. constructor; [lia | apply IH; exact Hin].
    + intros F. inversion F as [|i d' idx' dims' Hi F' E1 E2]. subst.
      exists i. split; [apply in_seq; lia|].
      apply in_map. apply IH. exact F'.
Qed.

Lemma NoDup_index_product (dims : list nat) : NoDup (index_product dims).
Proof.
  induction dims as [|d dims IH]; simpl.
  - constructor; [intros [] | constructor].
  - apply NoDup_flat_map_disjoint.
    + apply seq_NoDup.
    + intros i _. apply NoDup_map_injective; [|exact IH].
      intros x y E. injection E as E. exact E.
    + intros i i' b _ _ Hb Hb'.
      apply in_map_iff in Hb. destruct Hb as [x [<- _]].
      apply in_map_iff in Hb'. destruct Hb' as [y [E _]].
      injection E as E _. symmetry. exact E.
Qed.

Lemma length_index_product (dims : list nat) :
  length (index_product dims) = prod dims.
Proof.
  induction dims as [|d dims IH]; [reflexivity|].
  simpl. rewrite (length_flat_map_const _ _ (prod dims)).
  - rewrite length_seq. reflexivity.
  - intros i _. rewrite length_map. exact IH.
Qed.

Lemma in_itertools_product3 {A B C : Type} (a : list A) (b : list B) (c : list C)
    (x : A) (y : B) (z : C) :
  In (x, y, z) (itertools_product3 a b c) <-> In x a /\ In y b /\ In z c.
Proof.
  unfold itertools_product3. rewrite in_flat_map. split.
  - intros [x' [Hx Hin]]. apply in_flat_map in Hin. destruct Hin as [y' [Hy Hin]].
    apply in_map_iff in Hin. destruct Hin as [z' [E Hz]].
    injection E as -> -> ->. auto.
  - intros [Hx [Hy Hz]]. exists x. split; [exact Hx|].
    apply in_flat_map. exists y. split; [exact Hy|].
    apply in_map_iff. exists z. auto.
Qed.

Lemma NoDup_itertools_product3 {A B C : Type} (a : list A) (b : list B) (c : list C) :
  NoDup a -> NoDup b -> NoDup c -> NoDup (itertools_product3 a b c).
Proof.
  intros Ha Hb Hc. unfold itertools_product3.
  apply NoDup_flat_map_disjoint; [exact Ha | |].
  - intros x _. apply NoDup_flat_map_disjoint; [exact Hb | |].
    + intros y _. apply NoDup_map_injective; [|exact Hc].
      intros z z' E. injection E as E. exact E.
    + intros y y' [[x1 y1] z1] _ _ H1 H2.
      apply in_map_iff in H1. destruct H1 as [z [E1 _]].
      apply in_map_iff in H2. destruct H2 as [z' [E2 _]].
      congruence.
  - intros x x' [[x1 y1] z1] _ _ H1 H2.
    apply in_flat_map in H1. destruct H1 as [y [_ H1]].
    apply in_map_iff in H1. destruct H1 as [z [E1 _]].
    apply in_flat_map in H2. destruct H2 as [y' [_ H2]].
    apply in_map_iff in H2. destruct H2 as [z' [E2 _]].
    congruence.
Qed.

Lemma length_itertools_product3 {A B C : Type} (a : list A) (b : list B) (c : list C) :
  length (itertools_product3 a b c) = length a * length b * length c.
Proof.
  unfold itertools_product3.
  rewrite (length_flat_map_const _ _ (length b * length c)); [lia|].
  intros x _. rewrite (length_flat_map_const _ _ (length c)); [reflexivity|].
  intros y _. apply length_map.
Qed.

End Enumeration.

(** ** Offsets, shapes and counts *)

Section ShapeFacts.

Context {R : Type} `{Scalar R}.

Lemma prod_app (a b : list nat) : prod (a ++ b) = prod a * prod b.
Proof.
  induction a as [|d a IH]; simpl; [lia|]. rewrite IH. lia.
Qed.

Lemma ravel_in_range (dims idx : list nat) (acc : nat) :
  Forall2 lt idx dims ->
  exists off, ravel dims idx acc = Some off
              /\ acc * prod dims <= off < (acc + 1) * prod dims.
Proof.
  intros F. revert acc. induction F as [|i d idx dims Hi F IH]; intros acc; simpl.
  - exists acc. split; [reflexivity | lia].
  - apply Nat.ltb_lt in Hi. rewrite Hi. apply Nat.ltb_lt in Hi.
    destruct (IH (acc * d + i)) as [off [E Hoff]].
    exists off. split; [exact E | nia].
Qed.

Lemma split_eq_map {A B : Type} (l : list (A * B)) :
  split l = (map fst l, map snd l).
Proof.
  induction l as [|[a b] l IH]; [reflexivity|].
  simpl. rewrite IH. reflexivity.
Qed.

Lemma np_unique_eq (t : list R) :
  np_unique t = (map fst (runs (np_sort t)), map snd (runs (np_sort t))).
Proof. apply split_eq_map. Qed.

Lemma list_sum_runs (l : list R) : list_sum (map snd (runs l)) = length l.
Proof.
  induction l as [|x l IH]; [reflexivity|].
  cbn [runs]. destruct (runs l) as [|[y c] rest].
  - simpl in IH. simpl. lia.
  - destruct (req x y); simpl in *; lia.
Qed.

Lemma runs_nonempty (l : list R) : l <> [] -> runs l <> [].
Proof.
  destruct l as [|x l]; [congruence|]. intros _.
  cbn [runs]. destruct (runs l) as [|[y c] rest]; [discriminate|].
  destruct (req x y); discriminate.
Qed.

Lemma distinct_adjacent_runs (l : list R) :
  req_sym_trans R -> distinct_adjacent (map fst (runs l)) = true.
Proof.
  intros [Hsym Htrans]. induction l as [|x l IH]; [reflexivity|].
  cbn [runs]. destruct (runs l) as [|[y c] rest]; [reflexivity|].
  destruct (req x y) eqn:E.
  - cbn [map fst distinct_adjacent] in *.
    destruct (map fst rest) as [|z r]; [reflexivity|].
    apply andb_prop in IH. destruct IH as [Hyz IH].
    rewrite IH, andb_true_r.
    destruct (req x z) eqn:Exz; [|reflexivity].
    rewrite (Htrans y x z (Hsym x y E) Exz) in Hyz. discriminate.
  - cbn [map fst] in *. cbn [distinct_adjacent]. cbn [map fst] in IH.
    rewrite E. exact IH.
Qed.

(** When every unique time equals [t0] there is one unique time, and its
    count is the number of times. *)
Lemma unique_all_equal (t : list R) (t0 : R) :
  req_sym_trans R -> t <> [] ->
  forallb (fun v => req v t0) (fst (np_unique t)) = true ->
  exists v, np_unique t = ([v], [length t]) /\ req v t0 = true.
Proof.
  intros Hreq Ht Hall. rewrite np_unique_eq in *. cbn [fst] in Hall.
  assert (Hd := distinct_adjacent_runs (np_sort t) Hreq).
  assert (Hs := list_sum_runs (np_sort t)).
  assert (Hne : runs (np_sort t) <> []).
  { apply runs_nonempty. intros E. apply Ht.
    apply Permutation_nil. apply Permutation_sym. rewrite <- E. apply np_sort_perm. }
  rewrite <- (Permutation_length (np_sort_perm t)) in Hs.
  destruct (runs (np_sort t)) as [|[v c] rest]; [congruence|].
  destruct rest as [|[w c'] rest].
  - exists v. simpl in *. apply andb_prop in Hall. destruct Hall as [Hv _].
    split; [|exact Hv]. repeat f_equal. lia.
  - exfalso. destruct Hreq as [Hsym Htrans].
    cbn [map fst forallb distinct_adjacent] in Hall, Hd.
    apply andb_prop in Hall. destruct Hall as [Hv Hall].
    apply andb_prop in Hall. destruct Hall as [Hw _].
    apply andb_prop in Hd. destruct Hd as [Hd _].
    rewrite (Htrans v t0 w Hv (Hsym w t0 Hw)) in Hd. discriminate.
Qed.

(** The largest time is one of the times. *)
Lemma fold_max_in (l : list R) (a : R) :
  In (fold_left (fun m v => if rle m v then v else m) l a) (a :: l).
Proof.
  revert a. induction l as [|v l IH]; intros a; cbn [fold_left].
  - left. reflexivity.
  - destruct (rle a v).
    + right. apply IH.
    + destruct (IH a) as [E | Hin]; [left; exact E | right; right; exact Hin].
Qed.

Lemma np_max_in (l : list R) (m : R) : np_max l = Some m -> In m l.
Proof.
  destruct l as [|x l]; [discriminate|]. cbn [np_max]. intros E.
  injection E as <-. apply fold_max_in.
Qed.

(** When every unique time equals [t0], so does every time. *)
Lemma runs_at_t0 (l : list R) (t0 : R) :
  req_sym_trans R ->
  forallb (fun v => req v t0) (map fst (runs l)) = true ->
  forall x, In x l -> req x t0 = true.
Proof.
  intros [Hsym Htrans]. induction l as [|a l IH]; intros Hall x Hx; [destruct Hx|].
  cbn [runs] in Hall.
  destruct (runs l) as [|[y c] rest] eqn:E.
  - assert (l = []) as ->.
    { destruct l as [|b l]; [reflexivity|].
      exfalso. apply (runs_nonempty (b :: l)); [discriminate | exact E]. }
    cbn [map fst forallb] in Hall. apply andb_prop in Hall.
    destruct Hx as [<- | []]. exact (proj1 Hall).
  - destruct (req a y) eqn:Eay; cbn [map fst forallb] in Hall, IH;
      apply andb_prop in Hall; destruct Hall as [Ha Hrest].
    + destruct Hx as [<- | Hx]; [exact Ha|].
      apply IH; [|exact Hx].
      rewrite (Htrans y a t0 (Hsym a y Eay) Ha). exact Hrest.
    + destruct Hx as [<- | Hx]; [exact Ha|].
      apply IH; [exact Hrest | exact Hx].
Qed.

Lemma times_at_t0 (t : list R) (t0 : R) :
  req_sym_trans R ->
  forallb (fun v => req v t0) (fst (np_unique t)) = true ->
  forall x, In x t -> req x t0 = true.
Proof.
  intros Hreq Hall x Hx. rewrite np_unique_eq in Hall. cbn [fst] in Hall.
  apply (runs_at_t0 (np_sort t) t0 Hreq Hall).
  apply (Permutation_in x (np_sort_perm t)). exact Hx.
Qed.

Lemma np_unique_lengths (t : list R) :
  length (fst (np_unique t)) = length (snd (np_unique t))
  /\ list_sum (snd (np_unique t)) = length t.
Proof.
  rewrite np_unique_eq. cbn [fst snd]. rewrite !length_map. split; [reflexivity|].
  rewrite list_sum_runs. symmetry. apply Permutation_length, np_sort_perm.
Qed.

Lemma length_expand_combine {A : Type} (a : list A) (counts : list nat) :
  length a = length counts ->
  length (flat_map (fun xc => repeat (fst xc) (snd xc)) (combine a counts))
  = list_sum counts.
Proof.
  revert counts. induction a as [|x a IH]; intros [|c counts] E;
    try discriminate; [reflexivity|].
  simpl. rewrite length_app, repeat_length, IH; [reflexivity|].
  simpl in E. lia.
Qed.

Lemma np_repeat_matching {A : Type} (a : list A) (counts : list nat) :
  length counts = length a ->
  np_repeat a counts
  = Some (flat_map (fun xc => repeat (fst xc) (snd xc)) (combine a counts)).
Proof. intros E. unfold np_repeat. rewrite E, Nat.eqb_refl. reflexivity. Qed.

Lemma Forall_set_nth {A : Type} (P : A -> Prop) (i : nat) (v : A) (l : list A) :
  Forall P l -> P v -> Forall P (set_nth i v l).
Proof.
  intros Hl Hv. revert i. induction Hl as [|a l Ha Hl IH]; intros i.
  - destruct i; constructor.
  - destruct i; simpl; constructor; auto.
Qed.

Lemma nth_set_nth {A : Type} (i k : nat) (v d : A) (l : list A) :
  i < length l -> nth k (set_nth i v l) d = if k =? i then v else nth k l d.
Proof.
  revert i k. induction l as [|a l IH]; intros i k Hi; [simpl in Hi; lia|].
  destruct i as [|i]; destruct k as [|k]; simpl; try reflexivity.
  apply IH. simpl in Hi. lia.
Qed.

Lemma has_shape_nth {A : Type} (rows cols : nat) (m : list (list A)) (i : nat) :
  has_shape rows cols m -> i < rows -> length (nth i m []) = cols.
Proof.
  intros [L F] Hi. rewrite Forall_forall in F. apply F. apply nth_In. lia.
Qed.

Lemma has_shape3_nth {A : Type} (d0 d1 d2 : nat) (s : list (list (list A))) (j : nat) :
  has_shape3 d0 d1 d2 s -> j < d0 -> has_shape d1 d2 (nth j s []).
Proof.
  intros [L F] Hj. rewrite Forall_forall in F. apply F. apply nth_In. lia.
Qed.

Lemma has_shape_repeat {A : Type} (rows cols : nat) (x : A) :
  has_shape rows cols (repeat (repeat x cols) rows).
Proof.
  split; [apply repeat_length|].
  apply Forall_forall. intros r Hr. apply repeat_spec in Hr. subst r.
  apply repeat_length.
Qed.

Lemma has_shape3_zeros (d0 d1 d2 : nat) : has_shape3 d0 d1 d2 (np_zeros3 d0 d1 d2).
Proof.
  split; [apply repeat_length|].
  apply Forall_forall. intros b Hb. apply repeat_spec in Hb. subst b.
  apply has_shape_repeat.
Qed.

Lemma entry_zeros (d0 d1 d2 j i k : nat) : entry (np_zeros3 d0 d1 d2) j i k = rzero.
Proof.
  unfold entry, np_zeros3.
  destruct (Nat.lt_ge_cases j d0) as [Hj|Hj].
  2:{ rewrite (nth_overflow (repeat _ d0)) by (rewrite repeat_length; exact Hj).
      destruct i; destruct k; reflexivity. }
  rewrite nth_repeat_lt by exact Hj.
  destruct (Nat.lt_ge_cases i d1) as [Hi|Hi].
  2:{ rewrite (nth_overflow (repeat _ d1)) by (rewrite repeat_length; exact Hi).
      destruct k; reflexivity. }
  rewrite nth_repeat_lt by exact Hi.
  apply nth_repeat.
Qed.

Lemma np_reshape3_ok (r : list (list R)) (d0 d1 L : nat) :
  has_shape (d0 * d1) L r -> 0 < d0 * d1 ->
  np_reshape3 r d0 d1 = Some (map (chunks d1 L) (chunks d0 (d1 * L) (concat r)))
  /\ has_shape3 d0 d1 L (map (chunks d1 L) (chunks d0 (d1 * L) (concat r))).
Proof.
  intros [Lr Fr] Hpos.
  assert (Lc : length (concat r) = L * (d0 * d1)).
  { rewrite (length_concat_rect r L Fr), Lr. lia. }
  split.
  - unfold np_reshape3.
    destruct (d0 * d1 =? 0) eqn:E0; [apply Nat.eqb_eq in E0; lia|].
    rewrite Lc, Nat.Div0.mod_mul, Nat.eqb_refl, Nat.div_mul by lia.
    reflexivity.
  - split.
    + rewrite length_map, length_chunks. reflexivity.
    + apply Forall_map.
      assert (F := Forall_length_chunks d0 (d1 * L) (concat r)).
      rewrite Forall_forall in *. intros piece Hp. split.
      * apply length_chunks.
      * apply Forall_length_chunks. rewrite (F ltac:(lia) piece Hp). lia.
Qed.

Lemma np_swapaxes01_shape (a : list (list (list R))) (d0 d1 d2 : nat) :
  has_shape3 d0 d1 d2 a -> has_shape3 d1 d0 d2 (np_swapaxes01 a d1).
Proof.
  intros Ha. unfold np_swapaxes01. split.
  - rewrite length_map, length_seq. reflexivity.
  - apply Forall_map. apply Forall_forall. intros j Hj. apply in_seq in Hj. split.
    + rewrite length_map. exact (proj1 Ha).
    + apply Forall_map. destruct Ha as [_ Fa].
      rewrite Forall_forall in *. intros blk Hb.
      destruct (Fa blk Hb) as [Lb Fb]. rewrite Forall_forall in Fb.
      apply Fb. apply nth_In. lia.
Qed.

Lemma np_repeat_axis2_ok (s : list (list (list R))) (counts : list nat)
    (d0 d1 : nat) :
  has_shape3 d0 d1 (length counts) s ->
  np_repeat_axis2 s counts
  = Some (map (map (fun row => expand (combine row counts))) s)
  /\ has_shape3 d0 d1 (list_sum counts)
                (map (map (fun row => expand (combine row counts))) s).
Proof.
  intros [Ls Fs]. split.
  - unfold np_repeat_axis2. apply mapM_total. intros blk Hb.
    apply mapM_total. intros row Hr.
    apply np_repeat_matching.
    rewrite Forall_forall in Fs. destruct (Fs blk Hb) as [_ Fb].
    rewrite Forall_forall in Fb. symmetry. apply Fb. exact Hr.
  - split; [rewrite length_map; exact Ls|].
    apply Forall_map. rewrite Forall_forall in *. intros blk Hb.
    destruct (Fs blk Hb) as [Lb Fb]. split; [rewrite length_map; exact Lb|].
    apply Forall_map. rewrite Forall_forall in *. intros row Hr.
    apply length_expand_combine. apply Fb. exact Hr.
Qed.

(** Row [q] of a rectangular array inside its row-major flattening. *)
Lemma row_of_concat {A : Type} (m : list (list A)) (L q : nat) :
  Forall (fun r => length r = L) m -> q < length m ->
  firstn L (skipn (q * L) (concat m)) = nth q m [].
Proof.
  intros F. revert q. induction F as [|r m Hr F IH]; intros q Hq.
  - simpl in Hq. lia.
  - destruct q as [|q]; cbn [concat nth].
    + simpl. rewrite <- Hr. apply firstn_length_app.
    + replace (S q * L) with (q * L + length r) by (rewrite Hr; lia).
      rewrite <- skipn_skipn, skipn_length_app.
      apply IH. simpl in Hq. lia.
Qed.

(** The rows of [r.reshape((d0, d1, -1))] with the first two axes swapped:
    row [(j, i)] is row [i * d1 + j] of [r]. *)
Lemma reshape_swap_row (r : list (list R)) (d0 d1 L i j : nat) :
  has_shape (d0 * d1) L r -> i < d0 -> j < d1 ->
  nth i (nth j (np_swapaxes01
                  (map (chunks d1 L) (chunks d0 (d1 * L) (concat r))) d1) []) []
  = nth (i * d1 + j) r [].
Proof.
  intros [Lr Fr] Hi Hj. unfold np_swapaxes01.
  rewrite nth_map_seq by exact Hj.
  rewrite (nth_map_default _ _ i [] []) by (rewrite length_map, length_chunks; exact Hi).
  rewrite (nth_map_default _ _ i [] []) by (rewrite length_chunks; exact Hi).
  rewrite !nth_chunks by assumption.
  rewrite skipn_firstn_comm, firstn_firstn, skipn_skipn.
  replace (Nat.min L (d1 * L - j * L)) with L by nia.
  replace (j * L + i * (d1 * L)) with ((i * d1 + j) * L) by ring.
  apply row_of_concat; [exact Fr | nia].
Qed.

End ShapeFacts.

(** ** Relative sensitivities *)

Section RelativeFacts.

Context {R : Type} `{Scalar R}.

Lemma entry_scaled_block (f : R -> R) (blk : list (list R)) (d1 d2 i k : nat) :
  has_shape d1 d2 blk -> i < d1 -> k < d2 ->
  nth k (nth i (map (map f) blk) []) rzero = f (nth k (nth i blk []) rzero).
Proof.
  intros Hb Hi Hk.
  rewrite (nth_map_default _ blk i [] []) by (rewrite (proj1 Hb); exact Hi).
  apply nth_map_default. rewrite (has_shape_nth d1 d2 blk i Hb Hi). exact Hk.
Qed.

Lemma scale_by_parameters_ok (ps : list R) (s : list (list (list R))) (d1 d2 : nat) :
  has_shape3 (length ps) d1 d2 s ->
  exists s', scale_by_parameters ps s = Some s'
             /\ has_shape3 (length ps) d1 d2 s'
             /\ forall j i k, j < length ps -> i < d1 -> k < d2 ->
                  entry s' j i k = rmul (entry s j i k) (nth j ps rzero).
Proof.
  intros Hs. unfold scale_by_parameters.
  destruct (foldM_invariant
    (fun s ip =>
       blk <- nth_error s (fst ip) ;;
       Some (set_nth (fst ip) (map (map (fun v => rmul v (snd ip))) blk) s))
    (fun pre s' =>
       has_shape3 (length ps) d1 d2 s'
       /\ forall j i k, j < length ps -> i < d1 -> k < d2 ->
            entry s' j i k = if j <? length pre
                             then rmul (entry s j i k) (nth j ps rzero)
                             else entry s j i k)
    (enumerate ps) s) as [s' [E [Hshape Hent]]].
  - split; [exact Hs | intros; reflexivity].
  - intros pre [jj p] post s1 El [Hs1 He1].
    destruct (enumerate_split _ _ _ _ _ El) as [-> [Hp Hlt]].
    cbn [fst snd].
    rewrite (nth_error_nth' s1 []) by (rewrite (proj1 Hs1); exact Hlt).
    cbn [bind]. eexists. split; [reflexivity|].
    assert (Hblk := has_shape3_nth _ _ _ s1 (length pre) Hs1 Hlt).
    split.
    + split; [rewrite length_set_nth; exact (proj1 Hs1)|].
      apply Forall_set_nth; [exact (proj2 Hs1)|].
      split; [rewrite length_map; exact (proj1 Hblk)|].
      apply Forall_map. destruct Hblk as [_ Fb].
      rewrite Forall_forall in *. intros row Hr. rewrite length_map. auto.
    + intros j i k Hj Hi Hk. rewrite length_app. cbn [length].
      unfold entry at 1.
      rewrite nth_set_nth by (rewrite (proj1 Hs1); exact Hlt).
      destruct (j =? length pre) eqn:Ej.
      * apply Nat.eqb_eq in Ej. subst j.
        rewrite (entry_scaled_block _ _ d1 d2) by assumption.
        fold (entry s1 (length pre) i k). rewrite He1 by assumption.
        rewrite Nat.ltb_irrefl.
        assert (Hl : (length pre <? length pre + 1) = true) by (apply Nat.ltb_lt; lia).
        rewrite Hl. f_equal. symmetry. apply nth_error_nth. exact Hp.
      * apply Nat.eqb_neq in Ej. fold (entry s1 j i k).
        rewrite He1 by assumption.
        destruct (j <? length pre) eqn:E1.
        -- apply Nat.ltb_lt in E1.
           assert (Hl : (j <? length pre + 1) = true) by (apply Nat.ltb_lt; lia).
           rewrite Hl. reflexivity.
        -- apply Nat.ltb_ge in E1.
           assert (Hl : (j <? length pre + 1) = false) by (apply Nat.ltb_ge; lia).
           rewrite Hl. reflexivity.
  - exists s'. split; [exact E|]. split; [exact Hshape|].
    intros j i k Hj Hi Hk. rewrite Hent by assumption.
    rewrite length_enumerate. apply Nat.ltb_lt in Hj. rewrite Hj. reflexivity.
Qed.

Lemma ltb_succ_cases (j n : nat) :
  (j <? n + 1) = if j =? n then true else (j <? n).
Proof.
  destruct (j =? n) eqn:E.
  - apply Nat.eqb_eq in E. apply Nat.ltb_lt. lia.
  - apply Nat.eqb_neq in E. destruct (j <? n) eqn:E1.
    + apply Nat.ltb_lt in E1. apply Nat.ltb_lt. lia.
    + apply Nat.ltb_ge in E1. apply Nat.ltb_ge. lia.
Qed.

Lemma idiv_matching (row d : list R) :
  length d = length row ->
  idiv row d = Some (map (fun vd => rdiv (fst vd) (snd vd)) (combine row d)).
Proof. intros E. unfold idiv. rewrite E, Nat.eqb_refl. reflexivity. Qed.

Lemma divide_by_observables_ok (ys : list (list R)) (counts : list nat)
    (s : list (list (list R))) (d0 d1 : nat) :
  has_shape3 d0 d1 (list_sum counts) s ->
  length ys <= d1 ->
  Forall (fun o => length o = length counts) ys ->
  exists s', divide_by_observables ys counts s = Some s'
             /\ has_shape3 d0 d1 (list_sum counts) s'
             /\ forall j i k, j < d0 -> i < d1 -> k < list_sum counts ->
                  entry s' j i k
                  = if i <? length ys
                    then rdiv (entry s j i k)
                              (nth k (expand (combine (nth i ys []) counts)) rzero)
                    else entry s j i k.
Proof.
  intros Hs Hys Fys. unfold divide_by_observables.
  set (d2 := list_sum counts) in *.
  destruct (foldM_invariant
    (fun s io =>
       d <- np_repeat (snd io) counts ;;
       mapM (fun blk =>
               row <- nth_error blk (fst io) ;;
               row' <- idiv row d ;;
               Some (set_nth (fst io) row' blk)) s)
    (fun pre s' =>
       has_shape3 d0 d1 d2 s'
       /\ forall j i k, j < d0 -> i < d1 -> k < d2 ->
            entry s' j i k
            = if i <? length pre
              then rdiv (entry s j i k)
                        (nth k (expand (combine (nth i ys []) counts)) rzero)
              else entry s j i k)
    (enumerate ys) s) as [s' [E [Hshape Hent]]].
  - split; [exact Hs | intros; reflexivity].
  - intros pre [ii o] post s1 El [Hs1 He1].
    destruct (enumerate_split _ _ _ _ _ El) as [-> [Ho Hlt]].
    cbn [fst snd].
    assert (Lo : length o = length counts).
    { rewrite Forall_forall in Fys. apply Fys. eapply nth_error_In. exact Ho. }
    rewrite np_repeat_matching by (symmetry; exact Lo). cbn [bind].
    set (d := flat_map _ (combine o counts)).
    assert (Ld : length d = d2) by (apply length_expand_combine; exact Lo).
    set (g := fun blk : list (list R) =>
                set_nth (length pre)
                        (map (fun vd => rdiv (fst vd) (snd vd))
                             (combine (nth (length pre) blk []) d)) blk).
    exists (map g s1). split; [|split].
    + apply mapM_total. intros blk Hb.
      destruct Hs1 as [_ F1]. rewrite Forall_forall in F1.
      destruct (F1 blk Hb) as [Lb Fb].
      rewrite (nth_error_nth' blk []) by lia. cbn [bind].
      rewrite idiv_matching; [reflexivity|].
      rewrite Ld. symmetry. rewrite Forall_forall in Fb. apply Fb.
      apply nth_In. lia.
    + split; [rewrite length_map; exact (proj1 Hs1)|].
      apply Forall_map. destruct Hs1 as [_ F1].
      rewrite Forall_forall in *. intros blk Hb.
      destruct (F1 blk Hb) as [Lb Fb]. split.
      * unfold g. rewrite length_set_nth. exact Lb.
      * unfold g. apply Forall_set_nth; [exact Fb|].
        rewrite length_map, length_combine, Ld.
        rewrite Forall_forall in Fb.
        rewrite (Fb (nth (length pre) blk [])) by (apply nth_In; lia). lia.
    + intros j i k Hj Hi Hk. rewrite length_app. cbn [length].
      rewrite ltb_succ_cases.
      assert (Hblk := has_shape3_nth _ _ _ s1 j Hs1 Hj).
      unfold entry at 1.
      rewrite (nth_map_default g s1 j [] []) by (rewrite (proj1 Hs1); exact Hj).
      unfold g. rewrite nth_set_nth by (rewrite (proj1 Hblk); lia).
      destruct (i =? length pre) eqn:Ei.
      * apply Nat.eqb_eq in Ei. subst i.
        rewrite (nth_zip_map _ _ _ k rzero rzero rzero).
        2:{ rewrite (has_shape_nth _ _ _ _ Hblk Hi). exact Hk. }
        2:{ rewrite (has_shape_nth _ _ _ _ Hblk Hi). symmetry. exact Ld. }
        cbn [fst snd]. fold (entry s1 j (length pre) k).
        rewrite He1 by assumption. rewrite Nat.ltb_irrefl.
        rewrite (nth_error_nth ys (length pre) [] Ho). reflexivity.
      * fold (entry s1 j i k). apply He1; assumption.
  - exists s'. split; [exact E|]. split; [exact Hshape|].
    intros j i k Hj Hi Hk. rewrite Hent by assumption.
    rewrite length_enumerate. reflexivity.
Qed.

End RelativeFacts.

(** ** Distinct index tuples address distinct positions *)

Lemma ravel_injective (dims idx idx' : list nat) (acc acc' off : nat) :
  ravel dims idx acc = Some off -> ravel dims idx' acc' = Some off ->
  acc = acc' /\ idx = idx'.
Proof.
  revert idx idx' acc acc'.
  induction dims as [|d dims IH]; intros [|i idx] [|i' idx'] acc acc' E E';
    simpl in E, E'; try discriminate.
  - split; [congruence | reflexivity].
  - destruct (i <? d) eqn:Hi; [|discriminate].
    destruct (i' <? d) eqn:Hi'; [|discriminate].
    apply Nat.ltb_lt in Hi, Hi'.
    destruct (IH _ _ _ _ E E') as [Eacc Eidx].
    assert (acc = acc') by nia. subst acc'.
    split; [reflexivity|]. f_equal; [lia | exact Eidx].
Qed.

(** ** Writing one block into the tensor *)

Section AssignFacts.

Context {R : Type} `{Scalar R}.

Lemma np_shape_last_app (a : ndarray R) (dims : list nat) (n : nat) :
  shape a = dims ++ [n] -> np_shape_last a = Some n.
Proof.
  intros E. unfold np_shape_last. rewrite E, rev_unit. reflexivity.
Qed.

Lemma stretch_same {A : Type} (n : nat) (l : list A) :
  length l = n -> stretch n l = Some l.
Proof. intros E. unfold stretch. rewrite E, Nat.eqb_refl. reflexivity. Qed.

(** *** Nested loops as one loop *)

Lemma foldM_app {A St : Type} (f : St -> A -> option St) (l1 l2 : list A) (s : St) :
  foldM f (l1 ++ l2) s = bind (foldM f l1 s) (foldM f l2).
Proof.
  revert s. induction l1 as [|a l1 IH]; intros s; simpl; [reflexivity|].
  destruct (f s a) as [s'|]; simpl; [apply IH | reflexivity].
Qed.

Lemma foldM_ext {A St : Type} (f f' : St -> A -> option St) (l : list A) (s : St) :
  (forall s a, f s a = f' s a) -> foldM f l s = foldM f' l s.
Proof.
  intros E. revert s. induction l as [|a l IH]; intros s; simpl; [reflexivity|].
  rewrite E. destruct (f' s a) as [s'|]; simpl; [apply IH | reflexivity].
Qed.

Lemma foldM_map {A B St : Type} (f : St -> B -> option St) (h : A -> B)
    (l : list A) (s : St) :
  foldM f (map h l) s = foldM (fun s a => f s (h a)) l s.
Proof.
  revert s. induction l as [|a l IH]; intros s; simpl; [reflexivity|].
  destruct (f s (h a)) as [s'|]; simpl; [apply IH | reflexivity].
Qed.

Lemma foldM_flat_map {A B St : Type} (f : St -> B -> option St) (h : A -> list B)
    (l : list A) (s : St) :
  foldM f (flat_map h l) s = foldM (fun s a => foldM f (h a) s) l s.
Proof.
  revert s. induction l as [|a l IH]; intros s; simpl; [reflexivity|].
  rewrite foldM_app. destruct (foldM f (h a) s) as [s'|]; simpl;
    [apply IH | reflexivity].
Qed.

(** The three nested loops of the assignment are one loop over the
    entries of the block. *)
Lemma assignment_loops_flat (g : nat * nat * nat -> option nat)
    (s : list (list (list R))) (d : list R) :
  foldM (fun d jb =>
    foldM (fun d ir =>
      foldM (fun d kv =>
        off <- g (fst jb, fst ir, fst kv) ;; Some (set_nth off (snd kv) d))
        (enumerate (snd ir)) d)
      (enumerate (snd jb)) d)
    (enumerate s) d
  = foldM (fun d w => off <- g (fst w) ;; Some (set_nth off (snd w) d))
          (slice_writes s) d.
Proof.
  unfold slice_writes. rewrite foldM_flat_map. apply foldM_ext. intros d1 jb.
  rewrite foldM_flat_map. apply foldM_ext. intros d2 ir.
  rewrite foldM_map. reflexivity.
Qed.

Lemma assignment_loops_flat_ravel (dims : list nat) (i_t0 i_x0 : nat)
    (index : list nat) (s : list (list (list R))) (d : list R) :
  foldM (fun d jb =>
    foldM (fun d ir =>
      foldM (fun d kv =>
        off <- ravel dims (fst jb :: i_t0 :: i_x0 :: fst ir :: index ++ [fst kv]) 0 ;;
        Some (set_nth off (snd kv) d))
        (enumerate (snd ir)) d)
      (enumerate (snd jb)) d)
    (enumerate s) d
  = foldM (fun d w => off <- slice_offset dims i_t0 i_x0 index (fst w) ;;
                      Some (set_nth off (snd w) d))
          (slice_writes s) d.
Proof. exact (assignment_loops_flat (slice_offset dims i_t0 i_x0 index) s d). Qed.

Lemma in_slice_writes (s : list (list (list R))) (j i k : nat) (v : R) :
  In (j, i, k, v) (slice_writes s)
  <-> exists blk row, nth_error s j = Some blk /\ nth_error blk i = Some row
                      /\ nth_error row k = Some v.
Proof.
  unfold slice_writes. rewrite in_flat_map. split.
  - intros [[j' blk] [Hjb Hin]]. apply in_flat_map in Hin.
    destruct Hin as [[i' row] [Hir Hin]]. apply in_map_iff in Hin.
    destruct Hin as [[k' v'] [E Hkv]]. cbn [fst snd] in *.
    injection E as -> -> -> ->.
    apply in_enumerate_iff in Hjb, Hir, Hkv. exists blk, row. auto.
  - intros [blk [row [Hj [Hi Hk]]]].
    exists (j, blk). split; [apply in_enumerate_iff; exact Hj|].
    apply in_flat_map. exists (i, row).
    split; [apply in_enumerate_iff; exact Hi|].
    apply in_map_iff. exists (k, v).
    split; [reflexivity | apply in_enumerate_iff; exact Hk].
Qed.

(** A loop of writes whose values agree wherever their positions do: every
    written position holds its value, every other position is unchanged. *)
Lemma writes_spec {A : Type} (g : A -> option nat) (W : list (A * R))
    (d : list R) (x : R) :
  (forall a v, In (a, v) W -> exists off, g a = Some off /\ off < length d) ->
  (forall a v a' v', In (a, v) W -> In (a', v') W -> g a = g a' -> v = v') ->
  exists d',
    foldM (fun d w => off <- g (fst w) ;; Some (set_nth off (snd w) d)) W d
    = Some d'
    /\ length d' = length d
    /\ (forall a v off, In (a, v) W -> g a = Some off -> nth off d' x = v)
    /\ (forall off, (forall a v, In (a, v) W -> g a <> Some off) ->
                    nth off d' x = nth off d x).
Proof.
  induction W as [|[a v] W IH] using rev_ind; intros Hrange Hcons.
  - exists d. split; [reflexivity|]. split; [reflexivity|].
    split; [intros a v off []| reflexivity].
  - destruct IH as [d1 [E1 [L1 [Hw Hu]]]].
    { intros a' v' Hin. apply (Hrange a' v'). apply in_or_app. left. exact Hin. }
    { intros a1 v1 a2 v2 H1 H2.
      apply Hcons; apply in_or_app; left; assumption. }
    destruct (Hrange a v) as [off [Eoff Hoff]].
    { apply in_or_app. right. left. reflexivity. }
    exists (set_nth off v d1).
    split.
    { rewrite foldM_app, E1. cbn [bind foldM fst snd]. rewrite Eoff. reflexivity. }
    split; [rewrite length_set_nth; exact L1|].
    split.
    + intros a' v' off' Hin Eg. rewrite nth_set_nth by lia.
      destruct (off' =? off) eqn:Eo.
      * apply Nat.eqb_eq in Eo. subst off'.
        apply (Hcons a v a' v').
        -- apply in_or_app. right. left. reflexivity.
        -- exact Hin.
        -- congruence.
      * apply in_app_or in Hin. destruct Hin as [Hin | [E | []]].
        -- apply (Hw a' v' off' Hin Eg).
        -- injection E as <- <-. apply Nat.eqb_neq in Eo. congruence.
    + intros off' Hnot. rewrite nth_set_nth by lia.
      destruct (off' =? off) eqn:Eo.
      * apply Nat.eqb_eq in Eo. subst off'. exfalso.
        apply (Hnot a v); [|exact Eoff]. apply in_or_app. right. left. reflexivity.
      * apply Hu. intros a' v' Hin. apply (Hnot a' v'). apply in_or_app. left. exact Hin.
Qed.

Lemma slice_offset_injective (dims : list nat) (i_t0 i_x0 : nat)
    (index : list nat) (jik jik' : nat * nat * nat) (off : nat) :
  slice_offset dims i_t0 i_x0 index jik = Some off ->
  slice_offset dims i_t0 i_x0 index jik' = Some off -> jik = jik'.
Proof.
  destruct jik as [[j i] k]. destruct jik' as [[j' i'] k'].
  unfold slice_offset. cbn [fst snd app]. intros E E'.
  destruct (ravel_injective _ _ _ _ _ _ E E') as [_ Eidx].
  injection Eidx as -> -> Etail.
  apply app_inj_tail in Etail. destruct Etail as [_ ->]. reflexivity.
Qed.

(** What the assignment leaves in the tensor: the block at the positions
    of the slice, the old content everywhere else. *)
Lemma assign_slice_spec (S_ : ndarray R) (n_p n_t0 N_x0 n_x : nat)
    (ishape : list nat) (n_times i_t0 i_x0 : nat) (index : list nat)
    (s : list (list (list R))) (x : R) :
  shape S_ = [n_p; n_t0; N_x0; n_x] ++ ishape ++ [n_times] ->
  length (data S_) = prod (shape S_) ->
  i_t0 < n_t0 -> i_x0 < N_x0 -> Forall2 lt index ishape ->
  has_shape3 n_p n_x n_times s ->
  exists d,
    assign_slice S_ i_t0 i_x0 index s = Some (Ndarray (shape S_) d)
    /\ length d = length (data S_)
    /\ (forall j i k off, j < n_p -> i < n_x -> k < n_times ->
          slice_offset (shape S_) i_t0 i_x0 index (j, i, k) = Some off ->
          nth off d x = entry s j i k)
    /\ (forall off,
          (forall jik, slice_offset (shape S_) i_t0 i_x0 index jik <> Some off) ->
          nth off d x = nth off (data S_) x).
Proof.
  intros Hshape Hdata Ht0 Hx0 Hidx Hs.
  assert (Hin : forall j i k v, In (j, i, k, v) (slice_writes s) ->
                  j < n_p /\ i < n_x /\ k < n_times /\ v = entry s j i k).
  { intros j i k v Hw. apply in_slice_writes in Hw.
    destruct Hw as [blk [row [Hj [Hi Hk]]]].
    assert (Lj : j < n_p).
    { rewrite <- (proj1 Hs). apply nth_error_Some. congruence. }
    assert (Sb : has_shape n_x n_times blk).
    { destruct Hs as [_ Fs]. rewrite Forall_forall in Fs. apply Fs.
      eapply nth_error_In. exact Hj. }
    assert (Li : i < n_x).
    { rewrite <- (proj1 Sb). apply nth_error_Some. congruence. }
    assert (Lr : length row = n_times).
    { destruct Sb as [_ Fb]. rewrite Forall_forall in Fb. apply Fb.
      eapply nth_error_In. exact Hi. }
    assert (Lk : k < n_times).
    { rewrite <- Lr. apply nth_error_Some. congruence. }
    repeat split; try assumption.
    unfold entry. rewrite (nth_error_nth s j [] Hj), (nth_error_nth blk i [] Hi).
    symmetry. apply nth_error_nth. exact Hk. }
  assert (Hoff : forall j i k, j < n_p -> i < n_x -> k < n_times ->
                   exists off, slice_offset (shape S_) i_t0 i_x0 index (j, i, k)
                               = Some off /\ off < length (data S_)).
  { intros j i k Hj Hi Hk. unfold slice_offset. cbn [fst snd].
    destruct (ravel_in_range (shape S_) ([j; i_t0; i_x0; i] ++ index ++ [k]) 0)
      as [off [E Hb]].
    { rewrite Hshape. cbn [app]. repeat (constructor; [assumption|]).
      apply Forall2_app; [exact Hidx|]. constructor; [exact Hk | constructor]. }
    exists off. split; [exact E | rewrite Hdata; lia]. }
  unfold assign_slice.
  rewrite (np_shape_last_app S_ ([n_p; n_t0; N_x0; n_x] ++ ishape) n_times)
    by (rewrite Hshape, <- app_assoc; reflexivity).
  rewrite Hshape in Hoff |- *. cbn [app] in Hoff |- *. rewrite removelast_last.
  destruct (ravel_in_range (n_t0 :: N_x0 :: ishape) (i_t0 :: i_x0 :: index) 0)
    as [off0 [E0 _]].
  { constructor; [exact Ht0|]. constructor; [exact Hx0 | exact Hidx]. }
  rewrite E0. cbn [bind].
  rewrite (stretch_same n_p s (proj1 Hs)). cbn [bind].
  rewrite (mapM_total _ (fun blk => blk)).
  2:{ intros blk Hb. destruct Hs as [_ Fs]. rewrite Forall_forall in Fs.
      destruct (Fs blk Hb) as [Lb Fb].
      rewrite (stretch_same n_x blk Lb). cbn [bind].
      rewrite (mapM_total _ (fun row => row)).
      - rewrite map_id. reflexivity.
      - intros row Hr. rewrite Forall_forall in Fb.
        apply stretch_same. apply Fb. exact Hr. }
  rewrite map_id. cbn [bind].
  rewrite assignment_loops_flat_ravel.
  set (dims := n_p :: n_t0 :: N_x0 :: n_x :: ishape ++ [n_times]) in *.
  destruct (writes_spec (slice_offset dims i_t0 i_x0 index)
              (slice_writes s) (data S_) x) as [d [Ed [Ld [Hw Hu]]]].
  - intros [[j i] k] v Hw. destruct (Hin j i k v Hw) as (Hj & Hi & Hk & _).
    apply Hoff; assumption.
  - intros [[j i] k] v [[j' i'] k'] v' Hw Hw' Eg.
    destruct (Hin j i k v Hw) as (Hj & Hi & Hk & ->).
    destruct (Hin j' i' k' v' Hw') as (_ & _ & _ & ->).
    destruct (Hoff j i k Hj Hi Hk) as [off [Eoff _]].
    rewrite Eoff in Eg. symmetry in Eg.
    assert (E := slice_offset_injective _ _ _ _ _ _ _ Eoff Eg).
    injection E as -> -> ->. reflexivity.
  - exists d. rewrite Ed. cbn [bind]. split; [reflexivity|]. split; [exact Ld|].
    split.
    + intros j i k off Hj Hi Hk Eoff.
      apply (Hw (j, i, k) (entry s j i k) off); [|exact Eoff].
      apply in_slice_writes.
      assert (Sb := has_shape3_nth _ _ _ s j Hs Hj).
      exists (nth j s []), (nth i (nth j s []) []).
      split; [apply nth_error_nth'; rewrite (proj1 Hs); exact Hj|].
      split; [apply nth_error_nth'; rewrite (proj1 Sb); exact Hi|].
      apply nth_error_nth'. rewrite (has_shape_nth _ _ _ i Sb Hi). exact Hk.
    + intros off Hnot. apply Hu. intros a v _. apply Hnot.
Qed.

End AssignFacts.

(** ** One combination *)

Lemma Forall2_nth_error_l {A B : Type} (P : A -> B -> Prop) (l1 : list A)
    (l2 : list B) (i : nat) (a : A) :
  Forall2 P l1 l2 -> nth_error l1 i = Some a ->
  exists b, nth_error l2 i = Some b /\ P a b.
Proof.
  intros F. revert i. induction F as [|x y l1 l2 Hxy F IH]; intros i E.
  - destruct i; discriminate.
  - destruct i as [|i]; simpl in *.
    + injection E as <-. exists y. split; [reflexivity | exact Hxy].
    + apply IH. exact E.
Qed.

Section CombinationFacts.

Context {R : Type} `{Scalar R}.

Lemma pick_inputs_ok (inps : list (list R)) (index : list nat) :
  Forall2 lt index (map (@length R) inps) ->
  mapM (fun ij => q <- nth_error inps (fst ij) ;; nth_error q (snd ij))
       (enumerate index)
  = Some (map (fun ij => nth (snd ij) (nth (fst ij) inps []) rzero)
              (enumerate index)).
Proof.
  intros F. apply mapM_total. intros [i j] Hij. cbn [fst snd].
  apply in_enumerate in Hij. destruct Hij as [Hj Hi].
  destruct (Forall2_nth_error_l _ _ _ _ _ F Hj) as [n [Hn Hlt]].
  assert (Hi' : i < length inps).
  { apply nth_error_Some. intros E.
    rewrite nth_error_map, E in Hn. discriminate. }
  rewrite (nth_error_nth' inps [] Hi'). cbn [bind].
  rewrite nth_error_map, (nth_error_nth' inps [] Hi') in Hn.
  injection Hn as <-.
  apply nth_error_nth'. exact Hlt.
Qed.

Lemma select_times_ok (fsmp : FisherModelParametrized R) (n_x n_times : nat)
    (index : list nat) :
  valid_design fsmp n_x n_times ->
  Forall2 lt index (map (@length R) (inputs fsmp)) ->
  exists t,
    (if identical_times fsmp then Some (times fsmp)
     else np_getitem (times fsmp) index) = Some t
    /\ length (data t) = n_times.
Proof.
  intros (_ & _ & _ & _ & _ & Hshape & Hdata) Hidx.
  destruct (identical_times fsmp).
  - exists (times fsmp). split; [reflexivity|].
    rewrite Hdata, Hshape. simpl. lia.
  - unfold np_getitem.
    rewrite Hshape, (Forall2_length Hidx), firstn_length_app, skipn_length_app.
    destruct (ravel_in_range _ _ 0 Hidx) as [off [E Hoff]].
    rewrite E. cbn [bind]. eexists. split; [reflexivity|].
    cbn [data]. rewrite length_firstn, length_skipn, Hdata, Hshape, prod_app.
    simpl in *. nia.
Qed.

(** The loop body once the times of the combination are known: what is left
    is the call of the integrator and the work on its output. *)
Lemma combination_after_times (solve : integrator R)
    (fsmp : FisherModelParametrized R) (n_x n_times : nat)
    (x0 : list R) (t0 : R) (index : list nat) :
  valid_design fsmp n_x n_times ->
  Forall2 lt index (map (@length R) (inputs fsmp)) ->
  exists t t_max,
    (if identical_times fsmp then Some (times fsmp)
     else np_getitem (times fsmp) index) = Some t
    /\ length (data t) = n_times
    /\ forall rel,
         combination solve fsmp (length (parameters fsmp)) n_x rel x0 t0 index
         = (y <- solve
                   (fun t x => ode_rhs t x (ode_fun fsmp) (ode_dfdx fsmp)
                                 (ode_dfdp fsmp) (picked_inputs fsmp index)
                                 (parameters fsmp) (ode_args fsmp) n_x
                                 (length (parameters fsmp)))
                   t0 t_max (x0 ++ repeat rzero (n_x * length (parameters fsmp)))
                   (fst (np_unique (data t))) ;;
            s <- (if forallb (fun v => req v t0) (fst (np_unique (data t)))
                  then c0 <- nth_error (snd (np_unique (data t))) 0 ;;
                       Some (np_zeros3 (length (parameters fsmp)) n_x c0)
                  else r <- np_reshape3 (skipn n_x y) n_x (length (parameters fsmp)) ;;
                       np_repeat_axis2
                         (np_swapaxes01 r (length (parameters fsmp)))
                         (snd (np_unique (data t)))) ;;
            s <- (if rel
                  then s <- scale_by_parameters (parameters fsmp) s ;;
                       divide_by_observables (firstn n_x y)
                                             (snd (np_unique (data t))) s
                  else Some s) ;;
            Some (s, {| frs_ode_x0 := x0;
                        frs_ode_t0 := t0;
                        frs_times := t;
                        frs_inputs := picked_inputs fsmp index;
                        frs_parameters := parameters fsmp;
                        frs_ode_args := ode_args fsmp;
                        frs_ode_solution := y;
                        frs_identical_times := identical_times fsmp |})).
Proof.
  intros Hv Hidx.
  destruct (select_times_ok fsmp n_x n_times index Hv Hidx) as [t [Et Lt]].
  assert (Hpos : 0 < n_times) by (destruct Hv as (_ & _ & Hp & _); exact Hp).
  destruct (data t) as [|v l] eqn:Ed; [simpl in Lt; lia|].
  exists t, (fold_left (fun m v => if rle m v then v else m) l v).
  split; [exact Et|]. split; [rewrite Ed; exact Lt|].
  intros rel. unfold combination.
  rewrite (pick_inputs_ok _ _ Hidx). cbn [bind]. fold (picked_inputs fsmp index).
  rewrite Et. cbn [bind]. rewrite Ed.
  destruct (np_unique (v :: l)) as [t_red counts]. cbn [fst snd np_max bind].
  reflexivity.
Qed.

Lemma raw_block_degenerate (y : list (list R)) (n_p n_x : nat) (t : list R) (t0 : R) :
  req_sym_trans R -> t <> [] ->
  forallb (fun v => req v t0) (fst (np_unique t)) = true ->
  (if forallb (fun v => req v t0) (fst (np_unique t))
   then c0 <- nth_error (snd (np_unique t)) 0 ;; Some (np_zeros3 n_p n_x c0)
   else r <- np_reshape3 (skipn n_x y) n_x n_p ;;
        np_repeat_axis2 (np_swapaxes01 r n_p) (snd (np_unique t)))
  = Some (np_zeros3 n_p n_x (length t)).
Proof.
  intros Hreq Ht Hall. rewrite Hall.
  destruct (unique_all_equal t t0 Hreq Ht Hall) as [v [E _]].
  rewrite E. reflexivity.
Qed.

Lemma has_shape_skipn {A : Type} (a b cols : nat) (m : list (list A)) :
  has_shape (a + b) cols m -> has_shape b cols (skipn a m).
Proof.
  intros [L F]. split; [rewrite length_skipn; lia|].
  rewrite <- (firstn_skipn a m) in F. apply Forall_app in F. exact (proj2 F).
Qed.

Lemma has_shape_firstn {A : Type} (a b cols : nat) (m : list (list A)) :
  has_shape (a + b) cols m -> has_shape a cols (firstn a m).
Proof.
  intros [L F]. split; [rewrite length_firstn; lia|].
  rewrite <- (firstn_skipn a m) in F. apply Forall_app in F. exact (proj1 F).
Qed.

Lemma raw_block_ok (y : list (list R)) (n_p n_x : nat) (t : list R) (t0 : R) :
  req_sym_trans R -> 0 < n_p -> 0 < n_x -> t <> [] ->
  has_shape (n_x + n_x * n_p) (length (fst (np_unique t))) y
  \/ (y = [] /\ forallb (fun v => req v t0) (fst (np_unique t)) = true) ->
  exists s,
    (if forallb (fun v => req v t0) (fst (np_unique t))
     then c0 <- nth_error (snd (np_unique t)) 0 ;; Some (np_zeros3 n_p n_x c0)
     else r <- np_reshape3 (skipn n_x y) n_x n_p ;;
          np_repeat_axis2 (np_swapaxes01 r n_p) (snd (np_unique t)))
    = Some s
    /\ has_shape3 n_p n_x (length t) s
    /\ (forallb (fun v => req v t0) (fst (np_unique t)) = false ->
        forall j i, j < n_p -> i < n_x ->
        nth i (nth j s []) []
        = expand (combine (nth (n_x + (i * n_p + j)) y []) (snd (np_unique t)))).
Proof.
  intros Hreq Hp Hx Ht Hy.
  destruct (forallb (fun v => req v t0) (fst (np_unique t))) eqn:Hall.
  - exists (np_zeros3 n_p n_x (length t)).
    split; [|split; [apply has_shape3_zeros | discriminate]].
    rewrite <- (raw_block_degenerate y n_p n_x t t0 Hreq Ht Hall), Hall.
    reflexivity.
  - destruct Hy as [Hy | [_ Habs]]; [|discriminate].
    destruct (np_unique_lengths t) as [Llen Lsum].
    assert (Hr := has_shape_skipn _ _ _ _ Hy).
    destruct (np_reshape3_ok (skipn n_x y) n_x n_p (length (fst (np_unique t))))
      as [Er Sr]; [exact Hr | nia |].
    rewrite Er. cbn [bind].
    apply np_swapaxes01_shape in Sr. rewrite Llen in Sr.
    destruct (np_repeat_axis2_ok _ _ _ _ Sr) as [Es Ss].
    eexists. split; [rewrite Llen; exact Es|].
    split; [rewrite <- Lsum; exact Ss|].
    intros _ j i Hj Hi.
    rewrite (nth_map_default _ _ j [] []) by (rewrite (proj1 Sr); exact Hj).
    rewrite (nth_map_default _ _ i [] [])
      by (rewrite (proj1 (has_shape3_nth _ _ _ _ j Sr Hj)); exact Hi).
    rewrite <- Llen.
    rewrite (reshape_swap_row (skipn n_x y) n_x n_p _ i j Hr Hi Hj).
    rewrite nth_skipn. reflexivity.
Qed.

Lemma relative_block_ok (ps : list R) (ys : list (list R)) (counts : list nat)
    (n_x : nat) (s : list (list (list R))) :
  has_shape3 (length ps) n_x (list_sum counts) s ->
  length ys <= n_x ->
  Forall (fun o => length o = length counts) ys ->
  exists s',
    (s1 <- scale_by_parameters ps s ;; divide_by_observables ys counts s1)
    = Some s'
    /\ has_shape3 (length ps) n_x (list_sum counts) s'
    /\ forall j i k, j < length ps -> i < n_x -> k < list_sum counts ->
         entry s' j i k
         = if i <? length ys
           then rdiv (rmul (entry s j i k) (nth j ps rzero))
                     (nth k (expand (combine (nth i ys []) counts)) rzero)
           else rmul (entry s j i k) (nth j ps rzero).
Proof.
  intros Hs Lys Fys.
  destruct (scale_by_parameters_ok ps s n_x (list_sum counts) Hs)
    as [s1 [E1 [S1 Ent1]]].
  destruct (divide_by_observables_ok ys counts s1 (length ps) n_x S1 Lys Fys)
    as [s2 [E2 [S2 Ent2]]].
  exists s2. rewrite E1. cbn [bind]. split; [exact E2|]. split; [exact S2|].
  intros j i k Hj Hi Hk. rewrite Ent2 by assumption.
  rewrite Ent1 by assumption. reflexivity.
Qed.

(** The state rows of an integrator output, [res.y[:n_x0]]: at most [n_x]
    rows, one entry per unique time. *)
Lemma observables_shape (y : list (list R)) (n_x rest cols : nat) (P : Prop) :
  has_shape (n_x + rest) cols y \/ (y = [] /\ P) ->
  length (firstn n_x y) <= n_x
  /\ Forall (fun o => length o = cols) (firstn n_x y).
Proof.
  intros [Hy | [-> _]].
  - destruct (has_shape_firstn _ _ _ _ Hy) as [L F]. split; [lia | exact F].
  - rewrite firstn_nil. split; [simpl; lia | constructor].
Qed.

(** Everything about one combination: its times, the integrator output,
    the block written with absolute and with relative sensitivities, and
    how the second is computed from the first. *)
Lemma combination_blocks (solve : integrator R) (fsmp : FisherModelParametrized R)
    (n_x n_times : nat) (x0 : list R) (t0 : R) (index : list nat) :
  req_sym_trans R -> valid_design fsmp n_x n_times -> solver_ok solve ->
  length x0 = n_x ->
  Forall2 lt index (map (@length R) (inputs fsmp)) ->
  exists t y s_abs s_rel,
    (if identical_times fsmp then Some (times fsmp)
     else np_getitem (times fsmp) index) = Some t
    /\ length (data t) = n_times
    /\ (has_shape (n_x + n_x * length (parameters fsmp))
                  (length (fst (np_unique (data t)))) y
        \/ (y = [] /\ forallb (fun v => req v t0) (fst (np_unique (data t))) = true))
    /\ combination solve fsmp (length (parameters fsmp)) n_x false x0 t0 index
       = Some (s_abs, solution_record fsmp x0 t0 index t y)
    /\ combination solve fsmp (length (parameters fsmp)) n_x true x0 t0 index
       = Some (s_rel, solution_record fsmp x0 t0 index t y)
    /\ has_shape3 (length (parameters fsmp)) n_x n_times s_abs
    /\ has_shape3 (length (parameters fsmp)) n_x n_times s_rel
    /\ (forallb (fun v => req v t0) (fst (np_unique (data t))) = true ->
        s_abs = np_zeros3 (length (parameters fsmp)) n_x n_times)
    /\ (forallb (fun v => req v t0) (fst (np_unique (data t))) = false ->
        forall j i, j < length (parameters fsmp) -> i < n_x ->
        nth i (nth j s_abs []) []
        = expand (combine (nth (n_x + (i * length (parameters fsmp) + j)) y [])
                          (snd (np_unique (data t)))))
    /\ forall j i k,
         j < length (parameters fsmp) -> i < n_x -> k < n_times ->
         entry s_rel j i k
         = if i <? length y
           then rdiv (rmul (entry s_abs j i k) (nth j (parameters fsmp) rzero))
                     (nth k (expand (combine (nth i y [])
                                             (snd (np_unique (data t)))))
                          rzero)
           else rmul (entry s_abs j i k) (nth j (parameters fsmp) rzero).
Proof.
  intros Hreq Hv Hsolve Hx0 Hidx.
  destruct (combination_after_times solve fsmp n_x n_times x0 t0 index Hv Hidx)
    as [t [t_max [Et [Lt Eq]]]].
  rewrite !Eq. clear Eq.
  destruct Hv as (Hp & Hx & Hn & _).
  match goal with
  | |- context [solve ?rhs t0 t_max ?y0 ?te] =>
      destruct (Hsolve rhs t0 t_max y0 te) as [y [Ey Sy]]
  end.
  rewrite Ey. cbn [bind].
  rewrite length_app, repeat_length, Hx0 in Sy.
  assert (Hne : data t <> []).
  { intros E. rewrite E in Lt. simpl in Lt. lia. }
  destruct (raw_block_ok y (length (parameters fsmp)) n_x (data t) t0
              Hreq Hp Hx Hne Sy) as [s [Es [Ss Hrows]]].
  destruct (np_unique_lengths (data t)) as [Llen Lsum].
  assert (Hobs := observables_shape y n_x _ _ _ Sy).
  rewrite Llen in Hobs. destruct Hobs as [Lobs Fobs].
  assert (Ss' := Ss). rewrite <- Lsum in Ss'.
  destruct (relative_block_ok (parameters fsmp) (firstn n_x y) _ n_x s
              Ss' Lobs Fobs) as [s' [E' [S' Ent]]].
  exists t, y, s, s'.
  split; [exact Et|]. split; [exact Lt|]. split; [exact Sy|].
  rewrite Es. cbn [bind]. rewrite E'. cbn [bind].
  split; [reflexivity|]. split; [reflexivity|].
  rewrite <- Lt. split; [exact Ss|]. split; [rewrite <- Lsum; exact S'|].
  split.
  { intros Hall.
    rewrite (raw_block_degenerate y _ n_x (data t) t0 Hreq Hne Hall) in Es.
    injection Es as <-. reflexivity. }
  split; [exact Hrows|].
  - intros j i k Hj Hi Hk. rewrite <- Lsum in Hk.
    rewrite (Ent j i k Hj Hi Hk).
    rewrite length_firstn, nth_firstn.
    assert (Hmin : (i <? Nat.min n_x (length y)) = (i <? length y)).
    { destruct (i <? length y) eqn:E1.
      - apply Nat.ltb_lt in E1. apply Nat.ltb_lt. lia.
      - apply Nat.ltb_ge in E1. apply Nat.ltb_ge. lia. }
    rewrite Hmin. apply Nat.ltb_lt in Hi. rewrite Hi. reflexivity.
Qed.

Lemma combination_ok (solve : integrator R) (fsmp : FisherModelParametrized R)
    (n_x n_times : nat) (rel : bool) (x0 : list R) (t0 : R) (index : list nat) :
  req_sym_trans R -> valid_design fsmp n_x n_times -> solver_ok solve ->
  length x0 = n_x ->
  Forall2 lt index (map (@length R) (inputs fsmp)) ->
  exists s r,
    combination solve fsmp (length (parameters fsmp)) n_x rel x0 t0 index
    = Some (s, r)
    /\ has_shape3 (length (parameters fsmp)) n_x n_times s
    /\ frs_ode_x0 r = x0 /\ frs_ode_t0 r = t0
    /\ frs_inputs r = picked_inputs fsmp index.
Proof.
  intros Hreq Hv Hsolve Hx0 Hidx.
  destruct (combination_blocks solve fsmp n_x n_times x0 t0 index
              Hreq Hv Hsolve Hx0 Hidx)
    as (t & y & s_abs & s_rel & _ & _ & _ & Ea & Er & Sa & Sr & _).
  destruct rel.
  - exists s_rel, (solution_record fsmp x0 t0 index t y).
    split; [exact Er|]. split; [exact Sr|]. repeat split.
  - exists s_abs, (solution_record fsmp x0 t0 index t y).
    split; [exact Ea|]. split; [exact Sa|]. repeat split.
Qed.

End CombinationFacts.

(** ** Coverage of the enumeration *)

Section CoverageFacts.

Context {R : Type} `{Scalar R}.

Lemma in_combinations (fsmp : FisherModelParametrized R)
    (i_x0 : nat) (x0 : list R) (i_t0 : nat) (t0 : R) (index : list nat) :
  In (i_x0, x0, (i_t0, t0), index) (combinations fsmp)
  <-> nth_error (ode_x0 fsmp) i_x0 = Some x0
      /\ nth_error (ode_t0 fsmp) i_t0 = Some t0
      /\ Forall2 lt index (map (@length R) (inputs fsmp)).
Proof.
  unfold combinations.
  rewrite in_itertools_product3, !in_enumerate_iff, in_index_product.
  reflexivity.
Qed.

Lemma NoDup_combinations (fsmp : FisherModelParametrized R) :
  NoDup (combinations fsmp).
Proof.
  apply NoDup_itertools_product3;
    [apply NoDup_enumerate | apply NoDup_enumerate | apply NoDup_index_product].
Qed.

Lemma length_combinations (fsmp : FisherModelParametrized R) :
  length (combinations fsmp)
  = length (ode_x0 fsmp) * length (ode_t0 fsmp)
    * prod (map (@length R) (inputs fsmp)).
Proof.
  unfold combinations.
  rewrite length_itertools_product3, !length_enumerate, length_index_product.
  reflexivity.
Qed.

Lemma slice_address_injective (fsmp : FisherModelParametrized R)
    (c c' : (nat * list R) * (nat * R) * list nat) :
  In c (combinations fsmp) -> In c' (combinations fsmp) ->
  slice_address c = slice_address c' -> c = c'.
Proof.
  destruct c as [[[i_x0 x0] [i_t0 t0]] index].
  destruct c' as [[[i_x0' x0'] [i_t0' t0']] index'].
  intros Hc Hc' E. unfold slice_address in E. cbn [fst snd] in E.
  injection E as -> -> ->.
  apply in_combinations in Hc, Hc'.
  destruct Hc as [Hx [Ht _]]. destruct Hc' as [Hx' [Ht' _]].
  congruence.
Qed.

Lemma written_by_one_combination (fsmp : FisherModelParametrized R)
    (dims : list nat) (c c' : (nat * list R) * (nat * R) * list nat) (off : nat) :
  In c (combinations fsmp) -> In c' (combinations fsmp) ->
  written_by dims c off -> written_by dims c' off -> c = c'.
Proof.
  intros Hc Hc' [[[j i] k] E] [[[j' i'] k'] E'].
  unfold slice_offset in E, E'. cbn [fst snd] in E, E'.
  destruct (ravel_injective _ _ _ _ _ _ E E') as [_ Eidx].
  apply (slice_address_injective fsmp c c' Hc Hc').
  cbn [app] in Eidx. injection Eidx as _ Et Ex _ Etail.
  apply app_inj_tail in Etail. destruct Etail as [Eindex _].
  unfold slice_address. congruence.
Qed.

End CoverageFacts.

(** ** The assembler *)

Section AssemblerFacts.

Context {R : Type} `{Scalar R}.

Lemma prod_column_shape (fsmp : FisherModelParametrized R) (n_x n_times : nat) :
  prod (column_shape fsmp n_x n_times) = total_samples fsmp n_x n_times.
Proof.
  unfold column_shape, total_samples. cbn [app prod fold_right].
  fold (prod (map (@length R) (inputs fsmp) ++ [n_times])).
  rewrite prod_app. simpl. ring.
Qed.

Lemma tensor_shape_cons (fsmp : FisherModelParametrized R) (n_x n_times : nat) :
  tensor_shape fsmp n_x n_times
  = length (parameters fsmp) :: column_shape fsmp n_x n_times.
Proof. reflexivity. Qed.

(** The offset of an index tuple from a starting value of the accumulator. *)
Lemma ravel_acc (dims idx : list nat) (acc : nat) :
  ravel dims idx acc
  = option_map (fun col => acc * prod dims + col) (ravel dims idx 0).
Proof.
  revert idx acc. induction dims as [|d dims IH]; intros [|i idx] acc;
    simpl; try reflexivity.
  - f_equal. lia.
  - destruct (i <? d); [|reflexivity].
    rewrite (IH idx (acc * d + i)), (IH idx i).
    destruct (ravel dims idx 0) as [c|]; simpl; [|reflexivity].
    f_equal. ring.
Qed.

(** Position [(j, i_t0, i_x0, i, index..., k)] of the tensor is entry
    [(j, col)] of the flattened matrix, [col] the row-major offset of the
    remaining indices. *)
Lemma slice_offset_column (fsmp : FisherModelParametrized R) (n_x n_times : nat)
    (i_t0 i_x0 : nat) (index : list nat) (j i k col : nat) :
  j < length (parameters fsmp) ->
  ravel (column_shape fsmp n_x n_times) ([i_t0; i_x0; i] ++ index ++ [k]) 0
  = Some col ->
  slice_offset (tensor_shape fsmp n_x n_times) i_t0 i_x0 index (j, i, k)
  = Some (j * total_samples fsmp n_x n_times + col).
Proof.
  intros Hj E. unfold slice_offset. cbn [fst snd].
  rewrite tensor_shape_cons. cbn [app ravel].
  apply Nat.ltb_lt in Hj. rewrite Hj. cbn [app] in E.
  rewrite ravel_acc, E. cbn [option_map]. rewrite prod_column_shape.
  f_equal.
Qed.

(** On a valid design, with an integrator that returns, the assembler
    returns: the flattened matrix with its shape, the identity, the
    records, one per combination and in the order of the enumeration; and
    the matrix holds the block of every combination at the positions of
    its slice. *)
Lemma get_S_matrix_assembles (solve : integrator R)
    (fsmp : FisherModelParametrized R) (n_x n_times : nat) (covar rel : bool) :
  req_sym_trans R -> valid_design fsmp n_x n_times -> solver_ok solve ->
  exists S_ sols,
    get_S_matrix solve fsmp covar rel
    = Some (S_, np_eye (total_samples fsmp n_x n_times), sols)
    /\ shape S_ = [length (parameters fsmp); total_samples fsmp n_x n_times]
    /\ length (data S_)
       = length (parameters fsmp) * total_samples fsmp n_x n_times
    /\ Forall2 (record_of fsmp) (combinations fsmp) sols
    /\ forall i_x0 x0 i_t0 t0 index s r j i k off,
         In (i_x0, x0, (i_t0, t0), index) (combinations fsmp) ->
         combination solve fsmp (length (parameters fsmp)) n_x rel x0 t0 index
         = Some (s, r) ->
         j < length (parameters fsmp) -> i < n_x -> k < n_times ->
         slice_offset (tensor_shape fsmp n_x n_times) i_t0 i_x0 index (j, i, k)
         = Some off ->
         nth off (data S_) rzero = entry s j i k.
Proof.
  intros Hreq Hv Hsolve.
  assert (Hv' := Hv).
  destruct Hv' as (Hp & Hx & Hn & Hne & Fx0 & Hshape & Hdata).
  unfold get_S_matrix.
  destruct (ode_x0 fsmp) as [|x00 rest0] eqn:Ex0; [congruence|].
  cbn [nth_error bind].
  assert (Lx00 : length x00 = n_x) by (inversion Fx0; assumption).
  rewrite Lx00. rewrite <- Ex0 in *. clear Hne.
  rewrite (np_shape_last_app (times fsmp) _ n_times Hshape). cbn [bind].
  fold (tensor_shape fsmp n_x n_times).
  set (dims := tensor_shape fsmp n_x n_times).
  match goal with
  | |- context [foldM ?f ?l ?s0] =>
      destruct (foldM_invariant f
        (fun pre st =>
           shape (fst st) = dims
           /\ length (data (fst st)) = prod dims
           /\ Forall2 (record_of fsmp) pre (snd st)
           /\ forall i_x0 x0 i_t0 t0 index s r j i k off,
                In (i_x0, x0, (i_t0, t0), index) pre ->
                combination solve fsmp (length (parameters fsmp)) n_x rel
                            x0 t0 index = Some (s, r) ->
                j < length (parameters fsmp) -> i < n_x -> k < n_times ->
                slice_offset dims i_t0 i_x0 index (j, i, k) = Some off ->
                nth off (data (fst st)) rzero = entry s j i k) l s0)
        as [[S1 sols] [E1 [Sh1 [Ld1 [Frec Hcont]]]]]
  end.
  - cbn [fst snd np_zeros shape data]. split; [reflexivity|].
    split; [apply repeat_length|]. split; [constructor|].
    intros ? ? ? ? ? ? ? ? ? ? ? [].
  - intros pre [[[i_x0 x0] [i_t0 t0]] index] post [S1 sols1] El.
    cbn [fst snd]. intros [Sh1 [Ld1 [F1 Hc1]]].
    assert (Hin : In (i_x0, x0, (i_t0, t0), index) (combinations fsmp)).
    { rewrite El. apply in_elt. }
    assert (Hnew : ~ In (i_x0, x0, (i_t0, t0), index) pre).
    { assert (Hnd := NoDup_combinations fsmp). rewrite El in Hnd.
      apply NoDup_remove_2 in Hnd. intros Hpre. apply Hnd.
      apply in_or_app. left. exact Hpre. }
    assert (Hin' := Hin).
    apply in_itertools_product3 in Hin'. destruct Hin' as [Hx0 [Ht0 Hidx]].
    apply in_enumerate in Hx0. destruct Hx0 as [Hx0 Hix0].
    apply in_enumerate in Ht0. destruct Ht0 as [_ Hit0].
    apply in_index_product in Hidx.
    assert (Lx0 : length x0 = n_x).
    { rewrite Forall_forall in Fx0. apply Fx0. eapply nth_error_In. exact Hx0. }
    destruct (combination_ok solve fsmp n_x n_times rel x0 t0 index
                Hreq Hv Hsolve Lx0 Hidx) as [s [r [Ec [Ss [R1 [R2 R3]]]]]].
    rewrite Ec. cbn [bind].
    destruct (assign_slice_spec S1 _ _ _ _ _ _ i_t0 i_x0 index s rzero Sh1
                ltac:(rewrite Sh1; exact Ld1) Hit0 Hix0 Hidx Ss)
      as [d [Ea [Lda [Hw Hu]]]].
    rewrite Ea. cbn [bind]. eexists. split; [reflexivity|].
    cbn [fst snd shape data]. split; [exact Sh1|]. split; [congruence|].
    split.
    { apply Forall2_app; [exact F1|]. constructor; [|constructor].
      unfold record_of. cbn [fst snd]. auto. }
    intros i_x0' x0' i_t0' t0' index' s' r' j i k off Hc Ec' Hj Hi Hk Eoff.
    apply in_app_or in Hc. destruct Hc as [Hc | [Hc | []]].
    + rewrite Hu; [exact (Hc1 _ _ _ _ _ _ _ _ _ _ _ Hc Ec' Hj Hi Hk Eoff)|].
      intros [[j2 i2] k2] Eoff2. rewrite Sh1 in Eoff2. apply Hnew.
      assert (Hc' : In (i_x0', x0', (i_t0', t0'), index') (combinations fsmp)).
      { rewrite El. apply in_or_app. left. exact Hc. }
      rewrite (written_by_one_combination fsmp dims
                 (i_x0, x0, (i_t0, t0), index)
                 (i_x0', x0', (i_t0', t0'), index') off Hin Hc').
      * exact Hc.
      * exists (j2, i2, k2). exact Eoff2.
      * exists (j, i, k). exact Eoff.
    + injection Hc as <- <- <- <- <-.
      rewrite Ec in Ec'. injection Ec' as <- <-.
      apply (Hw j i k off Hj Hi Hk). rewrite Sh1. exact Eoff.
  - rewrite E1. cbn [bind fst snd] in *.
    unfold dims in Ld1. rewrite tensor_shape_cons in Ld1.
    cbn [prod fold_right] in Ld1.
    fold (prod (column_shape fsmp n_x n_times)) in Ld1.
    rewrite prod_column_shape in Ld1.
    unfold np_reshape_rows.
    destruct (length (parameters fsmp) =? 0) eqn:E0; [apply Nat.eqb_eq in E0; lia|].
    rewrite Ld1, (Nat.mul_comm (length (parameters fsmp))),
      Nat.Div0.mod_mul, Nat.eqb_refl, Nat.div_mul by lia.
    cbn [bind shape nth_error].
    eexists. eexists. split; [reflexivity|].
    cbn [shape data]. split; [reflexivity|]. split; [rewrite Ld1; lia|].
    split; [exact Frec | exact Hcont].
Qed.

End AssemblerFacts.


(** ** The examples satisfy the assumptions *)

Lemma req_sym_trans_Z : req_sym_trans Z.
Proof.
  split.
  - intros a b E. apply Z.eqb_eq in E. apply Z.eqb_eq. lia.
  - intros a b c E1 E2. apply Z.eqb_eq in E1, E2. apply Z.eqb_eq. lia.
Defined.

Lemma constant_solver_ok {R : Type} `{Scalar R} : solver_ok (@constant_solver R).
Proof.
  intros rhs t0 tf y0 t_eval. eexists. split; [reflexivity|]. left. split.
  - apply length_map.
  - apply Forall_map. apply Forall_forall. intros v _. apply length_map.
Defined.

Lemma constant_solver_returns {R : Type} : solver_returns (@constant_solver R).
Proof. intros rhs t0 tf y0 t_eval. eexists. reflexivity. Defined.

Lemma small_design_valid : valid_design small_design 1 3.
Proof.
  unfold valid_design. simpl.
  repeat split; try lia; try discriminate. repeat constructor.
Defined.

Lemma initial_time_design_valid : valid_design initial_time_design 1 2.
Proof.
  unfold valid_design. simpl.
  repeat split; try lia; try discriminate. repeat constructor.
Defined.

(** ** Row-major arrays *)

Lemma nth_flat_map_rect {A B : Type} (f : nat -> B -> A) (l : list B) (m n i j : nat)
    (d : A) (b : B) :
  length l = n -> i < m -> j < n ->
  nth (i * n + j) (flat_map (fun i => map (f i) l) (seq 0 m)) d
  = f i (nth j l b).
Proof.
  intros Hl Hi Hj. rewrite flat_map_concat_map.
  rewrite (nth_concat_rect _ n i j d).
  - rewrite (nth_map_default _ _ i [] 0) by (rewrite length_seq; exact Hi).
    rewrite seq_nth by exact Hi. cbn [Nat.add].
    apply nth_map_default. rewrite Hl. exact Hj.
  - apply Forall_map. apply Forall_forall. intros x _. rewrite length_map. exact Hl.
  - rewrite length_map, length_seq. exact Hi.
  - exact Hj.
Qed.

Lemma length_flat_map_rect {A B : Type} (f : nat -> B -> A) (l : list B) (m n : nat) :
  length l = n ->
  length (flat_map (fun i => map (f i) l) (seq 0 m)) = m * n.
Proof.
  intros Hl. rewrite flat_map_concat_map, (length_concat_rect _ n).
  - rewrite length_map, length_seq. reflexivity.
  - apply Forall_map. apply Forall_forall. intros x _. rewrite length_map. exact Hl.
Qed.

Lemma nth_flat_map_seq {A : Type} (f : nat -> nat -> A) (m n i j : nat) (d : A) :
  i < m -> j < n ->
  nth (i * n + j) (flat_map (fun i => map (f i) (seq 0 n)) (seq 0 m)) d = f i j.
Proof.
  intros Hi Hj.
  rewrite (nth_flat_map_rect f (seq 0 n) m n i j d 0 (length_seq _ _) Hi Hj).
  rewrite seq_nth by exact Hj. reflexivity.
Qed.

Lemma flat_map_ext_in {A B : Type} (f g : A -> list B) (l : list A) :
  (forall a, In a l -> f a = g a) -> flat_map f l = flat_map g l.
Proof.
  intros E. rewrite !flat_map_concat_map. f_equal. apply map_ext_in. exact E.
Qed.

(** Two row-major arrays of the same size with the same entries. *)
Lemma rect_ext {A : Type} (l l' : list A) (m n : nat) (d : A) :
  length l = m * n -> length l' = m * n ->
  (forall i j, i < m -> j < n -> nth (i * n + j) l d = nth (i * n + j) l' d) ->
  l = l'.
Proof.
  intros L L' E. apply (nth_ext _ _ d d); [congruence|].
  intros k Hk. rewrite L in Hk.
  assert (Hn : 0 < n) by nia.
  rewrite (Nat.div_mod_eq k n), (Nat.mul_comm n).
  apply E.
  - apply Nat.Div0.div_lt_upper_bound. lia.
  - apply Nat.mod_upper_bound. lia.
Qed.

Section EyeFacts.

Context {R : Type} `{Scalar R}.

(** The entries of [np.eye(n)]: one on the diagonal, zero elsewhere. *)
Lemma nth_np_eye (n i j : nat) :
  i < n -> j < n ->
  nth (i * n + j) (data (@np_eye R _ n)) rzero = if i =? j then rone else rzero.
Proof.
  intros Hi Hj. unfold np_eye. cbn [data].
  apply (nth_flat_map_seq (fun i j => if i =? j then rone else rzero)); assumption.
Qed.

End EyeFacts.

(** ** The claims about the assembler *)

Section AssemblerClaims.

Context {R : Type} `{Scalar R}.

(** C4.  On every valid design (and an integrator that returns output of
    the shape [solve_ivp] gives), the assembler returns, and the flattened
    [S] has shape [(n_p, n_t0 * N_x0 * n_x * prod of the input lengths *
    n_times)], with as many entries. *)
Theorem flattened_S_shape (solve : integrator R)
    (fsmp : FisherModelParametrized R) (n_x n_times : nat) (covar rel : bool) :
  req_sym_trans R -> valid_design fsmp n_x n_times -> solver_ok solve ->
  exists S_ C sols,
    get_S_matrix solve fsmp covar rel = Some (S_, C, sols)
    /\ shape S_
       = [length (parameters fsmp);
          length (ode_t0 fsmp) * length (ode_x0 fsmp) * n_x
          * prod (map (@length R) (inputs fsmp)) * n_times]
    /\ length (data S_)
       = length (parameters fsmp)
         * (length (ode_t0 fsmp) * length (ode_x0 fsmp) * n_x
            * prod (map (@length R) (inputs fsmp)) * n_times).
Proof.
  intros Hreq Hv Hsolve.
  destruct (get_S_matrix_assembles solve fsmp n_x n_times covar rel Hreq Hv Hsolve)
    as [S_ [sols [E [Sh [Ld _]]]]].
  exists S_, (np_eye (total_samples fsmp n_x n_times)), sols.
  split; [exact E|]. split; [exact Sh | exact Ld].
Qed.

(** C9.  The loop visits exactly the index tuples (initial-state index,
    initial-time index, one index per input): a tuple is visited if and
    only if it is in range; no slice address [(i_t0, i_x0, index)] is
    visited twice and no position of the tensor is written by two
    combinations; the assembler returns one record per combination, in the
    order of the enumeration, [N_x0 * n_t0 * prod of the input lengths] in
    all; and the matrix returned holds, for every combination, the block
    of that combination: entry [(j, i, k)] of the block is entry [(j, col)]
    of the flattened matrix, [col] the row-major offset of
    [(i_t0, i_x0, i, index..., k)]. *)
Theorem every_combination_once (solve : integrator R)
    (fsmp : FisherModelParametrized R) (n_x n_times : nat) (covar rel : bool) :
  req_sym_trans R -> valid_design fsmp n_x n_times -> solver_ok solve ->
  (forall i_x0 x0 i_t0 t0 index,
     In (i_x0, x0, (i_t0, t0), index) (combinations fsmp)
     <-> nth_error (ode_x0 fsmp) i_x0 = Some x0
         /\ nth_error (ode_t0 fsmp) i_t0 = Some t0
         /\ Forall2 lt index (map (@length R) (inputs fsmp)))
  /\ NoDup (map slice_address (combinations fsmp))
  /\ (forall c c' off,
        In c (combinations fsmp) -> In c' (combinations fsmp) ->
        written_by (tensor_shape fsmp n_x n_times) c off ->
        written_by (tensor_shape fsmp n_x n_times) c' off -> c = c')
  /\ exists S_ C sols,
       get_S_matrix solve fsmp covar rel = Some (S_, C, sols)
       /\ length sols
          = length (ode_x0 fsmp) * length (ode_t0 fsmp)
            * prod (map (@length R) (inputs fsmp))
       /\ Forall2 (record_of fsmp) (combinations fsmp) sols
       /\ forall i_x0 x0 i_t0 t0 index s r j i k col,
            In (i_x0, x0, (i_t0, t0), index) (combinations fsmp) ->
            combination solve fsmp (length (parameters fsmp)) n_x rel x0 t0 index
            = Some (s, r) ->
            j < length (parameters fsmp) -> i < n_x -> k < n_times ->
            ravel (column_shape fsmp n_x n_times)
                  ([i_t0; i_x0; i] ++ index ++ [k]) 0 = Some col ->
            nth (j * total_samples fsmp n_x n_times + col) (data S_) rzero
            = entry s j i k.
Proof.
  intros Hreq Hv Hsolve. split; [|split; [|split]].
  - intros. apply in_combinations.
  - apply NoDup_map_NoDup_ForallPairs; [|apply NoDup_combinations].
    intros c c' Hc Hc'. apply (slice_address_injective fsmp); assumption.
  - intros c c' off. apply (written_by_one_combination fsmp).
  - destruct (get_S_matrix_assembles solve fsmp n_x n_times covar rel
                Hreq Hv Hsolve) as [S_ [sols [E [_ [_ [Frec Hcont]]]]]].
    exists S_, (np_eye (total_samples fsmp n_x n_times)), sols.
    split; [exact E|]. split; [|split; [exact Frec|]].
    + rewrite <- (Forall2_length Frec). apply length_combinations.
    + intros i_x0 x0 i_t0 t0 index s r j i k col Hc Ec Hj Hi Hk Ecol.
      apply (Hcont i_x0 x0 i_t0 t0 index s r j i k _ Hc Ec Hj Hi Hk).
      apply slice_offset_column; assumption.
Qed.

(** Whenever the assembler returns, its covariance is the identity of size
    [S.shape[1]]. *)
Lemma get_S_matrix_returns_identity (solve : integrator R)
    (fsmp : FisherModelParametrized R) (covar rel : bool)
    (S_ C : ndarray R) (sols : list (FisherResultSingle R)) :
  get_S_matrix solve fsmp covar rel = Some (S_, C, sols) ->
  exists cols, nth_error (shape S_) 1 = Some cols /\ C = np_eye cols.
Proof.
  unfold get_S_matrix. intros E.
  destruct (nth_error (ode_x0 fsmp) 0) as [x00|]; [|discriminate E].
  cbn [bind] in E.
  destruct (np_shape_last (times fsmp)) as [n_times|]; [|discriminate E].
  cbn [bind] in E.
  match type of E with
  | bind ?m _ = _ => destruct m as [[S1 sols1]|]; [|discriminate E]
  end.
  cbn [bind] in E.
  destruct (np_reshape_rows S1 (length (parameters fsmp))) as [S2|];
    [|discriminate E].
  cbn [bind] in E.
  destruct (nth_error (shape S2) 1) as [cols|] eqn:Ecols; [|discriminate E].
  cbn [bind] in E. injection E as <- <- <-.
  exists cols. split; [exact Ecols | reflexivity].
Qed.

(** C6.  The assembler returns the identity of size [total_samples], the
    number of columns of the flattened [S], whatever the covariance flag
    (and whenever it returns at all, the identity of size [S.shape[1]]);
    with the flag off the result of [calculate_fisher_criterion] carries
    that identity; and with the flag off the aggregator replaces whatever
    covariance an assembler hands it by the identity of size [S.shape[1]].
    The identity of size [n], [np.eye(n)], is the [n] by [n] array with
    one at the positions [(i, i)] and zero at every other position. *)
Theorem covariance_is_identity (solve : integrator R)
    (fsmp : FisherModelParametrized R) (n_x n_times : nat) (rel : bool) :
  req_sym_trans R -> valid_design fsmp n_x n_times -> solver_ok solve ->
  (forall covar,
     exists S_ sols,
       get_S_matrix solve fsmp covar rel
       = Some (S_, np_eye (total_samples fsmp n_x n_times), sols)
       /\ nth_error (shape S_) 1 = Some (total_samples fsmp n_x n_times))
  /\ (forall solve' fsmp' covar rel' S_ C sols,
        get_S_matrix solve' fsmp' covar rel' = Some (S_, C, sols) ->
        exists cols, nth_error (shape S_) 1 = Some cols /\ C = np_eye cols)
  /\ (forall (V : Type)
             (criterion : FisherModelParametrized R -> ndarray R -> ndarray R
                          -> option V),
        (forall S_ C, criterion fsmp S_ C <> None) ->
        exists res,
          calculate_fisher_criterion solve fsmp criterion false rel = Some res
          /\ fr_C res = np_eye (total_samples fsmp n_x n_times))
  /\ (forall (V : Type) assembler
             (criterion : FisherModelParametrized R -> ndarray R -> ndarray R
                          -> option V)
             S_ C0 sols res,
        assembler fsmp false rel = Some (S_, C0, sols) ->
        calculate_fisher_criterion_with assembler fsmp criterion false rel
        = Some res ->
        exists cols, nth_error (shape S_) 1 = Some cols
                     /\ fr_S res = S_ /\ fr_C res = np_eye cols)
  /\ (forall n,
        shape (np_eye n : ndarray R) = [n; n]
        /\ length (data (np_eye n : ndarray R)) = n * n
        /\ forall i j, i < n -> j < n ->
             nth (i * n + j) (data (np_eye n : ndarray R)) rzero
             = if i =? j then rone else rzero).
Proof.
  intros Hreq Hv Hsolve. split; [|split; [|split; [|split]]].
  5:{ intros n. split; [reflexivity|]. split.
      - unfold np_eye. cbn [data]. apply length_flat_map_rect, length_seq.
      - intros i j Hi Hj. apply nth_np_eye; assumption. }
  - intros covar.
    destruct (get_S_matrix_assembles solve fsmp n_x n_times covar rel
                Hreq Hv Hsolve) as [S_ [sols [E [Sh _]]]].
    exists S_, sols. split; [exact E|]. rewrite Sh. reflexivity.
  - intros solve' fsmp' covar rel' S_ C sols.
    apply get_S_matrix_returns_identity.
  - intros V criterion Hcrit.
    destruct (get_S_matrix_assembles solve fsmp n_x n_times false rel
                Hreq Hv Hsolve) as [S_ [sols [E [Sh _]]]].
    unfold calculate_fisher_criterion, calculate_fisher_criterion_with.
    rewrite E. cbn [bind negb]. rewrite Sh. cbn [nth_error bind].
    destruct (criterion fsmp S_ (np_eye (total_samples fsmp n_x n_times)))
      as [v|] eqn:Ev; [|exfalso; exact (Hcrit _ _ Ev)].
    cbn [bind]. eexists. split; reflexivity.
  - intros V assembler criterion S_ C0 sols res Ea Ec.
    unfold calculate_fisher_criterion_with in Ec.
    rewrite Ea in Ec. cbn [bind negb] in Ec.
    destruct (nth_error (shape S_) 1) as [cols|]; [|discriminate].
    cbn [bind] in Ec.
    destruct (criterion fsmp S_ (np_eye cols)) as [v|]; [|discriminate].
    cbn [bind] in Ec. injection Ec as <-.
    exists cols. repeat split.
Qed.

(** C5.  For every combination, the block written with relative
    sensitivities is the block written with absolute ones with every entry
    [(j, i, k)] multiplied by parameter [j] and then divided by the value of
    state [i] at time [k], the state row of the integrator output repeated
    by the counts: [s_rel = (s_abs * p_j) / y_i].  Unless all times equal
    the initial time, the absolute entry is the sensitivity of state [i] to
    parameter [j] in the integrator output (row [n_x + i * n_p + j], the
    layout of [ode_rhs]), repeated by the counts, so that
    [s_rel = (dy_i/dp_j) * p_j / y_i].  The division is applied to every
    entry whatever the divisor: there is no test for zero, the entry is the
    quotient [rdiv] gives (on doubles, [inf] or [nan] for a zero divisor).
    (Only a state without a row in the integrator output, which needs the
    empty output at the initial time, is left undivided.) *)
Theorem relative_sensitivity_entries (solve : integrator R)
    (fsmp : FisherModelParametrized R) (n_x n_times : nat)
    (x0 : list R) (t0 : R) (index : list nat) :
  req_sym_trans R -> valid_design fsmp n_x n_times -> solver_ok solve ->
  length x0 = n_x ->
  Forall2 lt index (map (@length R) (inputs fsmp)) ->
  exists s_abs s_rel r,
    combination solve fsmp (length (parameters fsmp)) n_x false x0 t0 index
    = Some (s_abs, r)
    /\ combination solve fsmp (length (parameters fsmp)) n_x true x0 t0 index
       = Some (s_rel, r)
    /\ has_shape3 (length (parameters fsmp)) n_x n_times s_abs
    /\ has_shape3 (length (parameters fsmp)) n_x n_times s_rel
    /\ (forall j i k,
          j < length (parameters fsmp) -> i < n_x -> k < n_times ->
          entry s_rel j i k
          = if i <? length (frs_ode_solution r)
            then rdiv (rmul (entry s_abs j i k) (nth j (parameters fsmp) rzero))
                      (nth k (expand (combine (nth i (frs_ode_solution r) [])
                                              (snd (np_unique (data (frs_times r))))))
                           rzero)
            else rmul (entry s_abs j i k) (nth j (parameters fsmp) rzero))
    /\ (forallb (fun v => req v t0) (fst (np_unique (data (frs_times r)))) = false ->
        forall j i k,
          j < length (parameters fsmp) -> i < n_x -> k < n_times ->
          (i <? length (frs_ode_solution r)) = true
          /\ entry s_abs j i k
             = nth k (expand (combine
                                (nth (n_x + (i * length (parameters fsmp) + j))
                                     (frs_ode_solution r) [])
                                (snd (np_unique (data (frs_times r))))))
                   rzero).
Proof.
  intros Hreq Hv Hsolve Hx0 Hidx.
  destruct (combination_blocks solve fsmp n_x n_times x0 t0 index
              Hreq Hv Hsolve Hx0 Hidx)
    as (t & y & s_abs & s_rel & _ & _ & Sy & Ea & Er & Sa & Sr & _ & Hrows & Ent).
  exists s_abs, s_rel, (solution_record fsmp x0 t0 index t y).
  split; [exact Ea|]. split; [exact Er|]. split; [exact Sa|]. split; [exact Sr|].
  split; [exact Ent|].
  cbn [solution_record frs_ode_solution frs_times].
  intros Hnd j i k Hj Hi Hk. split.
  - destruct Sy as [[Ly _] | [_ Habs]]; [|congruence].
    apply Nat.ltb_lt. lia.
  - unfold entry. rewrite (Hrows Hnd j i Hj Hi). reflexivity.
Qed.

(** C3.  Take a combination whose unique times all equal the initial
    time.  With absolute sensitivities the block written is the zero block
    of shape [(n_p, n_x, n_times)] whatever the integrator returned: its
    output is not used.  With relative sensitivities the time span handed
    to the integrator ends at the initial time, and an integrator that,
    as [solve_ivp] does, then returns the empty output leaves the
    normalisation nothing to divide by: the block has the same shape, the
    record holds the empty output and entry [(j, i, k)] is [0 * p_j], a
    zero for every parameter [p_j] whose product with zero is zero.  In
    both modes the combination is processed without an error. *)
Theorem initial_time_only_block (fsmp : FisherModelParametrized R)
    (n_x n_times : nat) (x0 : list R) (t0 : R) (index : list nat)
    (t : ndarray R) :
  req_sym_trans R -> valid_design fsmp n_x n_times ->
  length x0 = n_x ->
  Forall2 lt index (map (@length R) (inputs fsmp)) ->
  (if identical_times fsmp then Some (times fsmp)
   else np_getitem (times fsmp) index) = Some t ->
  forallb (fun v => req v t0) (fst (np_unique (data t))) = true ->
  (forall solve, solver_returns solve ->
     exists r,
       combination solve fsmp (length (parameters fsmp)) n_x false x0 t0 index
       = Some (np_zeros3 (length (parameters fsmp)) n_x n_times, r))
  /\ (forall solve, solver_empty_at_t0 solve ->
        exists s r,
          combination solve fsmp (length (parameters fsmp)) n_x true x0 t0 index
          = Some (s, r)
          /\ frs_ode_solution r = []
          /\ has_shape3 (length (parameters fsmp)) n_x n_times s
          /\ (forall j i k,
                j < length (parameters fsmp) -> i < n_x -> k < n_times ->
                entry s j i k = rmul rzero (nth j (parameters fsmp) rzero))
          /\ ((forall p, In p (parameters fsmp) -> req (rmul rzero p) rzero = true) ->
              forall j i k,
                j < length (parameters fsmp) -> i < n_x -> k < n_times ->
                req (entry s j i k) rzero = true)).
Proof.
  intros Hreq Hv Hx0 Hidx Et Hall.
  assert (Hne : data t <> [] /\ length (data t) = n_times).
  { destruct (select_times_ok fsmp n_x n_times index Hv Hidx) as [t' [Et' Lt]].
    rewrite Et in Et'. injection Et' as <-.
    destruct Hv as (_ & _ & Hn & _).
    split; [|exact Lt]. intros E. rewrite E in Lt. simpl in Lt. lia. }
  destruct Hne as [Hne Lt].
  split.
  - intros solve Hsolve.
    destruct (combination_after_times solve fsmp n_x n_times x0 t0 index Hv Hidx)
      as [t' [t_max [Et' [_ Eq]]]].
    rewrite Et in Et'. injection Et' as <-.
    rewrite Eq. clear Eq.
    match goal with
    | |- context [solve ?rhs t0 t_max ?y0 ?te] =>
        destruct (Hsolve rhs t0 t_max y0 te) as [y Ey]
    end.
    rewrite Ey. cbn [bind].
    rewrite (raw_block_degenerate y _ n_x (data t) t0 Hreq Hne Hall), Lt.
    cbn [bind]. eexists. reflexivity.
  - intros solve Hsolve.
    destruct (np_max (data t)) as [t_max|] eqn:Emax;
      [|destruct (data t); [congruence | discriminate Emax]].
    assert (Hmax : req t_max t0 = true).
    { apply (times_at_t0 (data t) t0 Hreq Hall). apply np_max_in. exact Emax. }
    destruct (unique_all_equal (data t) t0 Hreq Hne Hall) as [v [Eu Hv0]].
    assert (Ec : list_sum [length (data t)] = n_times) by (simpl; lia).
    destruct (relative_block_ok (parameters fsmp) [] [length (data t)] n_x
                (np_zeros3 (length (parameters fsmp)) n_x n_times))
      as [s [Es [Ss Ent]]].
    { rewrite Ec. apply has_shape3_zeros. }
    { simpl. lia. }
    { constructor. }
    rewrite Ec in Ss, Ent.
    exists s. eexists.
    split.
    { unfold combination.
      rewrite (pick_inputs_ok _ _ Hidx). cbn [bind].
      rewrite Et. cbn [bind]. rewrite Eu, Emax. cbn [bind].
      rewrite (Hsolve _ t0 t_max _ [v] Hmax)
        by (cbn [forallb]; rewrite Hv0; reflexivity).
      cbn [bind forallb nth_error]. rewrite Hv0. cbn [andb bind].
      rewrite firstn_nil. rewrite <- Lt in Es.
      rewrite Es. cbn [bind]. reflexivity. }
    split; [reflexivity|]. split; [exact Ss|].
    assert (Hent : forall j i k,
              j < length (parameters fsmp) -> i < n_x -> k < n_times ->
              entry s j i k = rmul rzero (nth j (parameters fsmp) rzero)).
    { intros j i k Hj Hi Hk. rewrite (Ent j i k Hj Hi Hk).
      cbn [length]. rewrite entry_zeros. reflexivity. }
    split; [exact Hent|].
    intros Hp j i k Hj Hi Hk. rewrite (Hent j i k Hj Hi Hk).
    apply Hp. apply nth_In. exact Hj.
Qed.

End AssemblerClaims.

(** ** The claims at concrete inputs *)

Lemma demo_dfdx_shape (t : Z) (x a b c : list Z) : has_shape 2 2 (demo_dfdx t x a b c).
Proof. split; [reflexivity | repeat constructor]. Defined.

Lemma demo_dfdp_shape (t : Z) (x a b c : list Z) : has_shape 2 2 (demo_dfdp t x a b c).
Proof. split; [reflexivity | repeat constructor]. Defined.

Lemma ode_rhs_augmented_system_witness :
  exists ds,
    ode_rhs 0%Z [1; 2; 3; 4; 5; 6]%Z demo_f demo_dfdx demo_dfdp [] [] [] 2 2
    = Some ([1; 2]%Z ++ ds)
    /\ length ds = 4
    /\ nth (1 * 2 + 0) ds 0%Z = (0 + 3 * 3 + 4 * 5 + 30)%Z.
Proof.
  destruct (@ode_rhs_augmented_system Z Scalar_Z 0%Z [1; 2; 3; 4; 5; 6]%Z
              demo_f demo_dfdx demo_dfdp [] [] [] 2 2 eq_refl
              (demo_dfdx_shape _ _ _ _ _) (demo_dfdp_shape _ _ _ _ _))
    as [ds [E [L Ent]]].
  exists ds. split; [exact E|]. split; [exact L|].
  exact (Ent 1 0 ltac:(lia) ltac:(lia)).
Defined.

Lemma ode_rhs_discards_trailing_entries_witness :
  exists r,
    ode_rhs 0%Z [1; 2; 3; 4; 5; 6; 7; 8]%Z demo_f demo_dfdx demo_dfdp [] [] [] 2 2
    = Some r
    /\ length r = 6
    /\ ode_rhs 0%Z [1; 2; 3; 4; 5; 6]%Z demo_f demo_dfdx demo_dfdp [] [] [] 2 2
       = Some r.
Proof.
  exact (@ode_rhs_discards_trailing_entries Z Scalar_Z 0%Z
           [1; 2; 3; 4; 5; 6; 7; 8]%Z demo_f demo_dfdx demo_dfdp [] [] [] 2 2
           ltac:(simpl; lia) eq_refl
           (demo_dfdx_shape _ _ _ _ _) (demo_dfdp_shape _ _ _ _ _)).
Defined.

Lemma flattened_S_shape_witness :
  exists S_ C sols,
    get_S_matrix constant_solver small_design false false = Some (S_, C, sols)
    /\ shape S_ = [1; 6]
    /\ length (data S_) = 6.
Proof.
  exact (@flattened_S_shape Z Scalar_Z constant_solver small_design 1 3
           false false req_sym_trans_Z small_design_valid constant_solver_ok).
Defined.

Lemma every_combination_once_witness :
  NoDup (map slice_address (combinations small_design))
  /\ exists S_ C sols,
       get_S_matrix constant_solver small_design false true = Some (S_, C, sols)
       /\ length sols = 2
       /\ Forall2 (record_of small_design) (combinations small_design) sols.
Proof.
  destruct (@every_combination_once Z Scalar_Z constant_solver small_design 1 3
              false true req_sym_trans_Z small_design_valid constant_solver_ok)
    as [_ [Hnd [_ [S_ [C [sols [E [L [F _]]]]]]]]].
  split; [exact Hnd|]. exists S_, C, sols. split; [exact E|]. split; assumption.
Defined.

Lemma covariance_is_identity_witness :
  (exists S_ sols,
     get_S_matrix constant_solver small_design true false
     = Some (S_, np_eye 6, sols))
  /\ exists res,
       calculate_fisher_criterion constant_solver small_design
         (fun _ _ _ => Some tt) false false = Some res
       /\ fr_C res = np_eye 6.
Proof.
  destruct (@covariance_is_identity Z Scalar_Z constant_solver small_design 1 3
              false req_sym_trans_Z small_design_valid constant_solver_ok)
    as [Ha [_ [Hb _]]].
  split.
  - destruct (Ha true) as [S_ [sols [E _]]]. exists S_, sols. exact E.
  - apply (Hb unit (fun _ _ _ => Some tt)). intros S_ C. discriminate.
Defined.

Lemma relative_sensitivity_entries_witness :
  exists s_abs s_rel r,
    combination constant_solver small_design 1 1 false [1%Z] 0%Z [1]
    = Some (s_abs, r)
    /\ combination constant_solver small_design 1 1 true [1%Z] 0%Z [1]
       = Some (s_rel, r)
    /\ entry s_rel 0 0 2
       = if 0 <? length (frs_ode_solution r)
         then rdiv (rmul (entry s_abs 0 0 2) 2%Z)
                   (nth 2 (expand (combine (nth 0 (frs_ode_solution r) [])
                                           (snd (np_unique (data (frs_times r))))))
                        0%Z)
         else rmul (entry s_abs 0 0 2) 2%Z.
Proof.
  destruct (@relative_sensitivity_entries Z Scalar_Z constant_solver small_design
              1 3 [1%Z] 0%Z [1] req_sym_trans_Z small_design_valid
              constant_solver_ok eq_refl
              ltac:(repeat constructor))
    as [s_abs [s_rel [r [E1 [E2 [_ [_ [Ent _]]]]]]]].
  exists s_abs, s_rel, r. split; [exact E1|]. split; [exact E2|].
  exact (Ent 0 0 2 ltac:(simpl; lia) ltac:(lia) ltac:(lia)).
Defined.

Lemma resting_solver_returns {R : Type} `{Scalar R} : solver_returns (@resting_solver R _).
Proof.
  intros rhs t0 tf y0 t_eval. unfold resting_solver.
  destruct (req tf t0); eexists; reflexivity.
Qed.

Lemma resting_solver_empty_at_t0 {R : Type} `{Scalar R} :
  solver_empty_at_t0 (@resting_solver R _).
Proof.
  intros rhs t0 tf y0 t_eval Htf _. unfold resting_solver. rewrite Htf. reflexivity.
Qed.

Lemma initial_time_only_block_witness :
  (exists r,
     combination resting_solver initial_time_design 1 1 false [1%Z] 0%Z [0]
     = Some (np_zeros3 1 1 2, r))
  /\ exists s r,
       combination resting_solver initial_time_design 1 1 true [1%Z] 0%Z [0]
       = Some (s, r)
       /\ frs_ode_solution r = []
       /\ has_shape3 1 1 2 s
       /\ forall j i k, j < 1 -> i < 1 -> k < 2 -> req (entry s j i k) rzero = true.
Proof.
  destruct (@initial_time_only_block Z Scalar_Z initial_time_design 1 2
              [1%Z] 0%Z [0] (times initial_time_design)
              req_sym_trans_Z initial_time_design_valid eq_refl
              ltac:(repeat constructor) eq_refl eq_refl)
    as [Ha Hb].
  split.
  - exact (Ha resting_solver resting_solver_returns).
  - destruct (Hb resting_solver resting_solver_empty_at_t0)
      as [s [r [E [Er [S [_ Hz]]]]]].
    exists s, r. split; [exact E|]. split; [exact Er|]. split; [exact S|].
    apply Hz. intros p [<- | []]. reflexivity.
Defined.

(** On doubles, with initial state [0.0] and both times equal to the
    initial time: the relative block is the zero block, and the record
    holds the empty output. *)
Lemma initial_time_only_relative_block_on_doubles :
  exists r,
    combination resting_solver zero_state_design 1 1 true [0%float] 0%float []
    = Some (np_zeros3 1 1 2, r)
    /\ frs_ode_solution r = [].
Proof.
  eexists. split; [vm_compute; reflexivity | reflexivity].
Qed.

(** On doubles the division of C5 has no guard: with a state that stays at
    [0.0] and a sensitivity of [0.0] at the first time and [2.0] at the
    second, the relative block is [nan] and [inf]. *)
Lemma relative_division_unguarded_on_doubles :
  exists s r,
    combination (fixed_solver [[0%float; 0%float]; [0%float; 2%float]])
                zero_state_two_times 1 1 true [0%float] 0%float []
    = Some (s, r)
    /\ PrimFloat.is_nan (entry s 0 0 0) = true
    /\ PrimFloat.eqb (entry s 0 0 1) PrimFloat.infinity = true.
Proof.
  eexists; eexists; (split; [vm_compute; reflexivity|]);
    split; vm_compute; reflexivity.
Qed.

(** * Further properties *)

(** ** Loops that raise *)

Lemma foldM_fails {A St : Type} (f : St -> A -> option St) (l : list A) (a : A) :
  In a l -> (forall s, f s a = None) -> forall s, foldM f l s = None.
Proof.
  intros Hin Hf. induction l as [|b l IH]; intros s; [destruct Hin|].
  cbn [foldM]. destruct Hin as [-> | Hin].
  - rewrite Hf. reflexivity.
  - destruct (f s b) as [s'|]; [|reflexivity]. cbn [bind]. apply IH. exact Hin.
Qed.

Lemma mapM_ext_in {A B : Type} (f g : A -> option B) (l : list A) :
  (forall a, In a l -> f a = g a) -> mapM f l = mapM g l.
Proof.
  induction l as [|a l IH]; intros E; [reflexivity|].
  cbn [mapM]. rewrite (E a (or_introl eq_refl)).
  rewrite IH; [reflexivity|]. intros b Hb. apply E. right. exact Hb.
Qed.

Lemma mapM_Forall2 {A B : Type} (f : A -> option B) (l : list A) (bs : list B) :
  mapM f l = Some bs -> Forall2 (fun a b => f a = Some b) l bs.
Proof.
  revert bs. induction l as [|a l IH]; intros bs E; cbn [mapM] in E.
  - injection E as <-. constructor.
  - destruct (f a) as [b|] eqn:Ea; [|discriminate E]. cbn [bind] in E.
    destruct (mapM f l) as [bs'|]; [|discriminate E]. cbn [bind] in E.
    injection E as <-. constructor; [exact Ea | apply IH; reflexivity].
Qed.

Lemma in_firstn {A : Type} (n : nat) (l : list A) (x : A) :
  In x (firstn n l) -> In x l.
Proof.
  intros Hx. rewrite <- (firstn_skipn n l). apply in_or_app. left. exact Hx.
Qed.

Lemma in_skipn {A : Type} (n : nat) (l : list A) (x : A) :
  In x (skipn n l) -> In x l.
Proof.
  intros Hx. rewrite <- (firstn_skipn n l). apply in_or_app. right. exact Hx.
Qed.

Lemma flat_map_nil {A B : Type} (l : list A) : flat_map (fun _ : A => @nil B) l = [].
Proof. induction l as [|a l IH]; [reflexivity | exact IH]. Qed.

Lemma map_combine_repeat {A B C : Type} (g : A * B -> C) (l : list A) (b : B) (n : nat) :
  length l = n -> map g (combine l (repeat b n)) = map (fun a => g (a, b)) l.
Proof.
  revert n. induction l as [|a l IH]; intros [|n] L; try discriminate;
    [reflexivity|].
  cbn [repeat combine map]. f_equal. apply IH. simpl in L. lia.
Qed.

(** ** [ode_rhs] at its edges *)

Section OdeRhsEdges.

Context {R : Type} `{Scalar R}.

(** X1.  [ode_rhs] needs the whole augmented state.  With at least one
    parameter, a state vector of fewer than [n_x + n_x * n_p] entries makes
    it raise (the reshape of the sensitivity block fails), whatever the
    user's callables; and when the Jacobians have their shapes, this is the
    only way it raises. *)
Theorem ode_rhs_needs_full_state (t : R) (x : list R) (f : user_fun R)
    (dfdx dfdp : user_jac R) (inputs params args : list R) (n_x n_p : nat) :
  0 < n_p ->
  (length x < n_x + n_x * n_p ->
   ode_rhs t x f dfdx dfdp inputs params args n_x n_p = None)
  /\ (has_shape n_x n_x (dfdx t (firstn n_x x) inputs params args) ->
      has_shape n_x n_p (dfdp t (firstn n_x x) inputs params args) ->
      (ode_rhs t x f dfdx dfdp inputs params args n_x n_p = None
       <-> length x < n_x + n_x * n_p)).
Proof.
  intros Hp.
  assert (Hshort : length x < n_x + n_x * n_p ->
                   ode_rhs t x f dfdx dfdp inputs params args n_x n_p = None).
  { intros Hx. unfold ode_rhs, np_split3, np_reshape2.
    rewrite length_firstn, length_skipn.
    replace (n_x + n_x * n_p - n_x) with (n_x * n_p) by lia.
    destruct (Nat.min (n_x * n_p) (length x - n_x) =? n_x * n_p) eqn:E.
    - apply Nat.eqb_eq in E. nia.
    - reflexivity. }
  split; [exact Hshort|].
  intros HJ HP. split; [|exact Hshort].
  intros E. destruct (Nat.lt_ge_cases (length x) (n_x + n_x * n_p)) as [Hlt | Hge];
    [exact Hlt|].
  rewrite (ode_rhs_value t x f dfdx dfdp inputs params args n_x n_p Hge HJ HP) in E.
  discriminate E.
Qed.

Lemma dotp_zero_column (u v : list R) :
  (forall a : R, rmul a rzero = rzero) ->
  (forall a : R, radd rzero a = a) ->
  Forall (fun b => b = rzero) v -> dotp u v = rzero.
Proof.
  intros Hmul Hadd. unfold dotp. revert v.
  induction u as [|a u IH]; intros [|b v] Hv; try reflexivity.
  inversion Hv as [|? ? Hb Hv']; subst.
  cbn [combine fold_left fst snd]. rewrite Hmul, Hadd. apply IH. exact Hv'.
Qed.

Lemma add_zero_row (u v : list R) :
  (forall a : R, radd rzero a = a) ->
  length u = length v -> Forall (fun a => a = rzero) u ->
  map (fun xy => radd (fst xy) (snd xy)) (combine u v) = v.
Proof.
  intros Hadd. revert v. induction u as [|a u IH]; intros [|b v] L Hu;
    try discriminate; [reflexivity|].
  inversion Hu as [|? ? Ha Hu']; subst.
  cbn [combine map fst snd]. rewrite Hadd. f_equal.
  apply IH; [simpl in L; lia | exact Hu'].
Qed.

Lemma add_zero_rows (D P : list (list R)) :
  (forall a : R, radd rzero a = a) ->
  length D = length P ->
  Forall (Forall (fun a => a = rzero)) D ->
  (forall u v, In (u, v) (combine D P) -> length u = length v) ->
  map (fun uv => map (fun xy => radd (fst xy) (snd xy)) (combine (fst uv) (snd uv)))
      (combine D P) = P.
Proof.
  intros Hadd. revert P. induction D as [|u D IH]; intros [|v P] L HD HL;
    try discriminate; [reflexivity|].
  inversion HD as [|? ? Hu HD']; subst.
  cbn [combine map fst snd]. f_equal.
  - apply add_zero_row; [exact Hadd | apply HL; left; reflexivity | exact Hu].
  - apply IH; [simpl in L; lia | exact HD' |].
    intros u' v' Hin. apply HL. right. exact Hin.
Qed.

(** X2.  At the initial value [get_S_matrix] hands to the integrator, the
    state followed by zero sensitivities (line 95), [ode_rhs] returns the
    output of [f] followed by the rows of [df/dp]: the sensitivities start
    to grow at the rate [df/dp].  This needs numbers in which a product
    with zero is zero and adding to zero changes nothing (exact
    arithmetic; on doubles an infinite entry of [df/dx] gives [nan]). *)
Theorem ode_rhs_at_zero_sensitivities (t : R) (x0 : list R) (f : user_fun R)
    (dfdx dfdp : user_jac R) (inputs params args : list R) (n_p : nat) :
  (forall a : R, rmul a rzero = rzero) ->
  (forall a : R, radd rzero a = a) ->
  has_shape (length x0) (length x0) (dfdx t x0 inputs params args) ->
  has_shape (length x0) n_p (dfdp t x0 inputs params args) ->
  ode_rhs t (x0 ++ repeat rzero (length x0 * n_p)) f dfdx dfdp
          inputs params args (length x0) n_p
  = Some (f t x0 inputs params args ++ concat (dfdp t x0 inputs params args)).
Proof.
  intros Hmul Hadd HJ HP.
  rewrite ode_rhs_value; rewrite ?firstn_length_app, ?length_app, ?repeat_length;
    try assumption; try lia.
  rewrite skipn_length_app, firstn_all2 by (rewrite repeat_length; lia).
  destruct HJ as [LJ FJ]. destruct HP as [LP FP].
  rewrite add_zero_rows; [reflexivity | exact Hadd | | |].
  - rewrite length_map. congruence.
  - apply Forall_map. apply Forall_forall. intros row _.
    apply Forall_map. apply Forall_forall. intros j Hj. apply in_seq in Hj.
    apply (dotp_zero_column _ _ Hmul Hadd).
    unfold column. apply Forall_map. apply Forall_forall. intros r Hr.
    apply In_nth with (d := []) in Hr. destruct Hr as [i [Hi <-]].
    rewrite length_chunks in Hi.
    rewrite (nth_nth_chunks _ n_p _ i j rzero Hi) by lia.
    apply nth_repeat.
  - intros u v Huv.
    rewrite Forall_forall in FP. rewrite (FP v (in_combine_r _ _ _ _ Huv)).
    apply in_combine_l in Huv. apply in_map_iff in Huv.
    destruct Huv as [row [<- _]]. rewrite length_map, length_seq. reflexivity.
Qed.

Lemma np_add2_one_row (d : list (list R)) (prow : list R) :
  Forall (fun r => length r = length prow) d ->
  np_add2 d [prow]
  = Some (map (fun u => map (fun xy => radd (fst xy) (snd xy)) (combine u prow)) d).
Proof.
  intros Fd.
  assert (G : mapM (fun a => bcast (fun u v => Some (radd u v)) a prow) d
              = Some (map (fun u => map (fun xy => radd (fst xy) (snd xy))
                                        (combine u prow)) d)).
  { apply mapM_total. intros u Hu. rewrite Forall_forall in Fd.
    rewrite bcast_same_length by (apply Fd; exact Hu). apply zipM_total. }
  unfold np_add2. unfold bcast at 1.
  destruct d as [|u [|u' d']].
  - reflexivity.
  - cbn [length Nat.eqb zipM combine mapM fst snd] in *. exact G.
  - cbn [length Nat.eqb]. exact G.
Qed.

(** X3.  [ode_rhs] does not check the number of rows of [df/dp].  When
    the user's [df/dp] returns a single row of [n_p] entries, whatever
    [n_x] is, nothing is raised: numpy broadcasts the row, and the result
    is the one for the [df/dp] whose [n_x] rows all are that row. *)
Theorem ode_rhs_broadcasts_one_row_dfdp (t : R) (x : list R) (f : user_fun R)
    (dfdx dfdp : user_jac R) (inputs params args : list R) (n_x n_p : nat)
    (prow : list R) :
  n_x + n_x * n_p <= length x ->
  has_shape n_x n_x (dfdx t (firstn n_x x) inputs params args) ->
  dfdp t (firstn n_x x) inputs params args = [prow] ->
  length prow = n_p ->
  ode_rhs t x f dfdx dfdp inputs params args n_x n_p <> None
  /\ ode_rhs t x f dfdx dfdp inputs params args n_x n_p
     = ode_rhs t x f dfdx (fun _ _ _ _ _ => repeat prow n_x)
               inputs params args n_x n_p.
Proof.
  intros Hx HJ EP Lp.
  assert (HP : has_shape n_x n_p (repeat prow n_x)).
  { split; [apply repeat_length|]. apply Forall_forall.
    intros r Hr. apply repeat_spec in Hr. subst r. exact Lp. }
  rewrite (ode_rhs_value t x f dfdx (fun _ _ _ _ _ => repeat prow n_x)
             inputs params args n_x n_p Hx HJ HP).
  assert (E : ode_rhs t x f dfdx dfdp inputs params args n_x n_p
              = Some (f t (firstn n_x x) inputs params args ++
                      concat (map (fun u => map (fun xy => radd (fst xy) (snd xy))
                                                (combine u prow))
                                  (map (fun row =>
                                          map (fun j =>
                                                 dotp row
                                                   (column j (chunks n_x n_p
                                                      (firstn (n_x * n_p) (skipn n_x x)))))
                                              (seq 0 n_p))
                                       (dfdx t (firstn n_x x) inputs params args))))).
  { destruct HJ as [LJ FJ]. unfold ode_rhs, np_split3.
    replace (n_x + n_x * n_p - n_x) with (n_x * n_p) by lia.
    unfold np_reshape2. rewrite length_firstn, length_skipn.
    replace (Nat.min (n_x * n_p) (length x - n_x)) with (n_x * n_p) by lia.
    rewrite Nat.eqb_refl. cbn [bind].
    rewrite np_dot_total by (rewrite length_chunks; exact FJ).
    cbn [bind]. rewrite EP, np_add2_one_row; [reflexivity|].
    apply Forall_map. apply Forall_forall. intros row _.
    rewrite length_map, length_seq. symmetry. exact Lp. }
  rewrite E. split; [discriminate|].
  f_equal. f_equal. f_equal.
  rewrite map_combine_repeat; [reflexivity|].
  rewrite length_map. exact (proj1 HJ).
Qed.

End OdeRhsEdges.

(** X4.  The sensitivity equation that [exp_growth] of the example writes
    by hand is the one [ode_rhs] builds: on every state [(n, sa)], input
    [Temp], parameter [a] and constant [n_max], [ode_rhs] applied to the
    model [Temp * a * (n_max - n)] and its two derivatives returns what
    [exp_growth] returns (in exact arithmetic). *)
Theorem exp_growth_is_augmented_system (t n sa Temp a n_max : Z) :
  ode_rhs t [n; sa] limited_growth_f limited_growth_dfdx limited_growth_dfdp
          [Temp] [a] [n_max] 1 1
  = exp_growth Z.sub [n; sa] t [Temp] [a] [n_max].
Proof.
  unfold ode_rhs, exp_growth. cbn. f_equal. f_equal. f_equal. lia.
Qed.

(** ** The evaluation times *)

Section EvaluationTimes.

Context {R : Type} `{Scalar R}.

Hypothesis rle_total : forall x y : R, rle x y = false -> rle y x = true.
Hypothesis rle_trans :
  forall x y z : R, rle x y = true -> rle y z = true -> rle x z = true.

Lemma nondecreasing_cons (x : R) (l : list R) :
  nondecreasing (x :: l) = true
  <-> (match l with [] => True | y :: _ => rle x y = true end)
      /\ nondecreasing l = true.
Proof.
  destruct l as [|y l]; cbn [nondecreasing].
  - split; [intros _; split; [exact I | reflexivity] | reflexivity].
  - rewrite andb_true_iff. reflexivity.
Qed.

Lemma insert_nondecreasing (x : R) (l : list R) :
  nondecreasing l = true -> nondecreasing (insert x l) = true.
Proof.
  induction l as [|y l IH]; intros Hl; [reflexivity|].
  cbn [insert]. destruct (rle x y) eqn:E.
  - apply nondecreasing_cons. split; [exact E | exact Hl].
  - apply nondecreasing_cons in Hl. destruct Hl as [Hy Hl].
    apply nondecreasing_cons. split; [|apply IH; exact Hl].
    destruct l as [|z l]; cbn [insert].
    + apply rle_total. exact E.
    + destruct (rle x z); [apply rle_total; exact E | exact Hy].
Qed.

Lemma np_sort_is_nondecreasing (l : list R) : nondecreasing (np_sort l) = true.
Proof.
  induction l as [|x l IH]; [reflexivity|].
  cbn [np_sort]. apply insert_nondecreasing. exact IH.
Qed.

Lemma runs_head (x : R) (l : list R) :
  exists c rest, runs (x :: l) = (x, c) :: rest.
Proof.
  cbn [runs]. destruct (runs l) as [|[y c] rest].
  - exists 1, []. reflexivity.
  - destruct (req x y); eexists; eexists; reflexivity.
Qed.

Lemma runs_nondecreasing (l : list R) :
  nondecreasing l = true -> nondecreasing (map fst (runs l)) = true.
Proof.
  induction l as [|x l IH]; intros Hl; [reflexivity|].
  apply nondecreasing_cons in Hl. destruct Hl as [Hx Hl].
  specialize (IH Hl).
  destruct l as [|y l]; [reflexivity|].
  destruct (runs_head y l) as [c [rest E]].
  cbn [runs] in *. rewrite E in *. cbn [map fst] in IH.
  destruct (req x y).
  - cbn [map fst]. apply nondecreasing_cons in IH. destruct IH as [Hy IH].
    apply nondecreasing_cons. split; [|exact IH].
    destruct (map fst rest) as [|z r]; [exact I|].
    exact (rle_trans _ _ _ Hx Hy).
  - cbn [map fst]. apply nondecreasing_cons. split; [exact Hx | exact IH].
Qed.

Lemma in_runs_fst (l : list R) (v : R) : In v (map fst (runs l)) -> In v l.
Proof.
  revert v. induction l as [|x l IH]; intros v Hv; [destruct Hv|].
  cbn [runs] in Hv. destruct (runs l) as [|[y c] rest].
  - destruct Hv as [<- | []]. left. reflexivity.
  - destruct (req x y).
    + destruct Hv as [<- | Hv]; [left; reflexivity|].
      right. apply IH. right. exact Hv.
    + destruct Hv as [<- | Hv]; [left; reflexivity|].
      right. apply IH. exact Hv.
Qed.

Lemma in_np_unique (t : list R) (v : R) : In v (fst (np_unique t)) -> In v t.
Proof.
  rewrite np_unique_eq. cbn [fst]. intros Hv. apply in_runs_fst in Hv.
  apply (Permutation_in v (Permutation_sym (np_sort_perm t))). exact Hv.
Qed.

(** X5.  The evaluation times handed to the integrator (lines 92 and 98)
    are what it asks for: in ascending order, no two neighbours equal,
    every one of them a time of the design; and the counts kept for the
    re-expansion add up to the number of times of the design.  The order
    [<=] is taken to be total and transitive, [==] symmetric and
    transitive (doubles without NaN). *)
Theorem evaluation_times_strictly_increasing (t : list R) :
  req_sym_trans R ->
  nondecreasing (fst (np_unique t)) = true
  /\ distinct_adjacent (fst (np_unique t)) = true
  /\ (forall v, In v (fst (np_unique t)) -> In v t)
  /\ length (snd (np_unique t)) = length (fst (np_unique t))
  /\ list_sum (snd (np_unique t)) = length t.
Proof.
  intros Hreq. split; [|split; [|split; [|split]]].
  - rewrite np_unique_eq. cbn [fst].
    apply runs_nondecreasing, np_sort_is_nondecreasing.
  - rewrite np_unique_eq. cbn [fst]. apply distinct_adjacent_runs. exact Hreq.
  - apply in_np_unique.
  - symmetry. exact (proj1 (np_unique_lengths t)).
  - exact (proj2 (np_unique_lengths t)).
Qed.

End EvaluationTimes.

(** ** Designs the assembler rejects, and designs without combinations *)

Section AssemblerEdges.

Context {R : Type} `{Scalar R}.

(** X6.  [get_S_matrix] raises on a design without parameters (the final
    reshape to [(0, -1)] cannot be resolved, if nothing failed before),
    on a design without initial states ([ode_x0[0]]) and on a [times]
    array without axes ([times.shape[-1]]), whatever the integrator
    does. *)
Theorem get_S_matrix_rejects_design (solve : integrator R)
    (fsmp : FisherModelParametrized R) (covar rel : bool) :
  parameters fsmp = [] \/ ode_x0 fsmp = [] \/ shape (times fsmp) = [] ->
  get_S_matrix solve fsmp covar rel = None.
Proof.
  intros Hbad. unfold get_S_matrix.
  destruct (nth_error (ode_x0 fsmp) 0) as [x00|] eqn:Ex; [|reflexivity].
  cbn [bind].
  destruct (np_shape_last (times fsmp)) as [n_times|] eqn:Et; [|reflexivity].
  cbn [bind].
  destruct Hbad as [Hp | [Hx | Ht]].
  - match goal with
    | |- bind ?m _ = _ => destruct m as [[S1 sols1]|]; [|reflexivity]
    end.
    cbn [bind]. rewrite Hp. reflexivity.
  - rewrite Hx in Ex. discriminate Ex.
  - unfold np_shape_last in Et. rewrite Ht in Et. discriminate Et.
Qed.

(** The loop stops at the first combination whose body raises. *)
Lemma loop_aborts (solve : integrator R) (fsmp : FisherModelParametrized R)
    (n_p n_x0 : nat) (rel : bool)
    (l : list ((nat * list R) * (nat * R) * list nat))
    (i_x0 : nat) (x0 : list R) (i_t0 : nat) (t0 : R) (index : list nat)
    (st : ndarray R * list (FisherResultSingle R)) :
  In (i_x0, x0, (i_t0, t0), index) l ->
  combination solve fsmp n_p n_x0 rel x0 t0 index = None ->
  foldM (fun st c =>
           let '(S_, solutions) := st in
           let '((i_x0, x0), (i_t0, t0), index) := c in
           ' (s, fsrs) <- combination solve fsmp n_p n_x0 rel x0 t0 index ;;
           S_ <- assign_slice S_ i_t0 i_x0 index s ;;
           Some (S_, solutions ++ [fsrs])) l st = None.
Proof.
  intros Hin Ec. apply (foldM_fails _ _ _ Hin).
  intros [S1 sols1]. rewrite Ec. reflexivity.
Qed.

(** X7.  All or nothing: when the loop body raises for one combination
    (the integrator raises, an index is out of range, a reshape fails),
    [get_S_matrix] raises; no matrix and no records are returned for the
    combinations that went through. *)
Theorem get_S_matrix_all_or_nothing (solve : integrator R)
    (fsmp : FisherModelParametrized R) (covar rel : bool)
    (i_x0 : nat) (x0 : list R) (i_t0 : nat) (t0 : R) (index : list nat) :
  In (i_x0, x0, (i_t0, t0), index) (combinations fsmp) ->
  combination solve fsmp (length (parameters fsmp))
              (length (nth 0 (ode_x0 fsmp) [])) rel x0 t0 index = None ->
  get_S_matrix solve fsmp covar rel = None.
Proof.
  intros Hin Ec. unfold get_S_matrix.
  destruct (nth_error (ode_x0 fsmp) 0) as [x00|] eqn:Ex; [|reflexivity].
  cbn [bind].
  destruct (np_shape_last (times fsmp)) as [n_times|] eqn:Et; [|reflexivity].
  cbn [bind].
  assert (E0 : nth 0 (ode_x0 fsmp) [] = x00).
  { destruct (ode_x0 fsmp); [discriminate|]. injection Ex as ->. reflexivity. }
  rewrite E0 in Ec.
  rewrite (loop_aborts solve fsmp _ _ rel _ i_x0 x0 i_t0 t0 index _ Hin Ec).
  reflexivity.
Qed.

Lemma combination_empty_times (solve : integrator R)
    (fsmp : FisherModelParametrized R) (n_p n_x0 : nat) (rel : bool)
    (x0 : list R) (t0 : R) (index : list nat) :
  data (times fsmp) = [] ->
  combination solve fsmp n_p n_x0 rel x0 t0 index = None.
Proof.
  intros Ed. unfold combination.
  destruct (mapM _ (enumerate index)) as [Q|]; [|reflexivity]. cbn [bind].
  assert (Et : forall t,
            (if identical_times fsmp then Some (times fsmp)
             else np_getitem (times fsmp) index) = Some t -> data t = []).
  { intros t. destruct (identical_times fsmp).
    - intros E. injection E as <-. exact Ed.
    - unfold np_getitem.
      destruct (ravel _ index 0) as [off|]; [|discriminate]. cbn [bind].
      intros E. injection E as <-. cbn [data]. rewrite Ed.
      rewrite skipn_nil, firstn_nil. reflexivity. }
  destruct (if identical_times fsmp then Some (times fsmp)
            else np_getitem (times fsmp) index) as [t|]; [|reflexivity].
  cbn [bind]. rewrite (Et t eq_refl).
  destruct (np_unique []) as [t_red counts]. reflexivity.
Qed.

(** X8.  A [times] array without entries makes [get_S_matrix] raise as
    soon as there is a combination to visit: [np.max] of the empty time
    vector, evaluated for the call of the integrator, is an error. *)
Theorem get_S_matrix_empty_times_fails (solve : integrator R)
    (fsmp : FisherModelParametrized R) (covar rel : bool) :
  data (times fsmp) = [] -> combinations fsmp <> [] ->
  get_S_matrix solve fsmp covar rel = None.
Proof.
  intros Ed Hne. unfold get_S_matrix.
  destruct (nth_error (ode_x0 fsmp) 0) as [x00|]; [|reflexivity].
  cbn [bind].
  destruct (np_shape_last (times fsmp)) as [n_times|]; [|reflexivity].
  cbn [bind].
  destruct (combinations fsmp) as [|[[[i_x0 x0] [i_t0 t0]] index] rest];
    [congruence|].
  rewrite (loop_aborts solve fsmp _ _ rel
             ((i_x0, x0, (i_t0, t0), index) :: rest) i_x0 x0 i_t0 t0 index _
             (in_eq _ _)
             (combination_empty_times solve fsmp _ _ rel x0 t0 index Ed)).
  reflexivity.
Qed.

Lemma index_product_empty_axis (dims : list nat) :
  In 0 dims -> index_product dims = [] /\ prod dims = 0.
Proof.
  induction dims as [|d dims IH]; intros Hin; [destruct Hin|].
  destruct Hin as [-> | Hin]; [split; reflexivity|].
  destruct (IH Hin) as [E P]. cbn [index_product prod fold_right].
  fold (prod dims). rewrite E, P. split; [|lia].
  induction (seq 0 d) as [|i l IHl]; [reflexivity | exact IHl].
Qed.

Lemma combinations_empty (fsmp : FisherModelParametrized R) :
  ode_t0 fsmp = [] \/ In [] (inputs fsmp) ->
  combinations fsmp = []
  /\ length (ode_t0 fsmp) * prod (map (@length R) (inputs fsmp)) = 0.
Proof.
  intros [Ht | Hq]; unfold combinations, itertools_product3.
  - rewrite Ht. cbn [enumerate length seq combine flat_map].
    split; [apply flat_map_nil | reflexivity].
  - destruct (index_product_empty_axis (map (@length R) (inputs fsmp))) as [E P].
    { apply in_map_iff. exists []. split; [reflexivity | exact Hq]. }
    rewrite E, P. split; [|lia].
    cbn [map]. rewrite (flat_map_nil (enumerate (ode_t0 fsmp))).
    apply flat_map_nil.
Qed.

(** X9.  A design with parameters, initial states and a time axis, but
    without initial times or with an input that has no candidate value,
    has no combination to visit: [get_S_matrix] returns the matrix of shape
    [(n_p, 0)], the identity of size zero and no records, and the
    integrator is never called (the result is the same for every
    integrator, also one that raises). *)
Theorem get_S_matrix_without_combinations (solve : integrator R)
    (fsmp : FisherModelParametrized R) (covar rel : bool) :
  parameters fsmp <> [] -> ode_x0 fsmp <> [] -> shape (times fsmp) <> [] ->
  ode_t0 fsmp = [] \/ In [] (inputs fsmp) ->
  get_S_matrix solve fsmp covar rel
  = Some (Ndarray [length (parameters fsmp); 0] [], np_eye 0, []).
Proof.
  intros Hp Hx Ht Hempty.
  destruct (combinations_empty fsmp Hempty) as [Ec Hprod].
  unfold get_S_matrix.
  destruct (ode_x0 fsmp) as [|x00 rest]; [congruence|]. cbn [nth_error bind].
  unfold np_shape_last.
  destruct (rev (shape (times fsmp))) as [|n_times rs] eqn:Er.
  { exfalso. apply Ht. rewrite <- (rev_involutive (shape (times fsmp))), Er.
    reflexivity. }
  cbn [bind]. rewrite Ec. cbn [foldM bind].
  assert (Ed : prod ([length (parameters fsmp); length (ode_t0 fsmp);
                      length (x00 :: rest); length x00]
                     ++ map (@length R) (inputs fsmp) ++ [n_times]) = 0).
  { cbn [app prod fold_right].
    fold (prod (map (@length R) (inputs fsmp) ++ [n_times])).
    rewrite prod_app. nia. }
  unfold np_zeros, np_reshape_rows. cbn [data shape]. rewrite Ed. cbn [repeat length].
  destruct (length (parameters fsmp)) as [|p] eqn:Ep.
  { destruct (parameters fsmp); [congruence | discriminate]. }
  cbn [Nat.eqb]. rewrite Nat.Div0.mod_0_l, Nat.Div0.div_0_l. reflexivity.
Qed.

End AssemblerEdges.

(** ** The records and the flags *)

Section RecordsAndFlags.

Context {R : Type} `{Scalar R}.

Lemma loop_records (solve : integrator R) (fsmp : FisherModelParametrized R)
    (n_p n_x0 : nat) (rel : bool)
    (l : list ((nat * list R) * (nat * R) * list nat))
    (S0 S1 : ndarray R) (acc sols : list (FisherResultSingle R)) :
  foldM (fun st c =>
           let '(S_, solutions) := st in
           let '((i_x0, x0), (i_t0, t0), index) := c in
           ' (s, fsrs) <- combination solve fsmp n_p n_x0 rel x0 t0 index ;;
           S_ <- assign_slice S_ i_t0 i_x0 index s ;;
           Some (S_, solutions ++ [fsrs])) l (S0, acc) = Some (S1, sols) ->
  exists recs,
    mapM (combination_record solve fsmp n_p n_x0 rel) l = Some recs
    /\ sols = acc ++ recs.
Proof.
  revert S0 acc. induction l as [|[[[i_x0 x0] [i_t0 t0]] index] l IH];
    intros S0 acc E.
  - cbn [foldM] in E. injection E as <- <-. exists []. split; [reflexivity|].
    rewrite app_nil_r. reflexivity.
  - cbn [foldM] in E. cbn [mapM]. unfold combination_record at 1. cbn [fst snd].
    destruct (combination solve fsmp n_p n_x0 rel x0 t0 index) as [[s r]|];
      [|discriminate E].
    cbn [bind option_map snd] in *.
    destruct (assign_slice S0 i_t0 i_x0 index s) as [S'|]; [|discriminate E].
    cbn [bind] in E. destruct (IH _ _ E) as [recs [Er ->]].
    rewrite Er. cbn [bind]. exists (r :: recs). split; [reflexivity|].
    rewrite <- app_assoc. reflexivity.
Qed.

(** The records returned are those of the combinations, in the order of
    the enumeration. *)
Lemma get_S_matrix_records (solve : integrator R)
    (fsmp : FisherModelParametrized R) (covar rel : bool)
    (S_ C : ndarray R) (sols : list (FisherResultSingle R)) :
  get_S_matrix solve fsmp covar rel = Some (S_, C, sols) ->
  mapM (combination_record solve fsmp (length (parameters fsmp))
                           (length (nth 0 (ode_x0 fsmp) [])) rel)
       (combinations fsmp) = Some sols.
Proof.
  unfold get_S_matrix. intros E.
  destruct (nth_error (ode_x0 fsmp) 0) as [x00|] eqn:Ex; [|discriminate E].
  assert (E0 : nth 0 (ode_x0 fsmp) [] = x00).
  { destruct (ode_x0 fsmp); [discriminate|]. injection Ex as ->. reflexivity. }
  rewrite E0. clear E0 Ex. cbn [bind] in E.
  destruct (np_shape_last (times fsmp)) as [n_times|]; [|discriminate E].
  cbn [bind] in E.
  match type of E with
  | bind ?m _ = _ => destruct m as [[S1 sols1]|] eqn:Ef; [|discriminate E]
  end.
  cbn [bind] in E.
  destruct (np_reshape_rows S1 (length (parameters fsmp))) as [S2|];
    [|discriminate E].
  cbn [bind] in E.
  destruct (nth_error (shape S2) 1) as [cols|]; [|discriminate E].
  cbn [bind] in E. injection E as <- <- <-.
  destruct (loop_records _ _ _ _ _ _ _ _ _ _ Ef) as [recs [Er ->]].
  exact Er.
Qed.

Lemma picked_inputs_of_mapM (inps : list (list R)) (l : list (nat * nat)) (Q : list R) :
  mapM (fun ij => q <- nth_error inps (fst ij) ;; nth_error q (snd ij)) l = Some Q ->
  Q = map (fun ij => nth (snd ij) (nth (fst ij) inps []) rzero) l.
Proof.
  intros E. apply mapM_Forall2 in E.
  induction E as [|[i j] b l bs Hab _ IH]; [reflexivity|].
  cbn [map fst snd] in *. f_equal; [|exact IH].
  destruct (nth_error inps i) as [q|] eqn:Eq; [|discriminate Hab].
  cbn [bind] in Hab.
  rewrite (nth_error_nth _ _ [] Eq). symmetry. apply nth_error_nth. exact Hab.
Qed.

Lemma combination_call (solve : integrator R) (fsmp : FisherModelParametrized R)
    (n_x0 : nat) (rel : bool) (c : (nat * list R) * (nat * R) * list nat)
    (r : FisherResultSingle R) :
  combination_record solve fsmp (length (parameters fsmp)) n_x0 rel c = Some r ->
  integrator_call solve fsmp n_x0 c r.
Proof.
  destruct c as [[[i_x0 x0] [i_t0 t0]] index].
  unfold combination_record, combination, integrator_call. cbn [fst snd].
  destruct (mapM _ (enumerate index)) as [Q|] eqn:EQ; [|discriminate].
  apply picked_inputs_of_mapM in EQ. fold (picked_inputs fsmp index) in EQ.
  subst Q. cbn [bind].
  destruct (if identical_times fsmp then Some (times fsmp)
            else np_getitem (times fsmp) index) as [t|]; [|discriminate].
  cbn [bind].
  destruct (np_unique (data t)) as [t_red counts] eqn:Eu.
  destruct (np_max (data t)) as [t_max|] eqn:Em; [|discriminate]. cbn [bind].
  match goal with
  | |- context [bind ?m _] => destruct m as [y|] eqn:Ey; [|discriminate]
  end.
  cbn [bind].
  match goal with
  | |- context [bind ?m _] => destruct m as [s|]; [|discriminate]
  end.
  cbn [bind].
  match goal with
  | |- context [bind ?m _] => destruct m as [s'|]; [|discriminate]
  end.
  cbn [bind option_map snd]. intros E. injection E as <-.
  exists t, t_max. cbn [frs_ode_solution]. rewrite Eu. cbn [fst].
  split; [reflexivity|]. split; [exact Em|]. split; [exact Ey | reflexivity].
Qed.

(** X10.  Whenever [get_S_matrix] returns, its list of records has one
    record per combination, in the order of the enumeration, and each
    record holds the unchanged output of the one call of the integrator
    made for its combination: right-hand side [ode_rhs] with the input
    values of the combination, span from the initial time to the largest
    sample time, initial value the initial state followed by
    [n_x0 * n_p] zeros, evaluation times the sorted distinct sample times;
    the times of the record are the sample times as the design gives
    them. *)
Theorem records_hold_integrator_calls (solve : integrator R)
    (fsmp : FisherModelParametrized R) (covar rel : bool)
    (S_ C : ndarray R) (sols : list (FisherResultSingle R)) :
  get_S_matrix solve fsmp covar rel = Some (S_, C, sols) ->
  Forall2 (integrator_call solve fsmp (length (nth 0 (ode_x0 fsmp) [])))
          (combinations fsmp) sols.
Proof.
  intros E. apply get_S_matrix_records in E. apply mapM_Forall2 in E.
  eapply Forall2_impl; [|exact E].
  intros c r. apply combination_call.
Qed.

(** X11.  The flag [relative_sensitivities] changes the entries of [S]
    and nothing else: on a valid design both modes return, with the same
    covariance matrix, the same records and a matrix of the same shape. *)
Theorem relative_flag_changes_entries_only (solve : integrator R)
    (fsmp : FisherModelParametrized R) (n_x n_times : nat) (covar : bool) :
  req_sym_trans R -> valid_design fsmp n_x n_times -> solver_ok solve ->
  exists S_abs S_rel C sols,
    get_S_matrix solve fsmp covar false = Some (S_abs, C, sols)
    /\ get_S_matrix solve fsmp covar true = Some (S_rel, C, sols)
    /\ shape S_abs = shape S_rel
    /\ length (data S_abs) = length (data S_rel).
Proof.
  intros Hreq Hv Hsolve.
  destruct (get_S_matrix_assembles solve fsmp n_x n_times covar false
              Hreq Hv Hsolve) as [Sa [sa [Ea [Sha [Lda _]]]]].
  destruct (get_S_matrix_assembles solve fsmp n_x n_times covar true
              Hreq Hv Hsolve) as [Sr [sr [Er [Shr [Ldr _]]]]].
  exists Sa, Sr, (np_eye (total_samples fsmp n_x n_times)), sa.
  split; [exact Ea|]. split; [|split; congruence].
  rewrite Er. f_equal. f_equal.
  apply get_S_matrix_records in Ea. apply get_S_matrix_records in Er.
  assert (Some sr = Some sa) as G; [|injection G as ->; reflexivity].
  rewrite <- Ea, <- Er. apply mapM_ext_in.
  intros [[[i_x0 x0] [i_t0 t0]] index] Hin.
  apply in_itertools_product3 in Hin. destruct Hin as [Hx0 [Ht0 Hidx]].
  apply in_enumerate in Hx0. destruct Hx0 as [Hx0 _].
  apply in_index_product in Hidx.
  destruct Hv as (Hp & Hx & Hn & Hne & Fx0 & Hshape & Hdata).
  assert (Lx0 : length x0 = n_x).
  { rewrite Forall_forall in Fx0. apply Fx0. eapply nth_error_In. exact Hx0. }
  assert (L0 : length (nth 0 (ode_x0 fsmp) []) = n_x).
  { rewrite Forall_forall in Fx0. apply Fx0. apply nth_In.
    destruct (ode_x0 fsmp); [congruence | simpl; lia]. }
  rewrite L0.
  destruct (combination_blocks solve fsmp n_x n_times x0 t0 index Hreq
              (conj Hp (conj Hx (conj Hn (conj Hne (conj Fx0 (conj Hshape Hdata))))))
              Hsolve Lx0 Hidx)
    as (t & y & s_abs & s_rel & _ & _ & _ & Eca & Ecr & _).
  unfold combination_record. cbn [fst snd]. rewrite Eca, Ecr. reflexivity.
Qed.

(** X12.  The flag [covar] has no effect: for every design, integrator
    and criterion, [calculate_fisher_criterion] is the criterion applied
    to the matrix and the covariance [get_S_matrix] returns, put into the
    result with the records; replacing the covariance by the identity
    (line 229) replaces it by itself. *)
Theorem calculate_fisher_criterion_ignores_covar {V : Type}
    (solve : integrator R) (fsmp : FisherModelParametrized R)
    (criterion : FisherModelParametrized R -> ndarray R -> ndarray R -> option V)
    (covar rel : bool) :
  calculate_fisher_criterion solve fsmp criterion covar rel
  = ( ' (S_, C, solutions) <- get_S_matrix solve fsmp false rel ;;
      crit <- criterion fsmp S_ C ;;
      Some {| fr_criterion := crit;
              fr_S := S_;
              fr_C := C;
              fr_individual_results := solutions;
              fr_relative_sensitivities := rel;
              fr_design := fsmp |} ).
Proof.
  unfold calculate_fisher_criterion, calculate_fisher_criterion_with.
  change (get_S_matrix solve fsmp covar rel) with (get_S_matrix solve fsmp false rel).
  destruct (get_S_matrix solve fsmp false rel) as [[[S_ C] sols]|] eqn:E;
    [|reflexivity].
  cbn [bind].
  destruct (get_S_matrix_returns_identity solve fsmp false rel S_ C sols E)
    as [cols [Ecols ->]].
  rewrite Ecols. destruct covar; reflexivity.
Qed.

End RecordsAndFlags.

(** ** The columns of a block and the positions of the tensor *)

Lemma ravel_surjective (dims : list nat) (off : nat) :
  off < prod dims ->
  exists idx, Forall2 lt idx dims /\ ravel dims idx 0 = Some off.
Proof.
  revert off. induction dims as [|d dims IH]; intros off Hoff.
  - exists []. split; [constructor|]. simpl in Hoff.
    replace off with 0 by lia. reflexivity.
  - cbn [prod fold_right] in Hoff. fold (prod dims) in Hoff.
    assert (Hpos : 0 < prod dims) by nia.
    destruct (IH (off mod prod dims)) as [idx [F E]].
    { apply Nat.mod_upper_bound. lia. }
    assert (Hi : off / prod dims < d).
    { apply Nat.Div0.div_lt_upper_bound. lia. }
    exists (off / prod dims :: idx). split; [constructor; assumption|].
    cbn [ravel]. apply Nat.ltb_lt in Hi. rewrite Hi.
    rewrite ravel_acc, E. cbn [option_map]. f_equal.
    rewrite (Nat.div_mod_eq off (prod dims)) at 3. lia.
Qed.

Section BlocksAndPositions.

Context {R : Type} `{Scalar R}.

(** Position [k] of an expansion by [counts] comes from one entry [c] of
    the expanded list, the same for every list expanded by these counts. *)
Lemma expand_position (counts : list nat) (k : nat) :
  k < list_sum counts ->
  exists c, c < length counts
    /\ forall (a : list R) (d : R), length a = length counts ->
         nth k (expand (combine a counts)) d = nth c a d.
Proof.
  revert k. induction counts as [|c0 counts IH]; intros k Hk; [simpl in Hk; lia|].
  cbn [list_sum fold_right] in Hk. fold (list_sum counts) in Hk.
  destruct (Nat.lt_ge_cases k c0) as [Hlt | Hge].
  - exists 0. split; [simpl; lia|].
    intros [|a0 a] d La; [discriminate|].
    unfold expand. cbn [combine flat_map fst snd nth].
    rewrite app_nth1 by (rewrite repeat_length; exact Hlt).
    apply nth_repeat_lt. exact Hlt.
  - destruct (IH (k - c0)) as [c [Hc Hnth]]; [lia|].
    exists (S c). split; [simpl; lia|].
    intros [|a0 a] d La; [discriminate|].
    unfold expand. cbn [combine flat_map fst snd nth].
    rewrite app_nth2 by (rewrite repeat_length; exact Hge).
    rewrite repeat_length. apply Hnth. simpl in La. lia.
Qed.

(** X13.  The columns of a block follow the sample times in ascending
    order, whatever their order in the design.  The sample times of the
    combination are taken to be comparable by [<=] (no NaN among them),
    and two of them that [==] holds equal to be the same number.  Then the
    sorted times are a rearrangement of the sample times in non-decreasing
    order, and, unless all times equal the initial time, column [k] of the
    block (absolute sensitivities) holds the sensitivities the integrator
    returned for the [k]-th of the sorted times: with [c] the index of that
    time among the evaluation times, entry [(j, i, k)] is entry [c] of row
    [n_x + i * n_p + j] of the output. *)
Theorem block_columns_follow_sorted_times (solve : integrator R)
    (fsmp : FisherModelParametrized R) (n_x n_times : nat)
    (x0 : list R) (t0 : R) (index : list nat) (t : ndarray R) :
  req_sym_trans R -> valid_design fsmp n_x n_times -> solver_ok solve ->
  length x0 = n_x ->
  Forall2 lt index (map (@length R) (inputs fsmp)) ->
  (if identical_times fsmp then Some (times fsmp)
   else np_getitem (times fsmp) index) = Some t ->
  (forall x y, In x (data t) -> In y (data t) -> rle x y = false -> rle y x = true) ->
  (forall x y, In x (data t) -> In y (data t) -> req x y = true -> x = y) ->
  exists s r,
    combination solve fsmp (length (parameters fsmp)) n_x false x0 t0 index
    = Some (s, r)
    /\ frs_times r = t
    /\ Permutation (data t) (np_sort (data t))
    /\ nondecreasing (np_sort (data t)) = true
    /\ length (np_sort (data t)) = n_times
    /\ (forallb (fun v => req v t0) (fst (np_unique (data t))) = false ->
        forall k, k < n_times ->
        exists c,
          c < length (fst (np_unique (data t)))
          /\ nth k (np_sort (data t)) rzero = nth c (fst (np_unique (data t))) rzero
          /\ forall j i, j < length (parameters fsmp) -> i < n_x ->
               entry s j i k
               = nth c (nth (n_x + (i * length (parameters fsmp) + j))
                            (frs_ode_solution r) []) rzero).
Proof.
  intros Hreq Hv Hsolve Hx0 Hidx Et Hle Heq.
  destruct (combination_blocks solve fsmp n_x n_times x0 t0 index
              Hreq Hv Hsolve Hx0 Hidx)
    as (t' & y & s_abs & s_rel & Et' & Lt & Sy & Ea & _ & _ & _ & _ & Hrows & _).
  rewrite Et in Et'. injection Et' as <-.
  exists s_abs, (solution_record fsmp x0 t0 index t y).
  split; [exact Ea|]. cbn [solution_record frs_times frs_ode_solution].
  split; [reflexivity|].
  split; [apply np_sort_perm|].
  split; [apply np_sort_sorted; exact Hle|].
  split; [rewrite <- (Permutation_length (np_sort_perm (data t))); exact Lt|].
  intros Hnd k Hk.
  destruct Sy as [Sy | [_ Habs]]; [|congruence].
  destruct (np_unique_lengths (data t)) as [Llen Lsum].
  destruct (expand_position (snd (np_unique (data t))) k) as [c [Hc Hnth]];
    [rewrite Lsum, Lt; exact Hk|].
  exists c. split; [rewrite Llen; exact Hc|]. split.
  - rewrite <- (Hnth _ rzero Llen).
    assert (Ex : expand (runs (np_sort (data t))) = np_sort (data t)).
    { apply expand_runs_of. intros a b Ha Hb. apply Heq.
      - apply (Permutation_in a (Permutation_sym (np_sort_perm (data t)))). exact Ha.
      - apply (Permutation_in b (Permutation_sym (np_sort_perm (data t)))). exact Hb. }
    rewrite <- Ex at 1.
    unfold np_unique.
    destruct (split (runs (np_sort (data t)))) as [vs cs] eqn:E. cbn [fst snd].
    rewrite (split_combine (runs (np_sort (data t))) E). reflexivity.
  - intros j i Hj Hi. unfold entry. rewrite (Hrows Hnd j i Hj Hi).
    apply Hnth.
    rewrite <- Llen. apply (has_shape_nth _ _ y _ Sy). nia.
Qed.

Lemma position_written (fsmp : FisherModelParametrized R) (n_x n_times off : nat) :
  off < prod (tensor_shape fsmp n_x n_times) ->
  exists i_x0 x0 i_t0 t0 index j i k,
    In (i_x0, x0, (i_t0, t0), index) (combinations fsmp)
    /\ j < length (parameters fsmp) /\ i < n_x /\ k < n_times
    /\ slice_offset (tensor_shape fsmp n_x n_times) i_t0 i_x0 index (j, i, k)
       = Some off.
Proof.
  intros Hoff.
  destruct (ravel_surjective _ off Hoff) as [idx [F E]].
  unfold tensor_shape in F. cbn [app] in F.
  inversion F as [|j ? idx1 ? Hj F1]; subst. clear F.
  inversion F1 as [|i_t0 ? idx2 ? Ht0 F2]; subst. clear F1.
  inversion F2 as [|i_x0 ? idx3 ? Hx0 F3]; subst. clear F2.
  inversion F3 as [|i ? idx4 ? Hi F4]; subst. clear F3.
  apply Forall2_app_inv_r in F4.
  destruct F4 as [index [tl [Fidx [Ftl ->]]]].
  inversion Ftl as [|k ? tl' ? Hk Fnil]; subst. inversion Fnil; subst. clear Ftl Fnil.
  destruct (nth_error (ode_x0 fsmp) i_x0) as [x0|] eqn:Ex0.
  2:{ apply nth_error_None in Ex0. lia. }
  destruct (nth_error (ode_t0 fsmp) i_t0) as [t0|] eqn:Et0.
  2:{ apply nth_error_None in Et0. lia. }
  exists i_x0, x0, i_t0, t0, index, j, i, k.
  split; [apply in_combinations; auto|].
  repeat (split; [assumption|]).
  exact E.
Qed.

(** X14.  The assembler leaves no entry of the tensor unwritten: every
    position of the array returned is the row-major offset of an entry
    [(j, i, k)] of the slice of a combination of the loop, it holds entry
    [(j, i, k)] of the block computed for that combination, and no other
    combination writes there. *)
Theorem every_position_written_once (solve : integrator R)
    (fsmp : FisherModelParametrized R) (n_x n_times : nat) (covar rel : bool) :
  req_sym_trans R -> valid_design fsmp n_x n_times -> solver_ok solve ->
  exists S_ C sols,
    get_S_matrix solve fsmp covar rel = Some (S_, C, sols)
    /\ length (data S_) = prod (tensor_shape fsmp n_x n_times)
    /\ forall off, off < length (data S_) ->
       exists i_x0 x0 i_t0 t0 index s r j i k,
         In (i_x0, x0, (i_t0, t0), index) (combinations fsmp)
         /\ combination solve fsmp (length (parameters fsmp)) n_x rel x0 t0 index
            = Some (s, r)
         /\ j < length (parameters fsmp) /\ i < n_x /\ k < n_times
         /\ slice_offset (tensor_shape fsmp n_x n_times) i_t0 i_x0 index (j, i, k)
            = Some off
         /\ nth off (data S_) rzero = entry s j i k
         /\ forall c', In c' (combinations fsmp) ->
                       written_by (tensor_shape fsmp n_x n_times) c' off ->
                       c' = (i_x0, x0, (i_t0, t0), index).
Proof.
  intros Hreq Hv Hsolve.
  destruct (get_S_matrix_assembles solve fsmp n_x n_times covar rel
              Hreq Hv Hsolve) as [S_ [sols [E [_ [Ld [_ Hcont]]]]]].
  assert (Lp : length (data S_) = prod (tensor_shape fsmp n_x n_times)).
  { rewrite Ld, tensor_shape_cons. cbn [prod fold_right].
    fold (prod (column_shape fsmp n_x n_times)).
    rewrite prod_column_shape. reflexivity. }
  exists S_, (np_eye (total_samples fsmp n_x n_times)), sols.
  split; [exact E|]. split; [exact Lp|].
  intros off Hoff. rewrite Lp in Hoff.
  destruct (position_written fsmp n_x n_times off Hoff)
    as (i_x0 & x0 & i_t0 & t0 & index & j & i & k & Hin & Hj & Hi & Hk & Eoff).
  assert (Hin' := Hin). apply in_combinations in Hin'.
  destruct Hin' as [Ex0 [_ Hidx]].
  assert (Lx0 : length x0 = n_x).
  { destruct Hv as (_ & _ & _ & _ & Fx0 & _).
    rewrite Forall_forall in Fx0. apply Fx0. eapply nth_error_In. exact Ex0. }
  destruct (combination_ok solve fsmp n_x n_times rel x0 t0 index
              Hreq Hv Hsolve Lx0 Hidx) as [s [r [Ec _]]].
  exists i_x0, x0, i_t0, t0, index, s, r, j, i, k.
  split; [exact Hin|]. split; [exact Ec|].
  split; [exact Hj|]. split; [exact Hi|]. split; [exact Hk|].
  split; [exact Eoff|].
  split; [exact (Hcont i_x0 x0 i_t0 t0 index s r j i k off Hin Ec Hj Hi Hk Eoff)|].
  intros c' Hin2 Hw.
  apply (written_by_one_combination fsmp (tensor_shape fsmp n_x n_times)
           c' _ off Hin2 Hin Hw).
  exists (j, i, k). exact Eoff.
Qed.

Lemma in_selected_times (fsmp : FisherModelParametrized R) (index : list nat)
    (t : ndarray R) (v : R) :
  (if identical_times fsmp then Some (times fsmp)
   else np_getitem (times fsmp) index) = Some t ->
  In v (data t) -> In v (data (times fsmp)).
Proof.
  destruct (identical_times fsmp).
  - intros E. injection E as <-. exact (fun H => H).
  - unfold np_getitem.
    destruct (ravel _ index 0) as [off|]; [|discriminate]. cbn [bind].
    intros E. injection E as <-. cbn [data]. intros Hv.
    apply in_firstn in Hv. apply (in_skipn _ _ _ Hv).
Qed.

(** X15.  A design that samples only at the initial time carries no
    information: when every sample time equals every initial time, the
    matrix of absolute sensitivities [get_S_matrix] returns is zero in
    every entry, whatever the integrator returned. *)
Theorem initial_time_only_design_gives_zero_matrix (solve : integrator R)
    (fsmp : FisherModelParametrized R) (n_x n_times : nat) (covar : bool) :
  req_sym_trans R -> valid_design fsmp n_x n_times -> solver_ok solve ->
  (forall t0 v, In t0 (ode_t0 fsmp) -> In v (data (times fsmp)) ->
                req v t0 = true) ->
  exists sols,
    get_S_matrix solve fsmp covar false
    = Some (Ndarray [length (parameters fsmp); total_samples fsmp n_x n_times]
                    (repeat rzero (length (parameters fsmp)
                                   * total_samples fsmp n_x n_times)),
            np_eye (total_samples fsmp n_x n_times), sols).
Proof.
  intros Hreq Hv Hsolve Hall.
  destruct (get_S_matrix_assembles solve fsmp n_x n_times covar false
              Hreq Hv Hsolve) as [S_ [sols [E [Sh [Ld [_ Hcont]]]]]].
  exists sols. rewrite E. f_equal. f_equal. f_equal.
  destruct S_ as [sh d]. cbn [shape data] in *. f_equal; [exact Sh|].
  apply (nth_ext _ _ rzero rzero); [rewrite repeat_length; exact Ld|].
  intros off Hoff. rewrite nth_repeat.
  assert (Hoff' : off < prod (tensor_shape fsmp n_x n_times)).
  { rewrite tensor_shape_cons. cbn [prod fold_right].
    fold (prod (column_shape fsmp n_x n_times)).
    rewrite prod_column_shape. lia. }
  destruct (position_written fsmp n_x n_times off Hoff')
    as (i_x0 & x0 & i_t0 & t0 & index & j & i & k & Hin & Hj & Hi & Hk & Eoff).
  assert (Hin' := Hin). apply in_combinations in Hin'.
  destruct Hin' as [Ex0 [Et0 Hidx]].
  assert (Lx0 : length x0 = n_x).
  { destruct Hv as (_ & _ & _ & _ & Fx0 & _).
    rewrite Forall_forall in Fx0. apply Fx0. eapply nth_error_In. exact Ex0. }
  destruct (combination_blocks solve fsmp n_x n_times x0 t0 index
              Hreq Hv Hsolve Lx0 Hidx)
    as (t & y & s_abs & s_rel & Et & _ & _ & Ea & _ & _ & _ & Hz & _).
  rewrite (Hcont i_x0 x0 i_t0 t0 index s_abs _ j i k off Hin Ea Hj Hi Hk Eoff).
  rewrite Hz; [apply entry_zeros|].
  apply forallb_forall. intros v Hvin.
  apply (Hall t0 v); [eapply nth_error_In; exact Et0|].
  apply (in_selected_times fsmp index t v Et).
  apply in_np_unique. exact Hvin.
Qed.

End BlocksAndPositions.

(** ** The order of the sample times *)

Section TimeOrder.

Context {R : Type} `{Scalar R}.

Hypothesis rle_total : forall x y : R, rle x y = false -> rle y x = true.
Hypothesis rle_trans :
  forall x y z : R, rle x y = true -> rle y z = true -> rle x z = true.
Hypothesis rle_antisym : forall x y : R, rle x y = true -> rle y x = true -> x = y.

Lemma rle_refl (x : R) : rle x x = true.
Proof.
  destruct (rle x x) eqn:E; [reflexivity|]. rewrite (rle_total x x E) in E.
  discriminate E.
Qed.

Lemma nondecreasing_head (x : R) (l : list R) :
  nondecreasing (x :: l) = true -> forall y, In y l -> rle x y = true.
Proof.
  revert x. induction l as [|z l IH]; intros x Hs y Hy; [destruct Hy|].
  apply nondecreasing_cons in Hs. destruct Hs as [Hxz Hs].
  destruct Hy as [<- | Hy]; [exact Hxz|].
  apply (rle_trans _ _ _ Hxz). apply (IH z Hs y Hy).
Qed.

Lemma sorted_permutation_eq (l l' : list R) :
  nondecreasing l = true -> nondecreasing l' = true -> Permutation l l' -> l = l'.
Proof.
  revert l'. induction l as [|x l IH]; intros l' Hs Hs' P.
  - apply Permutation_nil in P. subst l'. reflexivity.
  - destruct l' as [|y l'].
    { apply Permutation_sym, Permutation_nil in P. discriminate P. }
    assert (Exy : x = y).
    { assert (Hx : In x (y :: l')) by (apply (Permutation_in x P); left; reflexivity).
      assert (Hy : In y (x :: l)).
      { apply (Permutation_in y (Permutation_sym P)). left. reflexivity. }
      destruct Hx as [-> | Hx]; [reflexivity|].
      destruct Hy as [-> | Hy]; [reflexivity|].
      apply rle_antisym.
      - apply (nondecreasing_head x l Hs y Hy).
      - apply (nondecreasing_head y l' Hs' x Hx). }
    subst y. f_equal. apply IH.
    + apply nondecreasing_cons in Hs. exact (proj2 Hs).
    + apply nondecreasing_cons in Hs'. exact (proj2 Hs').
    + apply (Permutation_cons_inv P).
Qed.

Lemma np_sort_permutation (l l' : list R) :
  Permutation l l' -> np_sort l = np_sort l'.
Proof.
  intros P. apply sorted_permutation_eq.
  - apply (np_sort_is_nondecreasing rle_total).
  - apply (np_sort_is_nondecreasing rle_total).
  - eapply perm_trans; [apply Permutation_sym, np_sort_perm|].
    eapply perm_trans; [exact P | apply np_sort_perm].
Qed.

Lemma fold_max_spec (l : list R) (a m : R) :
  fold_left (fun m v => if rle m v then v else m) l a = m ->
  (m = a \/ In m l) /\ rle a m = true /\ forall v, In v l -> rle v m = true.
Proof.
  revert a. induction l as [|v l IH]; intros a E; cbn [fold_left] in E.
  - subst m. split; [left; reflexivity|]. split; [apply rle_refl|].
    intros v [].
  - destruct (rle a v) eqn:Eav.
    + destruct (IH v E) as [Hin [Hvm Hall]].
      split; [right; destruct Hin as [-> | Hin]; [left; reflexivity | right; exact Hin]|].
      split; [exact (rle_trans _ _ _ Eav Hvm)|].
      intros w [<- | Hw]; [exact Hvm | apply Hall; exact Hw].
    + destruct (IH a E) as [Hin [Ham Hall]].
      split; [destruct Hin as [-> | Hin]; [left; reflexivity | right; right; exact Hin]|].
      split; [exact Ham|].
      intros w [<- | Hw]; [|apply Hall; exact Hw].
      exact (rle_trans _ _ _ (rle_total _ _ Eav) Ham).
Qed.

Lemma np_max_spec (l : list R) (m : R) :
  np_max l = Some m -> In m l /\ forall v, In v l -> rle v m = true.
Proof.
  destruct l as [|x l]; [discriminate|]. cbn [np_max]. intros E.
  injection E as E. destruct (fold_max_spec l x m E) as [Hin [Hxm Hall]].
  split.
  - destruct Hin as [-> | Hin]; [left; reflexivity | right; exact Hin].
  - intros v [<- | Hv]; [exact Hxm | apply Hall; exact Hv].
Qed.

Lemma np_max_permutation (l l' : list R) :
  Permutation l l' -> np_max l = np_max l'.
Proof.
  intros P.
  destruct (np_max l) as [m|] eqn:E; destruct (np_max l') as [m'|] eqn:E'.
  - apply np_max_spec in E, E'. destruct E as [Hm Hall]. destruct E' as [Hm' Hall'].
    f_equal. apply rle_antisym.
    + apply Hall'. apply (Permutation_in m P Hm).
    + apply Hall. apply (Permutation_in m' (Permutation_sym P) Hm').
  - destruct l' as [|y l']; [|discriminate E'].
    apply Permutation_sym, Permutation_nil in P. subst l. discriminate E.
  - destruct l as [|y l]; [|discriminate E].
    apply Permutation_nil in P. subst l'. discriminate E'.
  - reflexivity.
Qed.

Lemma combination_with_times (solve : integrator R)
    (fsmp : FisherModelParametrized R) (t' : ndarray R) (n_p n_x0 : nat)
    (rel : bool) (x0 : list R) (t0 : R) (index : list nat) :
  identical_times fsmp = true ->
  Permutation (data (times fsmp)) (data t') ->
  combination solve (with_times fsmp t') n_p n_x0 rel x0 t0 index
  = option_map (fun sr => (fst sr, with_record_times (snd sr) t'))
               (combination solve fsmp n_p n_x0 rel x0 t0 index).
Proof.
  intros Hid P. unfold combination.
  cbn [with_times inputs identical_times times parameters ode_fun ode_dfdx
       ode_dfdp ode_args].
  rewrite Hid.
  destruct (mapM _ (enumerate index)) as [Q|]; [|reflexivity]. cbn [bind].
  unfold np_unique. rewrite <- (np_sort_permutation _ _ P).
  rewrite <- (np_max_permutation _ _ P).
  destruct (split (runs (np_sort (data (times fsmp))))) as [t_red counts].
  destruct (np_max (data (times fsmp))) as [t_max|]; [|reflexivity]. cbn [bind].
  match goal with
  | |- bind ?m _ = _ => destruct m as [y|]; [|reflexivity]
  end.
  cbn [bind].
  match goal with
  | |- bind ?m _ = _ => destruct m as [s|]; [|reflexivity]
  end.
  cbn [bind].
  match goal with
  | |- bind ?m _ = _ => destruct m as [s'|]; [|reflexivity]
  end.
  reflexivity.
Qed.

Lemma loop_with_times (solve : integrator R)
    (fsmp : FisherModelParametrized R) (t' : ndarray R) (n_p n_x0 : nat)
    (rel : bool) (l : list ((nat * list R) * (nat * R) * list nat))
    (S0 : ndarray R) (acc : list (FisherResultSingle R)) :
  identical_times fsmp = true ->
  Permutation (data (times fsmp)) (data t') ->
  foldM (fun st c =>
           let '(S_, solutions) := st in
           let '((i_x0, x0), (i_t0, t0), index) := c in
           ' (s, fsrs) <- combination solve (with_times fsmp t') n_p n_x0 rel
                                      x0 t0 index ;;
           S_ <- assign_slice S_ i_t0 i_x0 index s ;;
           Some (S_, solutions ++ [fsrs])) l
        (S0, map (fun r => with_record_times r t') acc)
  = option_map (fun st => (fst st, map (fun r => with_record_times r t') (snd st)))
      (foldM (fun st c =>
                let '(S_, solutions) := st in
                let '((i_x0, x0), (i_t0, t0), index) := c in
                ' (s, fsrs) <- combination solve fsmp n_p n_x0 rel x0 t0 index ;;
                S_ <- assign_slice S_ i_t0 i_x0 index s ;;
                Some (S_, solutions ++ [fsrs])) l (S0, acc)).
Proof.
  intros Hid P. revert S0 acc.
  induction l as [|[[[i_x0 x0] [i_t0 t0]] index] l IH]; intros S0 acc;
    [reflexivity|].
  cbn [foldM].
  rewrite (combination_with_times solve fsmp t' n_p n_x0 rel x0 t0 index Hid P).
  destruct (combination solve fsmp n_p n_x0 rel x0 t0 index) as [[s r]|];
    [|reflexivity].
  cbn [option_map bind fst snd].
  destruct (assign_slice S0 i_t0 i_x0 index s) as [S1|]; [|reflexivity].
  cbn [bind].
  rewrite <- (IH S1 (acc ++ [r])). rewrite map_app. reflexivity.
Qed.

(** X23.  The order of the shared sample times does not matter: with
    [identical_times] set, listing the same sample times in another order
    gives the same matrix [S] and the same covariance, entry for entry (or
    the same failure); the records differ in their [times] field only.
    This holds for every integrator and every design; the order [<=] is
    taken to be total, transitive and antisymmetric. *)
Theorem sample_time_order_is_irrelevant (solve : integrator R)
    (fsmp : FisherModelParametrized R) (t' : ndarray R) (covar rel : bool) :
  identical_times fsmp = true ->
  shape t' = shape (times fsmp) ->
  Permutation (data (times fsmp)) (data t') ->
  get_S_matrix solve (with_times fsmp t') covar rel
  = option_map (fun r => (fst (fst r), snd (fst r),
                          map (fun r => with_record_times r t') (snd r)))
               (get_S_matrix solve fsmp covar rel).
Proof.
  intros Hid Hsh P. unfold get_S_matrix.
  cbn [with_times inputs identical_times times parameters ode_x0 ode_t0].
  destruct (nth_error (ode_x0 fsmp) 0) as [x00|]; [|reflexivity]. cbn [bind].
  unfold np_shape_last. rewrite Hsh.
  destruct (rev (shape (times fsmp))) as [|n_times rs]; [reflexivity|].
  cbn [bind].
  change (combinations (with_times fsmp t')) with (combinations fsmp).
  rewrite (loop_with_times solve fsmp t' _ _ rel (combinations fsmp) _ [] Hid P).
  match goal with
  | |- context [option_map _ ?m] => destruct m as [[S1 sols1]|]; [|reflexivity]
  end.
  cbn [option_map bind fst snd].
  destruct (np_reshape_rows S1 (length (parameters fsmp))) as [S2|]; [|reflexivity].
  cbn [bind].
  destruct (nth_error (shape S2) 1) as [cols|]; reflexivity.
Qed.

Hypothesis req_eq : forall x y : R, req x y = true <-> x = y.

Lemma req_eq_sym_trans : req_sym_trans R.
Proof.
  split.
  - intros a b E. apply req_eq. symmetry. apply req_eq. exact E.
  - intros a b c E1 E2. apply req_eq. apply req_eq in E1, E2. congruence.
Qed.

Lemma strictly_increasing_NoDup (l : list R) :
  nondecreasing l = true -> distinct_adjacent l = true -> NoDup l.
Proof.
  induction l as [|x l IH]; intros Hs Hd; [constructor|].
  assert (Hs' := Hs). apply nondecreasing_cons in Hs'. destruct Hs' as [Hx Hs'].
  destruct l as [|y l]; [constructor; [intros [] | constructor]|].
  cbn [distinct_adjacent] in Hd. apply andb_prop in Hd. destruct Hd as [Hxy Hd].
  constructor; [|apply IH; assumption].
  assert (Hne : x <> y).
  { intros E. apply req_eq in E. rewrite E in Hxy. discriminate Hxy. }
  intros [E | Hin]; [congruence|].
  apply Hne. apply rle_antisym; [exact Hx|].
  apply (nondecreasing_head y l Hs' x Hin).
Qed.

Lemma in_expand_combine (a : list R) (counts : list nat) (v : R) :
  In v (expand (combine a counts)) -> In v a.
Proof.
  revert counts. induction a as [|a0 a IH]; intros [|c0 counts] Hv;
    try destruct Hv.
  unfold expand in Hv. cbn [combine flat_map fst snd] in Hv.
  apply in_app_or in Hv. destruct Hv as [Hv | Hv].
  - apply repeat_spec in Hv. left. symmetry. exact Hv.
  - right. apply (IH counts). exact Hv.
Qed.

(** Two positions of an expansion by [counts] that hold the same entry of a
    duplicate-free list hold the same entry of every list expanded by these
    counts. *)
Lemma expand_same_run (counts : list nat) (a b : list R) (k k' : nat) (d : R) :
  length a = length counts -> length b = length counts -> NoDup a ->
  k < list_sum counts -> k' < list_sum counts ->
  nth k (expand (combine a counts)) d = nth k' (expand (combine a counts)) d ->
  nth k (expand (combine b counts)) d = nth k' (expand (combine b counts)) d.
Proof.
  revert a b k k'. induction counts as [|c0 counts IH]; intros a b k k' La Lb Hnd Hk Hk';
    [simpl in Hk; lia|].
  destruct a as [|a0 a]; [discriminate|]. destruct b as [|b0 b]; [discriminate|].
  cbn [list_sum fold_right] in Hk, Hk'. fold (list_sum counts) in Hk, Hk'.
  inversion Hnd as [|? ? Hnotin Hnd']; subst.
  assert (Lexp : length (expand (combine a counts)) = list_sum counts).
  { apply length_expand_combine. simpl in La. lia. }
  unfold expand in *. cbn [combine flat_map fst snd].
  assert (Hlow : forall (l : list R) (x : R) j, j < c0 ->
            nth j (repeat x c0 ++ l) d = x).
  { intros l x j Hj. rewrite app_nth1 by (rewrite repeat_length; exact Hj).
    apply nth_repeat_lt. exact Hj. }
  assert (Hhigh : forall (l : list R) (x : R) j, c0 <= j ->
            nth j (repeat x c0 ++ l) d = nth (j - c0) l d).
  { intros l x j Hj. rewrite app_nth2 by (rewrite repeat_length; exact Hj).
    rewrite repeat_length. reflexivity. }
  destruct (Nat.lt_ge_cases k c0) as [Hlt | Hge];
    destruct (Nat.lt_ge_cases k' c0) as [Hlt' | Hge'].
  - rewrite !Hlow by assumption. reflexivity.
  - rewrite (Hlow _ _ _ Hlt), (Hhigh _ _ _ Hge'). intros E. exfalso.
    apply Hnotin. apply (in_expand_combine a counts). unfold expand.
    rewrite E. apply nth_In. rewrite Lexp. lia.
  - rewrite (Hhigh _ _ _ Hge), (Hlow _ _ _ Hlt'). intros E. exfalso.
    apply Hnotin. apply (in_expand_combine a counts). unfold expand.
    rewrite <- E. apply nth_In. rewrite Lexp. lia.
  - rewrite !Hhigh by assumption. intros E.
    apply (IH a b (k - c0) (k' - c0)); try assumption; simpl in La, Lb; lia.
Qed.

(** X24.  A sample time that is repeated gives repeated columns: in the
    block of a combination (absolute sensitivities), two columns that
    belong to equal sample times are equal, so that every replicate of a
    measurement enters [S] with the same sensitivities.  ([<=] is taken to
    be total, transitive and antisymmetric, [==] to be identity.) *)
Theorem repeated_times_give_equal_columns (solve : integrator R)
    (fsmp : FisherModelParametrized R) (n_x n_times : nat)
    (x0 : list R) (t0 : R) (index : list nat) :
  valid_design fsmp n_x n_times -> solver_ok solve ->
  length x0 = n_x ->
  Forall2 lt index (map (@length R) (inputs fsmp)) ->
  exists s r,
    combination solve fsmp (length (parameters fsmp)) n_x false x0 t0 index
    = Some (s, r)
    /\ forall k k', k < n_times -> k' < n_times ->
         nth k (np_sort (data (frs_times r))) rzero
         = nth k' (np_sort (data (frs_times r))) rzero ->
         forall j i, j < length (parameters fsmp) -> i < n_x ->
           entry s j i k = entry s j i k'.
Proof.
  intros Hv Hsolve Hx0 Hidx.
  assert (Hreq := req_eq_sym_trans).
  destruct (combination_blocks solve fsmp n_x n_times x0 t0 index
              Hreq Hv Hsolve Hx0 Hidx)
    as (t & y & s_abs & s_rel & _ & Lt & Sy & Ea & _ & _ & _ & Hz & Hrows & _).
  exists s_abs, (solution_record fsmp x0 t0 index t y).
  split; [exact Ea|]. cbn [solution_record frs_times].
  intros k k' Hk Hk' Ekk j i Hj Hi.
  destruct (forallb (fun v => req v t0) (fst (np_unique (data t)))) eqn:Hall.
  - rewrite (Hz eq_refl), !entry_zeros. reflexivity.
  - destruct Sy as [Sy | [_ Habs]]; [|congruence].
    destruct (np_unique_lengths (data t)) as [Llen Lsum].
    unfold entry. rewrite (Hrows eq_refl j i Hj Hi).
    apply (expand_same_run _ (fst (np_unique (data t)))).
    + exact Llen.
    + rewrite <- Llen. apply (has_shape_nth _ _ y _ Sy). nia.
    + apply strictly_increasing_NoDup.
      * rewrite np_unique_eq. cbn [fst].
        apply (runs_nondecreasing rle_trans).
        apply (np_sort_is_nondecreasing rle_total).
      * rewrite np_unique_eq. cbn [fst]. apply distinct_adjacent_runs. exact Hreq.
    + rewrite Lsum, Lt. exact Hk.
    + rewrite Lsum, Lt. exact Hk'.
    + assert (Eexp : expand (combine (fst (np_unique (data t)))
                                     (snd (np_unique (data t))))
                     = np_sort (data t)).
      { unfold np_unique.
        destruct (split (runs (np_sort (data t)))) as [vs cs] eqn:E. cbn [fst snd].
        rewrite (split_combine (runs (np_sort (data t))) E).
        apply expand_runs. intros u v Euv. apply req_eq. exact Euv. }
      rewrite Eexp. exact Ekk.
Qed.

End TimeOrder.

(** ** The further properties at concrete inputs *)

Lemma rle_total_Z : forall x y : Z, rle x y = false -> rle y x = true.
Proof.
  intros x y E. apply Z.leb_le. apply Z.leb_gt in E. lia.
Defined.

Lemma rle_trans_Z :
  forall x y z : Z, rle x y = true -> rle y z = true -> rle x z = true.
Proof.
  intros x y z E1 E2. apply Z.leb_le. apply Z.leb_le in E1, E2. lia.
Defined.

Lemma ode_rhs_needs_full_state_witness :
  ode_rhs 0%Z [1%Z] demo_f demo_dfdx demo_dfdp [] [] [] 2 2 = None.
Proof.
  apply (proj1 (@ode_rhs_needs_full_state Z Scalar_Z 0%Z [1%Z]
                  demo_f demo_dfdx demo_dfdp [] [] [] 2 2 ltac:(lia))).
  simpl. lia.
Defined.

Lemma ode_rhs_at_zero_sensitivities_witness :
  ode_rhs 0%Z [1; 2; 0; 0; 0; 0]%Z demo_f demo_dfdx demo_dfdp [] [] [] 2 2
  = Some [1; 2; 10; 20; 30; 40]%Z.
Proof.
  exact (@ode_rhs_at_zero_sensitivities Z Scalar_Z 0%Z [1; 2]%Z
           demo_f demo_dfdx demo_dfdp [] [] [] 2 Z.mul_0_r Z.add_0_l
           (demo_dfdx_shape _ _ _ _ _) (demo_dfdp_shape _ _ _ _ _)).
Defined.

Lemma ode_rhs_broadcasts_one_row_dfdp_witness :
  ode_rhs 0%Z [1; 2; 3; 4; 5; 6]%Z demo_f demo_dfdx demo_dfdp_row [] [] [] 2 2
  = ode_rhs 0%Z [1; 2; 3; 4; 5; 6]%Z demo_f demo_dfdx
            (fun _ _ _ _ _ => [[10; 20]; [10; 20]]%Z) [] [] [] 2 2.
Proof.
  exact (proj2 (@ode_rhs_broadcasts_one_row_dfdp Z Scalar_Z 0%Z
                  [1; 2; 3; 4; 5; 6]%Z demo_f demo_dfdx demo_dfdp_row [] [] []
                  2 2 [10; 20]%Z ltac:(simpl; lia) (demo_dfdx_shape _ _ _ _ _)
                  eq_refl eq_refl)).
Defined.

Lemma evaluation_times_strictly_increasing_witness :
  nondecreasing (fst (np_unique [1; 0; 1]%Z)) = true
  /\ distinct_adjacent (fst (np_unique [1; 0; 1]%Z)) = true.
Proof.
  destruct (@evaluation_times_strictly_increasing Z Scalar_Z
              rle_total_Z rle_trans_Z [1; 0; 1]%Z req_sym_trans_Z)
    as [Hs [Hd _]].
  split; [exact Hs | exact Hd].
Defined.

Lemma get_S_matrix_rejects_design_witness :
  get_S_matrix constant_solver no_parameter_design false false = None.
Proof.
  exact (@get_S_matrix_rejects_design Z Scalar_Z constant_solver
           no_parameter_design false false (or_introl eq_refl)).
Defined.

Lemma get_S_matrix_all_or_nothing_witness :
  get_S_matrix failing_solver small_design false false = None.
Proof.
  apply (@get_S_matrix_all_or_nothing Z Scalar_Z failing_solver small_design
           false false 0 [1%Z] 0 0%Z [0]).
  - simpl. left. reflexivity.
  - reflexivity.
Defined.

Lemma get_S_matrix_empty_times_fails_witness :
  get_S_matrix constant_solver no_times_design false false = None.
Proof.
  apply (@get_S_matrix_empty_times_fails Z Scalar_Z constant_solver
           no_times_design false false eq_refl).
  simpl. discriminate.
Defined.

Lemma get_S_matrix_without_combinations_witness :
  get_S_matrix failing_solver no_initial_time_design false false
  = Some (Ndarray [1; 0] [], np_eye 0, []).
Proof.
  apply (@get_S_matrix_without_combinations Z Scalar_Z failing_solver
           no_initial_time_design false false);
    simpl; try discriminate.
  left. reflexivity.
Defined.

Lemma records_hold_integrator_calls_witness :
  exists sols,
    Forall2 (integrator_call constant_solver small_design 1)
            (combinations small_design) sols
    /\ length sols = 2.
Proof.
  destruct (get_S_matrix constant_solver small_design false false)
    as [[[S_ C] sols]|] eqn:E; [|vm_compute in E; discriminate E].
  exists sols. split.
  - exact (@records_hold_integrator_calls Z Scalar_Z constant_solver
             small_design false false S_ C sols E).
  - vm_compute in E. injection E as _ _ <-. reflexivity.
Defined.

Lemma relative_flag_changes_entries_only_witness :
  exists S_abs S_rel C sols,
    get_S_matrix constant_solver small_design false false = Some (S_abs, C, sols)
    /\ get_S_matrix constant_solver small_design false true = Some (S_rel, C, sols).
Proof.
  destruct (@relative_flag_changes_entries_only Z Scalar_Z constant_solver
              small_design 1 3 false req_sym_trans_Z small_design_valid
              constant_solver_ok)
    as [Sa [Sr [C [sols [Ea [Er _]]]]]].
  exists Sa, Sr, C, sols. split; [exact Ea | exact Er].
Defined.

Lemma unsorted_design_valid :
  valid_design (with_times small_design (Ndarray [3] [1; 0; 1]%Z)) 1 3.
Proof.
  unfold valid_design. simpl.
  repeat split; try lia; try discriminate. repeat constructor.
Defined.

Lemma block_columns_follow_sorted_times_witness :
  exists s r,
    combination constant_solver (with_times small_design (Ndarray [3] [1; 0; 1]%Z))
                1 1 false [1%Z] 0%Z [0] = Some (s, r)
    /\ frs_times r = Ndarray [3] [1; 0; 1]%Z
    /\ Permutation [1; 0; 1]%Z (np_sort [1; 0; 1]%Z)
    /\ nondecreasing (np_sort [1; 0; 1]%Z) = true
    /\ length (np_sort [1; 0; 1]%Z) = 3
    /\ forall k, k < 3 ->
       exists c,
         c < 2
         /\ nth k (np_sort [1; 0; 1]%Z) 0%Z = nth c [0; 1]%Z 0%Z
         /\ forall j i, j < 1 -> i < 1 ->
              entry s j i k = nth c (nth (1 + (i * 1 + j)) (frs_ode_solution r) []) 0%Z.
Proof.
  destruct (@block_columns_follow_sorted_times Z Scalar_Z constant_solver
              (with_times small_design (Ndarray [3] [1; 0; 1]%Z)) 1 3 [1%Z] 0%Z [0]
              (Ndarray [3] [1; 0; 1]%Z)
              req_sym_trans_Z unsorted_design_valid constant_solver_ok eq_refl
              ltac:(repeat constructor) eq_refl
              (fun x y _ _ => rle_total_Z x y)
              (fun x y _ _ => proj1 (Z.eqb_eq x y)))
    as [s [r [E [Et [P [Hs [L Hcol]]]]]]].
  exists s, r. split; [exact E|]. split; [exact Et|]. split; [exact P|].
  split; [exact Hs|]. split; [exact L|].
  exact (Hcol eq_refl).
Defined.

Lemma every_position_written_once_witness :
  exists S_ C sols,
    get_S_matrix constant_solver small_design false false = Some (S_, C, sols)
    /\ length (data S_) = 6
    /\ forall off, off < length (data S_) ->
       exists i_x0 x0 i_t0 t0 index s r j i k,
         In (i_x0, x0, (i_t0, t0), index) (combinations small_design)
         /\ combination constant_solver small_design 1 1 false x0 t0 index
            = Some (s, r)
         /\ j < 1 /\ i < 1 /\ k < 3
         /\ slice_offset (tensor_shape small_design 1 3) i_t0 i_x0 index (j, i, k)
            = Some off
         /\ nth off (data S_) 0%Z = entry s j i k
         /\ forall c', In c' (combinations small_design) ->
                       written_by (tensor_shape small_design 1 3) c' off ->
                       c' = (i_x0, x0, (i_t0, t0), index).
Proof.
  exact (@every_position_written_once Z Scalar_Z constant_solver small_design
           1 3 false false req_sym_trans_Z small_design_valid constant_solver_ok).
Defined.

Lemma initial_time_only_design_gives_zero_matrix_witness :
  exists sols,
    get_S_matrix constant_solver initial_time_design false false
    = Some (Ndarray [1; 4] [0; 0; 0; 0]%Z, np_eye 4, sols).
Proof.
  apply (@initial_time_only_design_gives_zero_matrix Z Scalar_Z constant_solver
           initial_time_design 1 2 false req_sym_trans_Z
           initial_time_design_valid constant_solver_ok).
  intros t0 v [<- | []] [<- | [<- | []]]; reflexivity.
Defined.

Lemma rle_antisym_Z : forall x y : Z, rle x y = true -> rle y x = true -> x = y.
Proof.
  intros x y E1 E2. apply Z.leb_le in E1, E2. lia.
Defined.

Lemma sample_time_order_is_irrelevant_witness :
  get_S_matrix constant_solver
               (with_times small_design (Ndarray [3] [1; 0; 1]%Z)) false false
  = option_map (fun r => (fst (fst r), snd (fst r),
                          map (fun r => with_record_times r (Ndarray [3] [1; 0; 1]%Z))
                              (snd r)))
               (get_S_matrix constant_solver small_design false false).
Proof.
  exact (@sample_time_order_is_irrelevant Z Scalar_Z rle_total_Z rle_trans_Z
           rle_antisym_Z constant_solver small_design (Ndarray [3] [1; 0; 1]%Z)
           false false eq_refl eq_refl (perm_swap 1%Z 0%Z [1%Z])).
Defined.

Lemma repeated_times_give_equal_columns_witness :
  exists s r,
    combination constant_solver small_design 1 1 false [1%Z] 0%Z [0] = Some (s, r).
Proof.
  destruct (@repeated_times_give_equal_columns Z Scalar_Z rle_total_Z rle_trans_Z
              rle_antisym_Z Z.eqb_eq constant_solver small_design 1 3 [1%Z] 0%Z [0]
              small_design_valid constant_solver_ok eq_refl
              ltac:(repeat constructor))
    as [s [r [E _]]].
  exists s, r. exact E.
Defined.

(** ** The criteria *)

Section CriteriaFacts.

Context {R : Type} `{Scalar R}.

Lemma dotp_maps {A : Type} (f g : A -> R) (l : list A) :
  dotp (map f l) (map g l)
  = fold_left (fun acc x => radd acc (rmul (f x) (g x))) l rzero.
Proof.
  unfold dotp. generalize (@rzero R _) as acc.
  induction l as [|x l IH]; intros acc; [reflexivity|].
  cbn [map combine fold_left fst snd]. apply IH.
Qed.

Section Exact.

Hypothesis Hexact : exact_arithmetic R.

Lemma radd_zero_r (a : R) : radd a rzero = a.
Proof.
  destruct Hexact as (_ & Hc & H0 & _). rewrite Hc. apply H0.
Qed.

(** The inner product with column [j] of the identity picks entry [j]. *)
Lemma fold_unit_column (f : nat -> R) (j a n : nat) (acc : R) :
  fold_left (fun acc l => radd acc (rmul (f l) (if l =? j then rone else rzero)))
            (seq a n) acc
  = if (a <=? j) && (j <? a + n) then radd acc (f j) else acc.
Proof.
  destruct Hexact as (_ & _ & _ & H1 & Hz).
  revert a acc. induction n as [|n IH]; intros a acc.
  - cbn [seq fold_left].
    destruct (a <=? j) eqn:E1; destruct (j <? a + 0) eqn:E2; try reflexivity.
    apply Nat.leb_le in E1. apply Nat.ltb_lt in E2. lia.
  - cbn [seq fold_left]. rewrite IH.
    destruct (a =? j) eqn:Eaj.
    + apply Nat.eqb_eq in Eaj. subst a. rewrite H1.
      replace (S j <=? j) with false by (symmetry; apply Nat.leb_gt; lia).
      rewrite Nat.leb_refl.
      replace (j <? j + S n) with true by (symmetry; apply Nat.ltb_lt; lia).
      reflexivity.
    + apply Nat.eqb_neq in Eaj. rewrite Hz, radd_zero_r.
      destruct (S a <=? j) eqn:E1; destruct (a <=? j) eqn:E1';
        destruct (j <? S a + n) eqn:E2; destruct (j <? a + S n) eqn:E2';
        cbn [andb]; try reflexivity;
        repeat match goal with
               | E : (_ <=? _) = true |- _ => apply Nat.leb_le in E
               | E : (_ <=? _) = false |- _ => apply Nat.leb_gt in E
               | E : (_ <? _) = true |- _ => apply Nat.ltb_lt in E
               | E : (_ <? _) = false |- _ => apply Nat.ltb_ge in E
               end; lia.
Qed.

(** A sum does not depend on the order of its terms. *)
Lemma fold_sum_permutation {A : Type} (g : A -> R) (l l' : list A) (acc : R) :
  Permutation l l' ->
  fold_left (fun acc x => radd acc (g x)) l acc
  = fold_left (fun acc x => radd acc (g x)) l' acc.
Proof.
  destruct Hexact as (Ha & Hc & _).
  intros P. revert acc. induction P as [|x l l' _ IH|x y l|l l' l'' _ IH1 _ IH2];
    intros acc; cbn [fold_left].
  - reflexivity.
  - apply IH.
  - f_equal. rewrite !Ha. f_equal. apply Hc.
  - rewrite IH1. apply IH2.
Qed.

(** [S.dot(np.eye(n))] is [S]. *)
Lemma nd_dot_eye (S_ : ndarray R) (p n : nat) :
  shape S_ = [p; n] -> length (data S_) = p * n ->
  nd_dot S_ (np_eye n) = Some (Ndarray [p; n] (data S_)).
Proof.
  intros Hs Hd. unfold nd_dot. rewrite Hs. cbn [np_eye shape].
  rewrite Nat.eqb_refl. f_equal. f_equal.
  apply (rect_ext _ _ p n rzero).
  - apply length_flat_map_rect, length_seq.
  - exact Hd.
  - intros i j Hi Hj. rewrite nth_flat_map_seq by assumption.
    unfold nd_row, nd_column. rewrite dotp_maps.
    rewrite (fold_left_ext_in _
               (fun acc l => radd acc (rmul (nth (i * n + l) (data S_) rzero)
                                            (if l =? j then rone else rzero)))).
    + rewrite (fold_unit_column (fun l => nth (i * n + l) (data S_) rzero)).
      cbn [Nat.leb Nat.add andb]. apply Nat.ltb_lt in Hj. rewrite Hj.
      destruct Hexact as (_ & _ & H0 & _). apply H0.
    + intros acc l Hl. apply in_seq in Hl.
      rewrite (nth_np_eye n l j) by lia. reflexivity.
Qed.

(** [F] for the identity as covariance: entry [(i, j)] is the sum over
    the columns [l] of [S[i, l] * S[j, l]]. *)
Lemma fisher_matrix_eye (S_ : ndarray R) (p n : nat) :
  shape S_ = [p; n] -> length (data S_) = p * n ->
  fisher_matrix S_ (np_eye n)
  = Some (Ndarray [p; p]
            (flat_map
               (fun i =>
                  map (fun j =>
                         fold_left
                           (fun acc l =>
                              radd acc (rmul (nth (i * n + l) (data S_) rzero)
                                             (nth (j * n + l) (data S_) rzero)))
                           (seq 0 n) rzero)
                      (seq 0 p))
               (seq 0 p))).
Proof.
  intros Hs Hd. unfold fisher_matrix.
  rewrite (nd_dot_eye S_ p n Hs Hd). cbn [bind].
  unfold nd_T. rewrite Hs. cbn [bind]. unfold nd_dot. cbn [shape data].
  rewrite Nat.eqb_refl. f_equal. f_equal.
  apply flat_map_ext. intros i. apply map_ext_in. intros j Hj. apply in_seq in Hj.
  unfold nd_row, nd_column. cbn [data]. rewrite dotp_maps.
  apply fold_left_ext_in. intros acc l Hl. apply in_seq in Hl.
  f_equal. f_equal.
  rewrite (nth_flat_map_seq (fun j0 l0 => nth (l0 * n + j0) (data S_) rzero))
    by lia.
  reflexivity.
Qed.

Lemma take_columns_shape (sigma : list nat) (S_ : ndarray R) (p n : nat) :
  shape S_ = [p; n] -> length sigma = n ->
  shape (take_columns sigma S_) = [p; n]
  /\ length (data (take_columns sigma S_)) = p * n
  /\ forall i l, i < p -> l < n ->
       nth (i * n + l) (data (take_columns sigma S_)) rzero
       = nth (i * n + nth l sigma 0) (data S_) rzero.
Proof.
  intros Hs Hl. unfold take_columns. rewrite Hs. cbn [shape data].
  split; [rewrite Hl; reflexivity|].
  split; [apply length_flat_map_rect; exact Hl|].
  intros i l Hi Hln.
  apply (nth_flat_map_rect (fun i j => nth (i * n + j) (data S_) rzero)
           sigma p n i l rzero 0 Hl Hi Hln).
Qed.

Lemma map_nth_seq {A : Type} (l : list A) (d : A) :
  map (fun k => nth k l d) (seq 0 (length l)) = l.
Proof.
  apply (nth_ext _ _ d d); [rewrite length_map, length_seq; reflexivity|].
  intros k Hk. rewrite length_map, length_seq in Hk.
  rewrite (nth_map_default _ _ k d 0) by (rewrite length_seq; exact Hk).
  rewrite seq_nth by exact Hk. reflexivity.
Qed.

Lemma products_maps {A : Type} (f g : A -> R) (l : list A) :
  map (fun xy => rmul (fst xy) (snd xy)) (combine (map f l) (map g l))
  = map (fun x => rmul (f x) (g x)) l.
Proof.
  induction l as [|x l IH]; [reflexivity|].
  cbn [map combine fst snd]. rewrite IH. reflexivity.
Qed.

Lemma nd_row_take_columns (sigma : list nat) (S_ : ndarray R) (p n i : nat) :
  shape S_ = [p; n] -> length sigma = n -> i < p ->
  nd_row (take_columns sigma S_) n i
  = map (fun x => nth (i * n + x) (data S_) rzero) sigma.
Proof.
  intros Hs Hl Hi.
  destruct (take_columns_shape sigma S_ p n Hs Hl) as [_ [_ He]].
  unfold nd_row.
  rewrite (map_ext_in _ (fun l => nth (i * n + nth l sigma 0) (data S_) rzero)).
  2:{ intros l Hln. apply in_seq in Hln. apply He; lia. }
  rewrite <- (map_map (fun l => nth l sigma 0)
                      (fun x => nth (i * n + x) (data S_) rzero)).
  rewrite <- Hl at 1. rewrite map_nth_seq. reflexivity.
Qed.

(** The products an entry of [S S^T] sums are the same for [S] and for [S]
    with its columns permuted, in another order; no law of arithmetic is
    needed for this. *)
Lemma products_take_columns (sigma : list nat) (S_ : ndarray R) (p n i j : nat) :
  shape S_ = [p; n] -> Permutation sigma (seq 0 n) -> i < p -> j < p ->
  Permutation
    (map (fun xy => rmul (fst xy) (snd xy))
         (combine (nd_row (take_columns sigma S_) n i)
                  (nd_row (take_columns sigma S_) n j)))
    (map (fun xy => rmul (fst xy) (snd xy))
         (combine (nd_row S_ n i) (nd_row S_ n j))).
Proof.
  intros Hs P Hi Hj.
  assert (Hl : length sigma = n).
  { rewrite (Permutation_length P). apply length_seq. }
  rewrite (nd_row_take_columns sigma S_ p n i Hs Hl Hi),
          (nd_row_take_columns sigma S_ p n j Hs Hl Hj).
  unfold nd_row. rewrite !products_maps.
  apply Permutation_map. exact P.
Qed.
(** With exact arithmetic, [F] does not depend on the order of the columns
    of [S]. *)
Lemma fisher_matrix_take_columns (sigma : list nat) (S_ : ndarray R) (p n : nat) :
  shape S_ = [p; n] -> length (data S_) = p * n ->
  Permutation sigma (seq 0 n) ->
  fisher_matrix (take_columns sigma S_) (np_eye n) = fisher_matrix S_ (np_eye n).
Proof.
  intros Hs Hd P.
  assert (Hl : length sigma = n).
  { rewrite (Permutation_length P). apply length_seq. }
  destruct (take_columns_shape sigma S_ p n Hs Hl) as [Hs' [Hd' He]].
  rewrite (fisher_matrix_eye _ p n Hs' Hd'), (fisher_matrix_eye _ p n Hs Hd).
  f_equal. f_equal.
  apply flat_map_ext_in. intros i Hi. apply in_seq in Hi.
  apply map_ext_in. intros j Hj. apply in_seq in Hj.
  rewrite (fold_left_ext_in _
             (fun acc l =>
                radd acc (rmul (nth (i * n + nth l sigma 0) (data S_) rzero)
                               (nth (j * n + nth l sigma 0) (data S_) rzero)))).
  2:{ intros acc l Hln. apply in_seq in Hln. rewrite !He by lia. reflexivity. }
  rewrite <- (fold_left_map'
                (fun acc x => radd acc (rmul (nth (i * n + x) (data S_) rzero)
                                             (nth (j * n + x) (data S_) rzero)))
                (fun l => nth l sigma 0)).
  rewrite <- Hl at 1. rewrite map_nth_seq.
  apply (fold_sum_permutation
           (fun x => rmul (nth (i * n + x) (data S_) rzero)
                          (nth (j * n + x) (data S_) rzero))).
  exact P.
Qed.


End Exact.

End CriteriaFacts.

Lemma exact_arithmetic_Z : exact_arithmetic Z.
Proof.
  unfold exact_arithmetic. cbn [radd rmul rzero rone Scalar_Z].
  repeat split; intros; lia.
Defined.


